(** * Data Alchemist: field coercion, entity detection and data validation

    A shallow embedding of [src/lib/file-parser.ts] (class [FileParser]) and
    [src/lib/validation.ts] (class [DataValidator] and [parsePhaseRange]),
    of the header mapping of the enhanced parser, the cell editor of the
    data table and the validation of the worker thread, together with the
    fragment of the JavaScript runtime these files call into.

    Conventions of the embedding.
    - A JavaScript number is a binary64 number, kept as the decimal
      fraction it is, in a representation with one term per value.  A
      numeral is read, and a sum is rounded, to the nearest binary64
      number, ties to the even significand, as the engines do for numerals
      of any length; [Number::toString] gives the shortest digits that
      read back as the number.  The sign of zero is not represented.
    - An array has at most 2^32 - 1 elements, as the language prescribes;
      the memory of the engine is not represented.
    - JavaScript strings are modelled by [string]: one character per code
      unit, code units 0 to 255.
    - An exception is a value [Throw e] of the type [exc]; [try]/[catch]
      is a case analysis on it. *)

From Stdlib Require Import ZArith List String Ascii Bool Lia.
From Stdlib Require Import DecimalString DecimalPos DecimalN DecimalFacts.
From stdpp Require Import gmap strings list.

#[local] Set Warnings "-register-all,-clear-no-such-hyp".


Local Open Scope Z_scope.

(** ** The JavaScript runtime fragment *)

Module JS.

(** *** Exceptions *)

Inductive js_error : Type := SyntaxError | TypeError | RangeError.

Inductive exc (A : Type) : Type :=
| Ok (a : A)
| Throw (e : js_error).
Arguments Ok {A} a.
Arguments Throw {A} e.

Definition exc_bind {A B} (m : exc A) (k : A -> exc B) : exc B :=
  match m with
  | Ok a => k a
  | Throw e => Throw e
  end.

Definition exc_map {A B} (f : A -> B) (m : exc A) : exc B :=
  match m with
  | Ok a => Ok (f a)
  | Throw e => Throw e
  end.

#[global] Instance exc_ret : MRet exc := fun A a => Ok a.
#[global] Instance exc_mbind : MBind exc := fun A B k m => exc_bind m k.
#[global] Instance exc_fmap : FMap exc := fun A B f m => exc_map f m.

(** [Array.prototype.map] with a callback that may throw: the first
    exception aborts the traversal. *)
Section MapExc.
Context {A B : Type} (f : A -> exc B).

Fixpoint map_exc (l : list A) : exc (list B) :=
  match l with
  | [] => Ok []
  | x :: rest =>
      match f x with
      | Ok y =>
          match map_exc rest with
          | Ok ys => Ok (y :: ys)
          | Throw e => Throw e
          end
      | Throw e => Throw e
      end
  end.
End MapExc.

(** *** Numbers *)

(** A decimal digit other than zero. *)
Inductive digit : Type := D1 | D2 | D3 | D4 | D5 | D6 | D7 | D8 | D9.

Definition digit_val (d : digit) : Z :=
  match d with
  | D1 => 1 | D2 => 2 | D3 => 3 | D4 => 4 | D5 => 5
  | D6 => 6 | D7 => 7 | D8 => 8 | D9 => 9
  end.

Definition digit_of (r : Z) : digit :=
  match r with
  | 1 => D1 | 2 => D2 | 3 => D3 | 4 => D4 | 5 => D5
  | 6 => D6 | 7 => D7 | 8 => D8 | _ => D9
  end.

(** The values of type [number].  [Frac q d k] is the non-integer
    [(10 * q + d) / 10 ^ (k + 1)]: the last decimal place [d] is not zero,
    so a value has exactly one representation. *)
Inductive number : Type :=
| NaN
| Infinity (negative : bool)
| Int (z : Z)
| Frac (q : Z) (d : digit) (k : nat).

#[global] Instance digit_eq_dec : EqDecision digit.
Proof. solve_decision. Defined.

#[global] Instance number_eq_dec : EqDecision number.
Proof. solve_decision. Defined.

(** [decimal m k] is the number [m / 10 ^ k]. *)
Fixpoint decimal (m : Z) (k : nat) : number :=
  match k with
  | O => Int m
  | S k' =>
      if m mod 10 =? 0 then decimal (m / 10) k'
      else Frac (m / 10) (digit_of (m mod 10)) k'
  end.

(** A finite number as a mantissa and a count of decimal places. *)
Definition places (n : number) : Z * nat :=
  match n with
  | Int z => (z, O)
  | Frac q d k => (10 * q + digit_val d, S k)
  | _ => (0, O)
  end.

Definition pow10 (k : nat) : Z := 10 ^ Z.of_nat k.

Definition isNaN (n : number) : bool :=
  match n with NaN => true | _ => false end.

Definition isInteger (n : number) : bool :=
  match n with Int _ => true | _ => false end.

Definition isFinite (n : number) : bool :=
  match n with Int _ | Frac _ _ _ => true | _ => false end.

Definition num_neg (n : number) : number :=
  match n with
  | NaN => NaN
  | Infinity s => Infinity (negb s)
  | Int z => Int (- z)
  | Frac _ _ _ => let '(m, k) := places n in decimal (- m) k
  end.

(** *** Binary64

    A number of the language is a binary64 floating-point number: a
    significand of at most 53 bits times a power of two from
    [2 ^ -1074] to [2 ^ 971].  Every such number is a decimal fraction, and
    it is kept as that fraction.  [binary64 n] is the number that the
    language takes for the real number [n]: the nearest binary64 number,
    the one with the even significand when two are as near, and an
    infinity from [2 ^ 1024 - 2 ^ 970] on. *)

(** The integer nearest to [a / b], the even one when two are as near, for
    [0 <= a] and [0 < b]. *)
Definition round_ratio (a b : Z) : Z :=
  let q := a / b in
  let r := a mod b in
  if (b <? 2 * r) || ((2 * r =? b) && Z.odd q) then q + 1 else q.

(** The integer part of the binary logarithm of [a / b], for [0 < a] and
    [0 < b]. *)
Definition log2_ratio (a b : Z) : Z :=
  let t := Z.log2 a - Z.log2 b in
  if (if 0 <=? t then b * 2 ^ t <=? a else b <=? a * 2 ^ (- t))
  then t else t - 1.

(** The binary64 number for an integer [a] above [2 ^ 53]. *)
Definition binary64_integer (a : Z) : number :=
  let e := Z.log2 a - 52 in
  let v := round_ratio a (2 ^ e) * 2 ^ e in
  if 2 ^ 1024 <=? v then Infinity false else Int v.

(** The binary64 number for [a / 10 ^ k], for [0 < a]. *)
Definition binary64_fraction (a : Z) (k : nat) : number :=
  let b := pow10 k in
  let e := Z.max (-1074) (log2_ratio a b - 52) in
  if 0 <=? e then
    let v := round_ratio a (b * 2 ^ e) * 2 ^ e in
    if 2 ^ 1024 <=? v then Infinity false else Int v
  else
    decimal (round_ratio (a * 2 ^ (- e)) b * 5 ^ (- e)) (Z.to_nat (- e)).

Definition binary64 (n : number) : number :=
  match n with
  | NaN | Infinity _ => n
  | Int z =>
      if Z.abs z <=? 2 ^ 53 then n
      else if 0 <? z then binary64_integer z
      else num_neg (binary64_integer (- z))
  | Frac _ _ _ =>
      let '(m, k) := places n in
      if 0 <? m then binary64_fraction m k
      else num_neg (binary64_fraction (- m) k)
  end.

#[global] Arguments binary64 : simpl never.

(** [a + b] *)
Definition num_add (a b : number) : number :=
  match a, b with
  | NaN, _ | _, NaN => NaN
  | Infinity s, Infinity t => if Bool.eqb s t then Infinity s else NaN
  | Infinity s, _ => Infinity s
  | _, Infinity t => Infinity t
  | Int x, Int y => binary64 (Int (x + y))
  | _, _ =>
      let '(m1, k1) := places a in
      let '(m2, k2) := places b in
      let k := Nat.max k1 k2 in
      binary64 (decimal (m1 * pow10 (k - k1) + m2 * pow10 (k - k2)) k)
  end.

(** [a - b] *)
Definition num_sub (a b : number) : number := num_add a (num_neg b).

(** [a < b]; a comparison with [NaN] is false. *)
Definition num_lt (a b : number) : bool :=
  match a, b with
  | NaN, _ | _, NaN => false
  | Infinity s, Infinity t => s && negb t
  | Infinity s, _ => s
  | _, Infinity t => negb t
  | _, _ =>
      let '(m1, k1) := places a in
      let '(m2, k2) := places b in
      m1 * pow10 k2 <? m2 * pow10 k1
  end.

(** [a > b] *)
Definition num_gt (a b : number) : bool := num_lt b a.

(** Truthiness of a number: [0] and [NaN] are falsy. *)
Definition num_truthy (n : number) : bool :=
  match n with
  | NaN | Int 0 => false
  | _ => true
  end.

(** [a || b] on numbers. *)
Definition num_or (a b : number) : number :=
  if num_truthy a then a else b.

(** *** Strings *)

Definition code (c : ascii) : Z := Z.of_N (N_of_ascii c).

Definition chars (s : string) : list ascii := list_ascii_of_string s.
Definition str (l : list ascii) : string := string_of_list_ascii l.

(** White space and line terminators, as [trim], [parseInt] and [Number]
    skip them: TAB, LF, VT, FF, CR, SP and NBSP. *)
Definition is_space (c : ascii) : bool :=
  let n := code c in
  ((9 <=? n) && (n <=? 13)) || (n =? 32) || (n =? 160).

(** [\d] *)
Definition is_digit (c : ascii) : bool :=
  let n := code c in (48 <=? n) && (n <=? 57).

(** The value of [c] as a digit of the given radix. *)
Definition digit_in (radix : Z) (c : ascii) : option Z :=
  let n := code c in
  let v :=
    if (48 <=? n) && (n <=? 57) then n - 48
    else if (97 <=? n) && (n <=? 122) then n - 87
    else if (65 <=? n) && (n <=? 90) then n - 55
    else 36 in
  if v <? radix then Some v else None.

Definition is_digit_in (radix : Z) (c : ascii) : bool :=
  match digit_in radix c with Some _ => true | None => false end.

(** The number a sequence of digits denotes, most significant first. *)
Definition digits_value (radix : Z) (l : list ascii) : Z :=
  fold_left (fun acc c => acc * radix + default 0 (digit_in radix c)) l 0.

(** The longest prefix of [l] whose characters satisfy [p], and the rest. *)
Fixpoint span (p : ascii -> bool) (l : list ascii) : list ascii * list ascii :=
  match l with
  | [] => ([], [])
  | c :: rest =>
      if p c then let '(a, b) := span p rest in (c :: a, b)
      else ([], l)
  end.

Fixpoint drop_spaces (l : list ascii) : list ascii :=
  match l with
  | [] => []
  | c :: rest => if is_space c then drop_spaces rest else l
  end.

(** [String.prototype.trim] *)
Definition trim_chars (l : list ascii) : list ascii :=
  rev (drop_spaces (rev (drop_spaces l))).

Definition trim (s : string) : string := str (trim_chars (chars s)).

Definition lower_char (c : ascii) : ascii :=
  let n := code c in
  if ((65 <=? n) && (n <=? 90)) ||
     ((192 <=? n) && (n <=? 222) && negb (n =? 215))
  then ascii_of_N (Z.to_N (n + 32))
  else c.

(** [String.prototype.toLowerCase] *)
Definition toLowerCase (s : string) : string :=
  str (map lower_char (chars s)).

(** [String.prototype.split] with a one-character separator. *)
Fixpoint split_chars (sep : ascii) (l : list ascii) : list (list ascii) :=
  match l with
  | [] => [[]]
  | c :: rest =>
      if Ascii.eqb c sep then [] :: split_chars sep rest
      else
        match split_chars sep rest with
        | piece :: pieces => (c :: piece) :: pieces
        | [] => [[c]]
        end
  end.

Definition split (sep : ascii) (s : string) : list string :=
  map str (split_chars sep (chars s)).

(** [!s] on a string: only the empty string is falsy. *)
Definition falsy (s : string) : bool := String.eqb s "".

(** [String.prototype.includes] with a one-character argument. *)
Definition includes (c : ascii) (s : string) : bool :=
  existsb (Ascii.eqb c) (chars s).

(** [Array.prototype.join] on strings. *)
Fixpoint join (sep : string) (l : list string) : string :=
  match l with
  | [] => ""
  | [x] => x
  | x :: rest => x +:+ sep +:+ join sep rest
  end.

(** The regular expression [/^\d+-\d+$/]: digits, a hyphen, digits, and
    nothing else. *)
Definition is_range_chars (l : list ascii) : bool :=
  let '(a, rest) := span is_digit l in
  match a, rest with
  | _ :: _, c :: rest' =>
      let '(b, tail) := span is_digit rest' in
      Ascii.eqb c "-" &&
      match b, tail with
      | _ :: _, [] => true
      | _, _ => false
      end
  | _, _ => false
  end.

Definition matches_range (s : string) : bool := is_range_chars (chars s).

(** *** Numbers and strings *)

Definition nat_digits (n : N) : list ascii :=
  chars (NilZero.string_of_uint (N.to_uint n)).

Fixpoint drop_zeros (l : list ascii) : list ascii :=
  match l with
  | c :: rest => if Ascii.eqb c "0" then drop_zeros rest else l
  | [] => []
  end.

Definition zeros (n : Z) : list ascii := repeat "0"%char (Z.to_nat n).

(** [Number::toString] of the positive number [p / 10 ^ k]. *)
Definition positive_to_chars (p : positive) (k : nat) : list ascii :=
  let ds := nat_digits (Npos p) in
  let s := rev (drop_zeros (rev ds)) in
  let kk := Z.of_nat (length s) in
  let n := Z.of_nat (length ds) - Z.of_nat k in
  if (kk <=? n) && (n <=? 21) then s ++ zeros (n - kk)
  else if (0 <? n) && (n <=? 21) then
    take (Z.to_nat n) s ++ "."%char :: drop (Z.to_nat n) s
  else if (-6 <? n) && (n <=? 0) then
    "0"%char :: "."%char :: zeros (- n) ++ s
  else
    let e := n - 1 in
    let mant :=
      match s with
      | d :: (_ :: _) as more => d :: "."%char :: more
      | _ => s
      end in
    mant ++ "e"%char :: (if 0 <=? e then "+"%char else "-"%char)
         :: nat_digits (Z.to_N (Z.abs e)).

(** The digits of [Number::toString]: for a positive binary64 number
    [x = m / 10 ^ k], the decimal with the fewest digits that the language
    takes for [x], and of two such decimals the one nearer to [x]; the
    search starts with [digits] digits.  Seventeen digits always do. *)
Fixpoint shortest_from (fuel : nat) (digits : Z) (m : Z) (k : nat)
    (x : number) : number :=
  match fuel with
  | O => x
  | S fuel' =>
      let p := Z.of_nat (length (nat_digits (Z.to_N m))) - digits in
      if p <=? 0 then x
      else
        let s := m / 10 ^ p in
        let r := m mod 10 ^ p in
        if r =? 0 then x
        else
          let below := decimal (s * 10 ^ p) k in
          let above := decimal ((s + 1) * 10 ^ p) k in
          let below_first :=
            (2 * r <? 10 ^ p) || ((2 * r =? 10 ^ p) && Z.even s) in
          let '(c1, c2) :=
            if below_first then (below, above) else (above, below) in
          if bool_decide (binary64 c1 = x) then c1
          else if bool_decide (binary64 c2 = x) then c2
          else shortest_from fuel' (digits + 1) m k x
  end.

(** An integer up to [2 ^ 53] is a binary64 number, and no decimal of
    fewer digits is taken for it: its digits are its own. *)
Definition shortest (n : number) : number :=
  match binary64 n with
  | Int z as x =>
      if Z.abs z <=? 2 ^ 53 then x
      else if 0 <? z then shortest_from 17 1 z 0 x
      else num_neg (shortest_from 17 1 (- z) 0 (Int (- z)))
  | Frac _ _ _ as x =>
      let '(m, k) := places x in
      if 0 <? m then shortest_from 17 1 m k x
      else num_neg (shortest_from 17 1 (- m) k (num_neg x))
  | x => x
  end.

#[global] Arguments shortest : simpl never.

(** [Number::toString] *)
Definition num_to_string (n : number) : string :=
  match shortest n with
  | NaN => "NaN"
  | Infinity false => "Infinity"
  | Infinity true => "-Infinity"
  | d =>
      let '(m, k) := places d in
      match m with
      | 0 => "0"
      | Zpos p => str (positive_to_chars p k)
      | Zneg p => str ("-"%char :: positive_to_chars p k)
      end
  end.

(** An optional sign: whether it is a minus sign, and the rest. *)
Definition strip_sign (l : list ascii) : bool * list ascii :=
  match l with
  | c :: rest =>
      if Ascii.eqb c "-" then (true, rest)
      else if Ascii.eqb c "+" then (false, rest)
      else (false, l)
  | [] => (false, [])
  end.

(** A prefix [0x] or [0X]: the rest, if the prefix is there. *)
Definition strip_hex_prefix (l : list ascii) : option (list ascii) :=
  match l with
  | c0 :: c1 :: rest =>
      if Ascii.eqb c0 "0" && (Ascii.eqb c1 "x" || Ascii.eqb c1 "X")
      then Some rest else None
  | _ => None
  end.

(** [parseInt] with no radix argument: leading white space, an optional
    sign, an optional prefix [0x], and the longest run of digits; [NaN] if
    there is no digit.  The result is the binary64 number for the integer
    that the digits denote. *)
Definition parseInt (s : string) : number :=
  let '(negative, l) := strip_sign (drop_spaces (chars s)) in
  let '(radix, l) :=
    match strip_hex_prefix l with
    | Some rest => (16, rest)
    | None => (10, l)
    end in
  match fst (span (is_digit_in radix) l) with
  | [] => NaN
  | ds =>
      let v := digits_value radix ds in
      binary64 (Int (if negative then - v else v))
  end.

(** A prefixed integer literal: all of [l] must be digits of the radix. *)
Definition radix_literal (radix : Z) (l : list ascii) : number :=
  match l with
  | [] => NaN
  | _ => if forallb (is_digit_in radix) l then Int (digits_value radix l) else NaN
  end.

(** The exponent part of a decimal literal: nothing, or [e] or [E], an
    optional sign and at least one digit. *)
Definition exponent_part (l : list ascii) : option Z :=
  match l with
  | [] => Some 0
  | c :: rest =>
      if Ascii.eqb c "e" || Ascii.eqb c "E" then
        let '(negative, ds) := strip_sign rest in
        match ds with
        | [] => None
        | _ =>
            if forallb is_digit ds then
              let v := digits_value 10 ds in
              Some (if negative then - v else v)
            else None
        end
      else None
  end.

(** The fraction of a decimal literal: a point and digits, if the point is
    there; then the rest. *)
Definition fraction_part (l : list ascii) : option (list ascii) * list ascii :=
  match l with
  | c :: rest =>
      if Ascii.eqb c "." then let '(fp, rest') := span is_digit rest in (Some fp, rest')
      else (None, l)
  | [] => (None, [])
  end.

(** An unsigned decimal literal [ddd], [ddd.ddd], [ddd.] or [.ddd] with an
    optional exponent: the digits as an integer, and the power of ten. *)
Definition decimal_literal (l : list ascii) : option (Z * Z) :=
  let '(ip, rest) := span is_digit l in
  let '(fp, rest) := fraction_part rest in
  let fp := default [] fp in
  match ip ++ fp with
  | [] => None
  | ds =>
      match exponent_part rest with
      | Some e => Some (digits_value 10 ds, e - Z.of_nat (length fp))
      | None => None
      end
  end.

(** The number [m * 10 ^ e]. *)
Definition scientific (m e : Z) : number :=
  if 0 <=? e then Int (m * 10 ^ e) else decimal m (Z.to_nat (- e)).

(** A prefix [0x], [0o] or [0b], in either case: the radix and the rest. *)
Definition strip_radix_prefix (l : list ascii) : option (Z * list ascii) :=
  match l with
  | c0 :: c1 :: rest =>
      if Ascii.eqb c0 "0" then
        if Ascii.eqb c1 "x" || Ascii.eqb c1 "X" then Some (16, rest)
        else if Ascii.eqb c1 "o" || Ascii.eqb c1 "O" then Some (8, rest)
        else if Ascii.eqb c1 "b" || Ascii.eqb c1 "B" then Some (2, rest)
        else None
      else None
  | _ => None
  end.

(** [Number(s)] on a string, the conversion StringToNumber: the string
    without the white space around it is empty, a prefixed integer literal,
    or a signed decimal literal or [Infinity]; anything else is [NaN].  The
    result is the binary64 number for the value of the literal. *)
Definition string_to_number (s : string) : number :=
  match trim_chars (chars s) with
  | [] => Int 0
  | l =>
      match strip_radix_prefix l with
      | Some (radix, rest) => binary64 (radix_literal radix rest)
      | None =>
          let '(negative, body) := strip_sign l in
          if String.eqb (str body) "Infinity" then Infinity negative
          else
            match decimal_literal body with
            | Some (m, e) =>
                binary64 (scientific (if negative then - m else m) e)
            | None => NaN
            end
      end
  end.

(** *** Values *)

(** The values the two files handle: the primitives, arrays, and plain
    objects as [JSON.parse] builds them.  An object is the list of its own
    properties; the order of the properties is never observed. *)
Inductive value : Type :=
| VUndefined
| VNull
| VBool (b : bool)
| VNum (n : number)
| VStr (s : string)
| VArr (elems : list value)
| VObj (props : list (string * value)).

(** [o[key]] on the own properties of a plain object. *)
Fixpoint get_prop (key : string) (props : list (string * value)) : value :=
  match props with
  | [] => VUndefined
  | (k, v) :: rest => if String.eqb k key then v else get_prop key rest
  end.

Fixpoint has_prop (key : string) (props : list (string * value)) : bool :=
  match props with
  | [] => false
  | (k, _) :: rest => String.eqb k key || has_prop key rest
  end.

(** Defining a property: a later definition of a key replaces the value. *)
Fixpoint set_prop (key : string) (v : value) (props : list (string * value))
  : list (string * value) :=
  match props with
  | [] => [(key, v)]
  | (k, w) :: rest =>
      if String.eqb k key then (k, v) :: rest
      else (k, w) :: set_prop key v rest
  end.

(** [String(v)], the conversion ToString.  An array is joined with commas,
    [null] and [undefined] elements giving the empty string.  A plain object
    gives ["[object Object]"], unless it has an own property [toString]:
    that property is not callable and the conversion throws a TypeError. *)
Fixpoint to_string (v : value) : exc string :=
  match v with
  | VUndefined => Ok "undefined"
  | VNull => Ok "null"
  | VBool true => Ok "true"
  | VBool false => Ok "false"
  | VNum n => Ok (num_to_string n)
  | VStr s => Ok s
  | VArr elems =>
      exc_map (join ",")
        (map_exc (fun x =>
                    match x with
                    | VUndefined | VNull => Ok ""
                    | _ => to_string x
                    end) elems)
  | VObj props =>
      if has_prop "toString" props then Throw TypeError
      else Ok "[object Object]"
  end.

(** [Number(v)], the conversion ToNumber. *)
Definition to_number (v : value) : exc number :=
  match v with
  | VUndefined => Ok NaN
  | VNull => Ok (Int 0)
  | VBool true => Ok (Int 1)
  | VBool false => Ok (Int 0)
  | VNum n => Ok n
  | VStr s => Ok (string_to_number s)
  | VArr _ | VObj _ => exc_map string_to_number (to_string v)
  end.

(** *** JSON.parse *)

Inductive token : Type :=
| TLBracket | TRBracket | TLBrace | TRBrace | TComma | TColon
| TString (s : string)
| TNumber (n : number)
| TTrue | TFalse | TNull.

(** A number literal of JSON: an optional minus sign; an integer part, [0]
    or digits that do not start with [0]; an optional fraction, a point and
    at least one digit; an optional exponent. *)
Definition json_number (l : list ascii) : option number :=
  let '(negative, body) :=
    match l with
    | c :: rest => if Ascii.eqb c "-" then (true, rest) else (false, l)
    | [] => (false, [])
    end in
  let '(ip, rest) := span is_digit body in
  let int_ok :=
    match ip with
    | [] => false
    | c :: _ :: _ => negb (Ascii.eqb c "0")
    | _ => true
    end in
  let '(fp, rest) := fraction_part rest in
  let frac_ok :=
    match fp with
    | Some [] => false
    | _ => true
    end in
  let fp := default [] fp in
  if int_ok && frac_ok then
    match exponent_part rest with
    | Some e =>
        let m := digits_value 10 (ip ++ fp) in
        Some (binary64
                (scientific (if negative then - m else m)
                   (e - Z.of_nat (length fp))))
    | None => None
    end
  else None.

Definition json_word (l : list ascii) : option token :=
  let w := str l in
  if String.eqb w "true" then Some TTrue
  else if String.eqb w "false" then Some TFalse
  else if String.eqb w "null" then Some TNull
  else None.

(** The states of the lexer; the characters read so far are kept in
    reverse order. *)
Inductive lex_state : Type :=
| LStart
| LString (acc : list ascii)
| LEscape (acc : list ascii)
| LUnicode (acc : list ascii) (hex : list ascii)
| LNumber (acc : list ascii)
| LWord (acc : list ascii).

Definition quote : ascii := "034"%char.

Definition is_json_space (c : ascii) : bool :=
  let n := code c in (n =? 9) || (n =? 10) || (n =? 13) || (n =? 32).

Definition is_number_char (c : ascii) : bool :=
  is_digit c || Ascii.eqb c "-" || Ascii.eqb c "+" || Ascii.eqb c "."
  || Ascii.eqb c "e" || Ascii.eqb c "E".

Definition is_word_char (c : ascii) : bool :=
  let n := code c in (97 <=? n) && (n <=? 122).

(** A character read between two tokens: the tokens it completes and the
    next state. *)
Definition lex_start (c : ascii) : option (list token * lex_state) :=
  if is_json_space c then Some ([], LStart)
  else if Ascii.eqb c "[" then Some ([TLBracket], LStart)
  else if Ascii.eqb c "]" then Some ([TRBracket], LStart)
  else if Ascii.eqb c "{" then Some ([TLBrace], LStart)
  else if Ascii.eqb c "}" then Some ([TRBrace], LStart)
  else if Ascii.eqb c "," then Some ([TComma], LStart)
  else if Ascii.eqb c ":" then Some ([TColon], LStart)
  else if Ascii.eqb c quote then Some ([], LString [])
  else if is_digit c || Ascii.eqb c "-" then Some ([], LNumber [c])
  else if is_word_char c then Some ([], LWord [c])
  else None.

(** An escape [\uXXXX] denotes the code unit [XXXX]; a code unit above 255
    has no character in this model and is kept modulo 256. *)
Definition unicode_escape (hex : list ascii) : ascii :=
  ascii_of_N (Z.to_N (digits_value 16 hex mod 256)).

Definition lex_step (st : lex_state) (c : ascii)
  : option (list token * lex_state) :=
  match st with
  | LStart => lex_start c
  | LString acc =>
      if Ascii.eqb c quote then Some ([TString (str (rev acc))], LStart)
      else if Ascii.eqb c "\" then Some ([], LEscape acc)
      else if code c <? 32 then None
      else Some ([], LString (c :: acc))
  | LEscape acc =>
      if Ascii.eqb c quote || Ascii.eqb c "\" || Ascii.eqb c "/"
      then Some ([], LString (c :: acc))
      else if Ascii.eqb c "b" then Some ([], LString ("008"%char :: acc))
      else if Ascii.eqb c "f" then Some ([], LString ("012"%char :: acc))
      else if Ascii.eqb c "n" then Some ([], LString ("010"%char :: acc))
      else if Ascii.eqb c "r" then Some ([], LString ("013"%char :: acc))
      else if Ascii.eqb c "t" then Some ([], LString ("009"%char :: acc))
      else if Ascii.eqb c "u" then Some ([], LUnicode acc [])
      else None
  | LUnicode acc hex =>
      if is_digit_in 16 c then
        let hex' := hex ++ [c] in
        if Nat.eqb (length hex') 4
        then Some ([], LString (unicode_escape hex' :: acc))
        else Some ([], LUnicode acc hex')
      else None
  | LNumber acc =>
      if is_number_char c then Some ([], LNumber (c :: acc))
      else
        match json_number (rev acc), lex_start c with
        | Some n, Some (toks, st') => Some (TNumber n :: toks, st')
        | _, _ => None
        end
  | LWord acc =>
      if is_word_char c then Some ([], LWord (c :: acc))
      else
        match json_word (rev acc), lex_start c with
        | Some t, Some (toks, st') => Some (t :: toks, st')
        | _, _ => None
        end
  end.

Fixpoint lex (st : lex_state) (l : list ascii) : option (list token) :=
  match l with
  | [] =>
      match st with
      | LStart => Some []
      | LNumber acc => option_map (fun n => [TNumber n]) (json_number (rev acc))
      | LWord acc => option_map (fun t => [t]) (json_word (rev acc))
      | _ => None
      end
  | c :: rest =>
      match lex_step st c with
      | Some (toks, st') => option_map (app toks) (lex st' rest)
      | None => None
      end
  end.

(** The containers that are open while the tokens are read. *)
Inductive frame : Type :=
| FArr (acc : list value)
| FObj (acc : list (string * value)) (key : string).

Inductive parse_state : Type :=
| SValue (stack : list frame)
| SArrStart (stack : list frame)
| SAfterArr (acc : list value) (stack : list frame)
| SObjStart (stack : list frame)
| SKey (acc : list (string * value)) (stack : list frame)
| SColon (acc : list (string * value)) (key : string) (stack : list frame)
| SAfterObj (acc : list (string * value)) (stack : list frame)
| SDone (v : value).

(** A value is complete: it is the result, or goes into the innermost open
    container. *)
Definition complete (v : value) (stack : list frame) : parse_state :=
  match stack with
  | [] => SDone v
  | FArr acc :: st => SAfterArr (v :: acc) st
  | FObj acc key :: st => SAfterObj (set_prop key v acc) st
  end.

Definition parse_value (t : token) (stack : list frame) : option parse_state :=
  match t with
  | TLBracket => Some (SArrStart stack)
  | TLBrace => Some (SObjStart stack)
  | TString s => Some (complete (VStr s) stack)
  | TNumber n => Some (complete (VNum n) stack)
  | TTrue => Some (complete (VBool true) stack)
  | TFalse => Some (complete (VBool false) stack)
  | TNull => Some (complete VNull stack)
  | _ => None
  end.

Definition parse_step (st : parse_state) (t : token) : option parse_state :=
  match st, t with
  | SValue stack, _ => parse_value t stack
  | SArrStart stack, TRBracket => Some (complete (VArr []) stack)
  | SArrStart stack, _ => parse_value t (FArr [] :: stack)
  | SAfterArr acc stack, TComma => Some (SValue (FArr acc :: stack))
  | SAfterArr acc stack, TRBracket => Some (complete (VArr (rev acc)) stack)
  | SObjStart stack, TRBrace => Some (complete (VObj []) stack)
  | SObjStart stack, TString k => Some (SColon [] k stack)
  | SKey acc stack, TString k => Some (SColon acc k stack)
  | SColon acc k stack, TColon => Some (SValue (FObj acc k :: stack))
  | SAfterObj acc stack, TComma => Some (SKey acc stack)
  | SAfterObj acc stack, TRBrace => Some (complete (VObj acc) stack)
  | _, _ => None
  end.

Fixpoint parse_tokens (st : parse_state) (l : list token) : option value :=
  match l with
  | [] => match st with SDone v => Some v | _ => None end
  | t :: rest =>
      match parse_step st t with
      | Some st' => parse_tokens st' rest
      | None => None
      end
  end.

(** [JSON.parse(text)]: the value, or a SyntaxError. *)
Definition JSON_parse (text : string) : exc value :=
  match lex LStart (chars text) with
  | Some toks =>
      match parse_tokens (SValue []) toks with
      | Some v => Ok v
      | None => Throw SyntaxError
      end
  | None => Throw SyntaxError
  end.

End JS.

(** ** The entity types ([@/types]) *)

Module Types.
Import JS.

(** A value that is not an array. *)
Inductive other : Type :=
| OUndefined
| ONull
| OBool (b : bool)
| ONum (n : number)
| OStr (s : string)
| OObj (props : list (string * value)).

(** A field declared [A[]] in the interfaces, as the checks of the validator
    see it at run time: an array of [A], or a value that is not an array. *)
Inductive loose (A : Type) : Type :=
| Arr (xs : list A)
| NotArr (v : other).
Arguments Arr {A} xs.
Arguments NotArr {A} v.

Definition isArray {A} (f : loose A) : bool :=
  match f with Arr _ => true | NotArr _ => false end.

(** The three interfaces.  The scalar fields and the elements of the lists
    have the types of their declarations, which is what file ingestion
    builds.  A list field as a whole is [loose]: the validator tests it with
    [Array.isArray], and the cell editor can store a value that is not an
    array in [AvailableSlots] and [PreferredPhases].  An array whose
    elements are not numbers, which the editor can store there as well, is
    outside these records. *)
Record Client : Type := {
  ClientID : string;
  ClientName : string;
  PriorityLevel : number;
  RequestedTaskIDs : loose string;
  GroupTag : string;
  AttributesJSON : value
}.

Record Worker : Type := {
  WorkerID : string;
  WorkerName : string;
  Skills : loose string;
  AvailableSlots : loose number;
  MaxLoadPerPhase : number;
  WorkerGroup : string;
  QualificationLevel : number
}.

Record Task : Type := {
  TaskID : string;
  TaskName : string;
  Category : string;
  Duration : number;
  RequiredSkills : loose string;
  PreferredPhases : loose number;
  MaxConcurrent : number
}.

Inductive severity : Type := error | warning | info.

Inductive entity_tag : Type := client | worker | task.

Record ValidationError : Type := {
  id : string;
  type : severity;
  message : string;
  field : option string;
  rowIndex : option nat;
  entity : entity_tag
}.

End Types.

(** ** File ingestion ([src/lib/file-parser.ts]) *)

Module FileParser.
Import JS Types.

(** A try block that may return from the function, with an empty catch
    clause, followed by the rest of the function: [body] is [Ok (Some r)]
    when the block returns [r], [Ok None] when it runs to its end, and
    [Throw e] when it throws. *)
Definition try_return {A} (body : exc (option A)) (rest : exc A) : exc A :=
  match body with
  | Ok (Some r) => Ok r
  | Ok None => rest
  | Throw _ => rest
  end.

Definition detectEntityType (headers : list string) : entity_tag :=
  let headerSet : gset string := list_to_set (map toLowerCase headers) in
  let has (x : string) : bool := bool_decide (x ∈ headerSet) in
  if has "clientid" || has "client_id" ||
     has "prioritylevel" || has "requestedtaskids" then client
  else if has "workerid" || has "worker_id" ||
          has "skills" || has "availableslots" ||
          has "maxloadperphase" || has "workergroup" then worker
  else if has "taskid" || has "task_id" ||
          has "duration" || has "requiredskills" ||
          has "preferredphases" || has "maxconcurrent" then task
  else client.

(** A row of the uploaded table: an object from header to cell. *)
Abbreviation row := (gmap string value).

Fixpoint getValue (r : row) (keys : list string) : exc string :=
  match keys with
  | [] => Ok ""
  | key :: rest =>
      match r !! key with
      | None | Some VUndefined | Some VNull => getValue r rest
      | Some v => trim <$> to_string v
      end
  end.

Definition parseArray (value : string) : exc (list string) :=
  if falsy value then Ok []
  else
    try_return
      (parsed ← JSON_parse value;
       match parsed with
       | VArr elems => Some <$> map_exc to_string elems
       | _ => Ok None
       end)
      (Ok (List.filter (fun item => Nat.ltb 0 (String.length item))
             (map trim (split "," value)))).

Definition notNaN (n : number) : bool := negb (isNaN n).

Definition parseNumberArray (value : string) : exc (list number) :=
  if falsy value then Ok []
  else
    try_return
      (parsed ← JSON_parse value;
       match parsed with
       | VArr elems => (fun ns => Some (List.filter notNaN ns)) <$> map_exc to_number elems
       | _ => Ok None
       end)
      (Ok (List.filter notNaN (map (fun item => parseInt (trim item)) (split "," value)))).

Definition parsePhases (value : string) : exc (loose number) :=
  if falsy value then Ok (Arr [])
  else if matches_range value then Ok (NotArr (OStr value))
  else
    try_return
      (parsed ← JSON_parse value;
       match parsed with
       | VArr elems => (fun ns => Some (Arr (List.filter notNaN ns))) <$> map_exc to_number elems
       | _ => Ok None
       end)
      (let numbers :=
         List.filter notNaN (map (fun item => parseInt (trim item)) (split "," value)) in
       Ok (if Nat.ltb 0 (length numbers) then Arr numbers
           else NotArr (OStr value))).

Definition transformClient (r : row) : exc Client :=
  cid ← getValue r ["ClientID"; "client_id"; "id"];
  cname ← getValue r ["ClientName"; "client_name"; "name"];
  priority ← getValue r ["PriorityLevel"; "priority_level"; "priority"];
  tasks ← getValue r ["RequestedTaskIDs"; "requested_task_ids"; "tasks"];
  requested ← parseArray tasks;
  group ← getValue r ["GroupTag"; "group_tag"; "group"];
  attributes ← getValue r ["AttributesJSON"; "attributes_json"; "attributes"];
  Ok {| ClientID := cid;
        ClientName := cname;
        PriorityLevel := num_or (parseInt priority) (Int 1);
        RequestedTaskIDs := Arr requested;
        GroupTag := group;
        AttributesJSON := VStr attributes |}.

Definition transformWorker (r : row) : exc Worker :=
  wid ← getValue r ["WorkerID"; "worker_id"; "id"];
  wname ← getValue r ["WorkerName"; "worker_name"; "name"];
  skills ← getValue r ["Skills"; "skills"];
  skills ← parseArray skills;
  slots ← getValue r ["AvailableSlots"; "available_slots"; "slots"];
  slots ← parseNumberArray slots;
  load ← getValue r ["MaxLoadPerPhase"; "max_load_per_phase"; "max_load"];
  group ← getValue r ["WorkerGroup"; "worker_group"; "group"];
  level ← getValue r ["QualificationLevel"; "qualification_level"; "level"];
  Ok {| WorkerID := wid;
        WorkerName := wname;
        Skills := Arr skills;
        AvailableSlots := Arr slots;
        MaxLoadPerPhase := num_or (parseInt load) (Int 1);
        WorkerGroup := group;
        QualificationLevel := num_or (parseInt level) (Int 1) |}.

Definition transformTask (r : row) : exc Task :=
  tid ← getValue r ["TaskID"; "task_id"; "id"];
  tname ← getValue r ["TaskName"; "task_name"; "name"];
  category ← getValue r ["Category"; "category"];
  duration ← getValue r ["Duration"; "duration"];
  skills ← getValue r ["RequiredSkills"; "required_skills"; "skills"];
  skills ← parseArray skills;
  phases ← getValue r ["PreferredPhases"; "preferred_phases"; "phases"];
  phases ← parsePhases phases;
  concurrent ← getValue r ["MaxConcurrent"; "max_concurrent"; "concurrent"];
  Ok {| TaskID := tid;
        TaskName := tname;
        Category := category;
        Duration := num_or (parseInt duration) (Int 1);
        RequiredSkills := Arr skills;
        PreferredPhases := phases;
        MaxConcurrent := num_or (parseInt concurrent) (Int 1) |}.

End FileParser.

(** ** Validation ([src/lib/validation.ts]) *)

Module Validation.
Import JS Types.

(** *** Map

    A [Map] keeps its entries in the order in which their keys were first
    set; [forEach] visits them in that order. *)
Section JSMap.
Context {K V : Type} `{EqDecision K}.

Fixpoint map_get (k : K) (m : list (K * V)) : option V :=
  match m with
  | [] => None
  | (k', v) :: rest => if decide (k' = k) then Some v else map_get k rest
  end.

Fixpoint map_set (k : K) (v : V) (m : list (K * V)) : list (K * V) :=
  match m with
  | [] => [(k, v)]
  | (k', v') :: rest =>
      if decide (k' = k) then (k', v) :: rest
      else (k', v') :: map_set k v rest
  end.
End JSMap.

(** [x.length] for the value [x] of a field declared as an array: reading
    a property of [null] or [undefined] throws a TypeError; a number or a
    boolean has no such property. *)
Definition length_of {A} (f : loose A) : exc value :=
  match f with
  | Arr xs => Ok (VNum (Int (Z.of_nat (length xs))))
  | NotArr (OStr s) => Ok (VNum (Int (Z.of_nat (String.length s))))
  | NotArr (OObj props) => Ok (get_prop "length" props)
  | NotArr (ONum _) | NotArr (OBool _) => Ok VUndefined
  | NotArr OUndefined | NotArr ONull => Throw TypeError
  end.

(** [a < b] where [b] is a number: [a] is converted to a number. *)
Definition less_than (a : value) (b : number) : exc bool :=
  n ← to_number a; Ok (num_lt n b).

(** [worker.AvailableSlots.length < worker.MaxLoadPerPhase] *)
Definition overloaded (w : Worker) : exc bool :=
  len ← length_of (AvailableSlots w);
  less_than len (MaxLoadPerPhase w).

Definition isValidPhaseRange (range : string) : bool := matches_range range.

Section DataValidator.
(** The identifier [`${Date.now()}-${Math.random()}`] of an issue comes
    from the clock and the random generator: [fresh_id n] is the
    identifier drawn for the issue that is pushed when [n] issues have
    been pushed in the run. *)
Variable fresh_id : nat -> string.

Abbreviation errors_t := (list ValidationError).

Definition addError (type : severity) (message : string)
    (field : option string) (rowIndex : option nat) (entity : entity_tag)
    (errors : errors_t) : errors_t :=
  errors ++ [ {| id := fresh_id (length errors);
                 type := type;
                 message := message;
                 field := field;
                 rowIndex := rowIndex;
                 entity := entity |} ].

(** [if (cond) { action }] *)
Definition when (cond : bool) (action : errors_t -> errors_t)
    (errors : errors_t) : errors_t :=
  if cond then action errors else errors.

(** The body of the loop of [validateClients]. *)
Definition validateClient (clientIds : gset string) (c : Client)
    (index : nat) (errors : errors_t) : errors_t :=
  let errors :=
    when (falsy (ClientID c))
      (addError error "Missing ClientID" (Some "ClientID") (Some index) client)
      errors in
  let errors :=
    when (falsy (ClientName c))
      (addError error "Missing ClientName" (Some "ClientName") (Some index) client)
      errors in
  let errors :=
    when (bool_decide (ClientID c ∈ clientIds))
      (addError error ("Duplicate ClientID: " +:+ ClientID c)
         (Some "ClientID") (Some index) client)
      errors in
  let errors :=
    when (num_lt (PriorityLevel c) (Int 1) || num_gt (PriorityLevel c) (Int 5))
      (addError error "PriorityLevel must be between 1-5"
         (Some "PriorityLevel") (Some index) client)
      errors in
  let errors :=
    when (negb (isArray (RequestedTaskIDs c)))
      (addError error "RequestedTaskIDs must be an array"
         (Some "RequestedTaskIDs") (Some index) client)
      errors in
  match AttributesJSON c with
  | VStr s =>
      match JSON_parse s with
      | Ok _ => errors
      | Throw _ =>
          addError error "Invalid JSON in AttributesJSON"
            (Some "AttributesJSON") (Some index) client errors
      end
  | _ => errors
  end.

Fixpoint validateClients_from (clients : list Client) (index : nat)
    (clientIds : gset string) (errors : errors_t) : errors_t :=
  match clients with
  | [] => errors
  | c :: rest =>
      validateClients_from rest (S index) ({[ ClientID c ]} ∪ clientIds)
        (validateClient clientIds c index errors)
  end.

Definition validateClients (clients : list Client) (errors : errors_t)
  : errors_t :=
  validateClients_from clients 0 ∅ errors.

Definition invalidSlot (slot : number) : bool :=
  negb (isInteger slot) || num_lt slot (Int 1).

(** The body of the loop of [validateWorkers]. *)
Definition validateWorker (workerIds : gset string) (w : Worker)
    (index : nat) (errors : errors_t) : exc errors_t :=
  let errors :=
    when (falsy (WorkerID w))
      (addError error "Missing WorkerID" (Some "WorkerID") (Some index) worker)
      errors in
  let errors :=
    when (falsy (WorkerName w))
      (addError error "Missing WorkerName" (Some "WorkerName") (Some index) worker)
      errors in
  let errors :=
    when (bool_decide (WorkerID w ∈ workerIds))
      (addError error ("Duplicate WorkerID: " +:+ WorkerID w)
         (Some "WorkerID") (Some index) worker)
      errors in
  let errors :=
    when (negb (isArray (Skills w)))
      (addError error "Skills must be an array" (Some "Skills") (Some index) worker)
      errors in
  let errors :=
    match AvailableSlots w with
    | NotArr _ =>
        addError error "AvailableSlots must be an array"
          (Some "AvailableSlots") (Some index) worker errors
    | Arr slots =>
        let invalidSlots := List.filter invalidSlot slots in
        when (Nat.ltb 0 (length invalidSlots))
          (addError error "AvailableSlots must contain positive integers"
             (Some "AvailableSlots") (Some index) worker)
          errors
    end in
  let errors :=
    when (negb (isInteger (MaxLoadPerPhase w)) || num_lt (MaxLoadPerPhase w) (Int 1))
      (addError error "MaxLoadPerPhase must be a positive integer"
         (Some "MaxLoadPerPhase") (Some index) worker)
      errors in
  overloaded ← overloaded w;
  Ok (when overloaded
        (addError warning "Worker has more max load than available slots"
           (Some "MaxLoadPerPhase") (Some index) worker)
        errors).

Fixpoint validateWorkers_from (workers : list Worker) (index : nat)
    (workerIds : gset string) (errors : errors_t) : exc errors_t :=
  match workers with
  | [] => Ok errors
  | w :: rest =>
      errors ← validateWorker workerIds w index errors;
      validateWorkers_from rest (S index) ({[ WorkerID w ]} ∪ workerIds) errors
  end.

Definition validateWorkers (workers : list Worker) (errors : errors_t)
  : exc errors_t :=
  validateWorkers_from workers 0 ∅ errors.

(** The body of the loop of [validateTasks]. *)
Definition validateTask (taskIds : gset string) (t : Task)
    (index : nat) (errors : errors_t) : errors_t :=
  let errors :=
    when (falsy (TaskID t))
      (addError error "Missing TaskID" (Some "TaskID") (Some index) task)
      errors in
  let errors :=
    when (falsy (TaskName t))
      (addError error "Missing TaskName" (Some "TaskName") (Some index) task)
      errors in
  let errors :=
    when (bool_decide (TaskID t ∈ taskIds))
      (addError error ("Duplicate TaskID: " +:+ TaskID t)
         (Some "TaskID") (Some index) task)
      errors in
  let errors :=
    when (negb (isInteger (Duration t)) || num_lt (Duration t) (Int 1))
      (addError error "Duration must be a positive integer"
         (Some "Duration") (Some index) task)
      errors in
  let errors :=
    when (negb (isArray (RequiredSkills t)))
      (addError error "RequiredSkills must be an array"
         (Some "RequiredSkills") (Some index) task)
      errors in
  let errors :=
    when (negb (isInteger (MaxConcurrent t)) || num_lt (MaxConcurrent t) (Int 1))
      (addError error "MaxConcurrent must be a positive integer"
         (Some "MaxConcurrent") (Some index) task)
      errors in
  match PreferredPhases t with
  | NotArr (OStr s) =>
      when (negb (isValidPhaseRange s))
        (addError error "Invalid PreferredPhases format"
           (Some "PreferredPhases") (Some index) task)
        errors
  | NotArr _ =>
      addError error "PreferredPhases must be an array or range string"
        (Some "PreferredPhases") (Some index) task errors
  | Arr _ => errors
  end.

Fixpoint validateTasks_from (tasks : list Task) (index : nat)
    (taskIds : gset string) (errors : errors_t) : errors_t :=
  match tasks with
  | [] => errors
  | t :: rest =>
      validateTasks_from rest (S index) ({[ TaskID t ]} ∪ taskIds)
        (validateTask taskIds t index errors)
  end.

Definition validateTasks (tasks : list Task) (errors : errors_t) : errors_t :=
  validateTasks_from tasks 0 ∅ errors.

(** [w => w.Skills] under [flatMap]: an array contributes its elements, a
    value that is not an array contributes itself.  The set is only asked
    for required skills, which are strings, so of the values that are not
    arrays only a string can be found in it. *)
Definition flatSkills (w : Worker) : list string :=
  match Skills w with
  | Arr xs => xs
  | NotArr (OStr s) => [s]
  | NotArr _ => []
  end.

Fixpoint checkClientReferences (taskIds : gset string)
    (clients : list Client) (index : nat) (errors : errors_t) : errors_t :=
  match clients with
  | [] => errors
  | c :: rest =>
      checkClientReferences taskIds rest (S index)
        match RequestedTaskIDs c with
        | Arr ids =>
            let invalidTasks :=
              List.filter (fun taskId => negb (bool_decide (taskId ∈ taskIds))) ids in
            when (Nat.ltb 0 (length invalidTasks))
              (addError error
                 ("Unknown task references: " +:+ join ", " invalidTasks)
                 (Some "RequestedTaskIDs") (Some index) client)
              errors
        | NotArr _ => errors
        end
  end.

Fixpoint checkTaskSkills (allWorkerSkills : gset string)
    (tasks : list Task) (index : nat) (errors : errors_t) : errors_t :=
  match tasks with
  | [] => errors
  | t :: rest =>
      checkTaskSkills allWorkerSkills rest (S index)
        match RequiredSkills t with
        | Arr skills =>
            let unavailableSkills :=
              List.filter (fun skill => negb (bool_decide (skill ∈ allWorkerSkills)))
                skills in
            when (Nat.ltb 0 (length unavailableSkills))
              (addError error
                 ("No workers have required skills: " +:+ join ", " unavailableSkills)
                 (Some "RequiredSkills") (Some index) task)
              errors
        | NotArr _ => errors
        end
  end.

Definition validateCrossReferences (clients : list Client)
    (workers : list Worker) (tasks : list Task) (errors : errors_t)
  : errors_t :=
  let taskIds : gset string := list_to_set (map TaskID tasks) in
  let allWorkerSkills : gset string := list_to_set (flat_map flatSkills workers) in
  let errors := checkClientReferences taskIds clients 0 errors in
  checkTaskSkills allWorkerSkills tasks 0 errors.

(** [(m.get(phase) || 0)] *)
Definition get_or_zero (m : list (number * number)) (phase : number) : number :=
  match map_get phase m with
  | Some n => num_or n (Int 0)
  | None => Int 0
  end.

(** [m.set(phase, (m.get(phase) || 0) + amount)] *)
Definition accumulate (amount : number) (m : list (number * number))
    (phase : number) : list (number * number) :=
  map_set phase (num_add (get_or_zero m phase) amount) m.

Definition supplyOfWorker (phaseSlots : list (number * number)) (w : Worker)
  : list (number * number) :=
  match AvailableSlots w with
  | Arr slots => fold_left (accumulate (MaxLoadPerPhase w)) slots phaseSlots
  | NotArr _ => phaseSlots
  end.

Definition demandOfTask (phaseDemand : list (number * number)) (t : Task)
  : list (number * number) :=
  match PreferredPhases t with
  | Arr phases => fold_left (accumulate (Duration t)) phases phaseDemand
  | NotArr _ => phaseDemand
  end.

Definition saturationMessage (phase demand available : number) : string :=
  "Phase " +:+ num_to_string phase +:+ " is oversaturated: "
  +:+ num_to_string demand +:+ " duration needed, "
  +:+ num_to_string available +:+ " slots available".

Definition checkPhase (phaseSlots : list (number * number))
    (errors : errors_t) (entry : number * number) : errors_t :=
  let '(phase, demand) := entry in
  let available := get_or_zero phaseSlots phase in
  when (num_gt demand available)
    (addError warning (saturationMessage phase demand available) None None task)
    errors.

Definition validateCapacityConstraints (workers : list Worker)
    (tasks : list Task) (errors : errors_t) : errors_t :=
  let phaseSlots := fold_left supplyOfWorker workers [] in
  let phaseDemand := fold_left demandOfTask tasks [] in
  fold_left (checkPhase phaseSlots) phaseDemand errors.

Definition validateAll (clients : list Client) (workers : list Worker)
    (tasks : list Task) : exc errors_t :=
  let errors := [] in
  let errors := validateClients clients errors in
  errors ← validateWorkers workers errors;
  let errors := validateTasks tasks errors in
  let errors := validateCrossReferences clients workers tasks errors in
  let errors := validateCapacityConstraints workers tasks errors in
  Ok errors.

End DataValidator.

Definition max_safe_integer : Z := 9007199254740991.

Definition max_array_length : Z := 4294967295.

(** [ToLength]: the integer part of the number, kept between 0 and
    2^53 - 1; 0 for [NaN]. *)
Definition to_length (n : number) : Z :=
  match n with
  | NaN => 0
  | Infinity true => 0
  | Infinity false => max_safe_integer
  | _ => let '(m, k) := places n in
         Z.min (Z.max 0 (m / pow10 k)) max_safe_integer
  end.

(** [Array.from({ length: len }, (_, i) => f(i))]: an array of the length
    [ToLength(len)] is created, which is a RangeError above 2^32 - 1, and
    filled from index 0 on. *)
Definition array_from (len : number) (f : number -> number)
  : exc (list number) :=
  let n := to_length len in
  if max_array_length <? n then Throw RangeError
  else Ok (map (fun i => f (Int (Z.of_nat i))) (seq 0 (Z.to_nat n))).

Definition parsePhaseRange (phases : value) : exc value :=
  match phases with
  | VArr _ => Ok phases
  | VStr s =>
      if includes "-" s then
        match map string_to_number (split "-" s) with
        | start :: end_ :: _ =>
            range ← array_from (num_add (num_sub end_ start) (Int 1))
                       (fun i => num_add start i);
            Ok (VArr (map VNum range))
        | _ => Ok (VArr [])
        end
      else
        match JSON_parse s with
        | Ok parsed => Ok parsed
        | Throw _ => Ok (VArr [])
        end
  | _ => Ok (VArr [])
  end.

End Validation.

(** ** Reference definitions

    The notions in which the properties below are stated. *)

Module Spec.
Import JS Types FileParser Validation.

(** The numbers of the elements of a JSON array, if [value] is the text
    of a JSON array whose elements convert to numbers. *)
Definition jsonNumbers (value : string) : option (list number) :=
  match JSON_parse value with
  | Ok (VArr elems) =>
      match map_exc to_number elems with
      | Ok ns => Some (List.filter notNaN ns)
      | Throw _ => None
      end
  | _ => None
  end.

(** The integers of the comma-separated pieces of [value]. *)
Definition commaNumbers (value : string) : list number :=
  List.filter notNaN (map (fun item => parseInt (trim item)) (split "," value)).

(** The final numeric list of the resolution of a value that is not a
    range literal. *)
Definition resolvedNumbers (value : string) : list number :=
  match jsonNumbers value with
  | Some ns => ns
  | None => commaNumbers value
  end.

(** The JSON text of a string without quotation marks, backslashes or
    control characters: the string between quotation marks. *)
Definition quoted (s : string) : string :=
  String quote (s +:+ String quote "").

(** The strings of the elements of a JSON array. *)
Definition jsonStrings (value : string) : option (list string) :=
  match JSON_parse value with
  | Ok (VArr elems) =>
      match map_exc to_string elems with
      | Ok l => Some l
      | Throw _ => None
      end
  | _ => None
  end.

(** The keywords of [detectEntityType], set by set. *)
Definition clientMarkers : list string :=
  ["clientid"; "client_id"; "prioritylevel"; "requestedtaskids"].

Definition workerMarkers : list string :=
  ["workerid"; "worker_id"; "skills"; "availableslots"; "maxloadperphase";
   "workergroup"].

Definition taskMarkers : list string :=
  ["taskid"; "task_id"; "duration"; "requiredskills"; "preferredphases";
   "maxconcurrent"].

(** Some header, put in lower case, is one of the markers. *)
Definition marks (markers : list string) (headers : list string) : bool :=
  existsb (fun h => existsb (String.eqb (toLowerCase h)) markers) headers.

(** A numeral: one decimal digit or more. *)
Definition is_numeral (s : string) : bool :=
  Nat.ltb 0 (String.length s) && forallb is_digit (chars s).

(** The natural number that a numeral denotes. *)
Definition numeral_value (s : string) : Z := digits_value 10 (chars s).

(** The numeral of a natural number, in the decimal notation of the
    standard library. *)
Definition numeral (n : N) : string := NilZero.string_of_uint (N.to_uint n).

(** The phases [first], [first + 1], ..., [last] as an array; no phase if
    [last < first]. *)
Definition phases_between (first last : Z) : value :=
  VArr (map (fun z => VNum (Int z)) (seqZ first (last - first + 1))).

(** What an issue says: everything but its identifier. *)
Definition finding : Type :=
  severity * string * option string * option nat * entity_tag.

Definition content (e : ValidationError) : finding :=
  (type e, message e, field e, rowIndex e, entity e).

(** The run returns. *)
Definition completes {A} (m : exc A) : bool :=
  match m with Ok _ => true | Throw _ => false end.

(** The issues that a pass pushes: the issues after the pass that were not
    there before. *)
Definition pushed (before after : list ValidationError)
  : list ValidationError :=
  drop (length before) after.

(** An identifier supply that a statement does not depend on. *)
Definition no_ids : nat -> string := fun _ => "".

Definition finding_message (f : finding) : string :=
  let '(_, msg, _, _, _) := f in msg.

Definition finding_entity (f : finding) : entity_tag :=
  let '(_, _, _, _, tag) := f in tag.

Definition finding_row (f : finding) : option nat :=
  let '(_, _, _, row, _) := f in row.

Definition finding_severity (f : finding) : severity :=
  let '(sev, _, _, _, _) := f in sev.

#[global] Instance severity_eq_dec : EqDecision severity.
Proof. solve_decision. Defined.

#[global] Instance entity_tag_eq_dec : EqDecision entity_tag.
Proof. solve_decision. Defined.

(** The finding is about the row [i] of the collection [tag]. *)
Definition about (tag : entity_tag) (i : nat) (f : finding) : Prop :=
  finding_entity f = tag /\ finding_row f = Some i.

#[global] Instance about_dec tag i f : Decision (about tag i f).
Proof. unfold about. apply _. Defined.

(** The worker has the skill.  A worker whose [Skills] is a string and not
    an array counts as having the skill of that name. *)
Definition possesses (w : Worker) (skill : string) : Prop :=
  match Skills w with
  | Arr xs => skill ∈ xs
  | NotArr (OStr s) => s = skill
  | NotArr _ => False
  end.

#[global] Instance possesses_dec w skill : Decision (possesses w skill).
Proof. unfold possesses. destruct (Skills w) as [| []]; apply _. Defined.

(** The requested task ids that are the [TaskID] of no task. *)
Definition unknownTasks (tasks : list Task) (requested : list string)
  : list string :=
  filter (fun taskId => taskId ∉ map TaskID tasks) requested.

(** The required skills that no worker has. *)
Definition unmetSkills (workers : list Worker) (skills : list string)
  : list string :=
  filter (fun skill => Forall (fun w => ~ possesses w skill) workers) skills.

(** The sum of the amounts, added from left to right. *)
Definition total (amounts : list number) : number :=
  fold_left num_add amounts (Int 0).

(** The slots of a worker, and the phases of a task, that count for the
    capacities: those of an array.  A range literal gives no phase. *)
Definition slotsOf (w : Worker) : list number :=
  match AvailableSlots w with
  | Arr slots => slots
  | NotArr _ => []
  end.

Definition phasesOf (t : Task) : list number :=
  match PreferredPhases t with
  | Arr phases => phases
  | NotArr _ => []
  end.

(** The supply of a phase: the [MaxLoadPerPhase] of each worker, once for
    every occurrence of the phase among its slots.  No occurrence gives 0. *)
Definition supply (workers : list Worker) (phase : number) : number :=
  total (flat_map
           (fun w => map (fun _ => MaxLoadPerPhase w)
                       (filter (fun slot => slot = phase) (slotsOf w)))
           workers).

(** The demand of a phase: the [Duration] of each task, once for every
    occurrence of the phase among its phases. *)
Definition demand (tasks : list Task) (phase : number) : number :=
  total (flat_map
           (fun t => map (fun _ => Duration t)
                       (filter (fun p => p = phase) (phasesOf t)))
           tasks).

(** The elements of [l] that are not in [seen], each once, in the order of
    their first occurrence. *)
Fixpoint distinct_from (seen l : list number) : list number :=
  match l with
  | [] => []
  | x :: rest =>
      if decide (x ∈ seen) then distinct_from seen rest
      else x :: distinct_from (x :: seen) rest
  end.

(** The phases of the demand map, in the order of the map. *)
Definition demandedPhases (tasks : list Task) : list number :=
  distinct_from [] (flat_map phasesOf tasks).

(** The capacity warning for a phase. *)
Definition saturationFinding (workers : list Worker) (tasks : list Task)
    (phase : number) : finding :=
  (warning,
   saturationMessage phase (demand tasks phase) (supply workers phase),
   None, None, task).

(** The amounts that a list of contributions gives for a key, and the table
    that adding them up key by key gives. *)
Definition amounts_of (key : number) (cs : list (number * number))
  : list number :=
  map snd (filter (fun c => fst c = key) cs).

Definition table (cs : list (number * number)) : list (number * number) :=
  map (fun key => (key, total (amounts_of key cs)))
    (distinct_from [] (map fst cs)).

(** The contributions of a collection: for each element, its amount for
    each of its keys. *)
Definition contributions {A} (amount : A -> number) (keys : A -> list number)
    (l : list A) : list (number * number) :=
  flat_map (fun x => map (fun key => (key, amount x)) (keys x)) l.

(** Data for the examples. *)
Definition exampleClient (cid : string) (requested : list string) : Client :=
  {| ClientID := cid;
     ClientName := "client";
     PriorityLevel := Int 3;
     RequestedTaskIDs := Arr requested;
     GroupTag := "";
     AttributesJSON := VStr "{}" |}.

Definition exampleWorker (wid : string) (skills : list string)
    (slots : list Z) (load : Z) : Worker :=
  {| WorkerID := wid;
     WorkerName := "worker";
     Skills := Arr skills;
     AvailableSlots := Arr (map Int slots);
     MaxLoadPerPhase := Int load;
     WorkerGroup := "";
     QualificationLevel := Int 1 |}.

Definition exampleTask (tid : string) (skills : list string)
    (phases : loose number) (duration : Z) : Task :=
  {| TaskID := tid;
     TaskName := "task";
     Category := "";
     Duration := Int duration;
     RequiredSkills := Arr skills;
     PreferredPhases := phases;
     MaxConcurrent := Int 1 |}.

(** The findings with the message [msg]. *)
Definition with_message (msg : string) (l : list finding) : list finding :=
  filter (fun f => finding_message f = msg) l.

(** The rows of a collection that hold the identifier [v], in ascending
    order; [index] is the row of the head of [l]. *)
Fixpoint occurrences_from (v : string) (l : list string) (index : nat)
  : list nat :=
  match l with
  | [] => []
  | x :: rest =>
      (if decide (x = v) then [index] else [])
      ++ occurrences_from v rest (S index)
  end.

Definition occurrences (v : string) (l : list string) : list nat :=
  occurrences_from v l 0.

(** The rows that the running set of identifiers flags for [v]: the rows
    that hold [v] when [v] is already in the set. *)
Fixpoint flagged_from (v : string) (l : list string) (index : nat)
    (seen : gset string) : list nat :=
  match l with
  | [] => []
  | x :: rest =>
      (if bool_decide (x ∈ seen) && bool_decide (x = v) then [index] else [])
      ++ flagged_from v rest (S index) ({[ x ]} ∪ seen)
  end.

Definition duplicateMessage (name v : string) : string :=
  "Duplicate " +:+ name +:+ ": " +:+ v.

(** The duplicate-id error for the identifier [v] of the field [name] in
    the row [row]. *)
Definition duplicateFinding (name : string) (tag : entity_tag) (v : string)
    (row : nat) : finding :=
  (error, duplicateMessage name v, Some name, Some row, tag).

(** The finding is not a duplicate-id error of the field [name]. *)
Definition no_duplicate_of (name : string) (f : finding) : Prop :=
  forall v, finding_message f <> duplicateMessage name v.

(** A task that asks for phase 1 with any number as its [Duration], and a
    worker with a slot on phase 1 and any number as its [MaxLoadPerPhase]. *)
Definition taskOfDuration (tid : string) (duration : number) : Task :=
  {| TaskID := tid;
     TaskName := "task";
     Category := "";
     Duration := duration;
     RequiredSkills := Arr [];
     PreferredPhases := Arr [Int 1];
     MaxConcurrent := Int 1 |}.

Definition workerOfLoad (wid : string) (load : number) : Worker :=
  {| WorkerID := wid;
     WorkerName := "worker";
     Skills := Arr [];
     AvailableSlots := Arr [Int 1];
     MaxLoadPerPhase := load;
     WorkerGroup := "";
     QualificationLevel := Int 1 |}.

(** The numeral of [n] digits 9. *)
Definition nines (n : nat) : string := str (repeat "9"%char n).

(** A worker over which the validation throws: [AvailableSlots] is
    [null], as after the cell has been edited to [null]. *)
Definition nullSlotsWorker : Worker :=
  {| WorkerID := "W1";
     WorkerName := "Ada";
     Skills := Arr ["welding"];
     AvailableSlots := NotArr ONull;
     MaxLoadPerPhase := Int 1;
     WorkerGroup := "A";
     QualificationLevel := Int 1 |}.

(** [f] if [cond] holds, and nothing otherwise. *)
Definition given (cond : bool) (f : finding) : list finding :=
  if cond then [f] else [].

(** What the validation says about one row, check by check. *)
Definition clientRow (seen : gset string) (c : Client) (i : nat)
  : list finding :=
  given (falsy (ClientID c))
    (error, "Missing ClientID", Some "ClientID", Some i, client)
  ++ given (falsy (ClientName c))
    (error, "Missing ClientName", Some "ClientName", Some i, client)
  ++ given (bool_decide (ClientID c ∈ seen))
    (duplicateFinding "ClientID" client (ClientID c) i)
  ++ given (num_lt (PriorityLevel c) (Int 1) || num_gt (PriorityLevel c) (Int 5))
    (error, "PriorityLevel must be between 1-5", Some "PriorityLevel",
     Some i, client)
  ++ given (negb (isArray (RequestedTaskIDs c)))
    (error, "RequestedTaskIDs must be an array", Some "RequestedTaskIDs",
     Some i, client)
  ++ given (match AttributesJSON c with
            | VStr s => negb (completes (JSON_parse s))
            | _ => false
            end)
    (error, "Invalid JSON in AttributesJSON", Some "AttributesJSON",
     Some i, client).

(** The row of a worker over which the comparison of the number of slots
    with the maximal load returns. *)
Definition workerRow (seen : gset string) (w : Worker) (i : nat)
  : list finding :=
  given (falsy (WorkerID w))
    (error, "Missing WorkerID", Some "WorkerID", Some i, worker)
  ++ given (falsy (WorkerName w))
    (error, "Missing WorkerName", Some "WorkerName", Some i, worker)
  ++ given (bool_decide (WorkerID w ∈ seen))
    (duplicateFinding "WorkerID" worker (WorkerID w) i)
  ++ given (negb (isArray (Skills w)))
    (error, "Skills must be an array", Some "Skills", Some i, worker)
  ++ match AvailableSlots w with
     | NotArr _ =>
         [(error, "AvailableSlots must be an array",
           Some "AvailableSlots", Some i, worker)]
     | Arr slots =>
         given (Nat.ltb 0 (length (List.filter invalidSlot slots)))
           (error, "AvailableSlots must contain positive integers",
            Some "AvailableSlots", Some i, worker)
     end
  ++ given (negb (isInteger (MaxLoadPerPhase w))
            || num_lt (MaxLoadPerPhase w) (Int 1))
    (error, "MaxLoadPerPhase must be a positive integer",
     Some "MaxLoadPerPhase", Some i, worker)
  ++ given (match overloaded w with Ok b => b | Throw _ => false end)
    (warning, "Worker has more max load than available slots",
     Some "MaxLoadPerPhase", Some i, worker).

Definition taskRow (seen : gset string) (t : Task) (i : nat)
  : list finding :=
  given (falsy (TaskID t))
    (error, "Missing TaskID", Some "TaskID", Some i, task)
  ++ given (falsy (TaskName t))
    (error, "Missing TaskName", Some "TaskName", Some i, task)
  ++ given (bool_decide (TaskID t ∈ seen))
    (duplicateFinding "TaskID" task (TaskID t) i)
  ++ given (negb (isInteger (Duration t)) || num_lt (Duration t) (Int 1))
    (error, "Duration must be a positive integer", Some "Duration",
     Some i, task)
  ++ given (negb (isArray (RequiredSkills t)))
    (error, "RequiredSkills must be an array", Some "RequiredSkills",
     Some i, task)
  ++ given (negb (isInteger (MaxConcurrent t))
            || num_lt (MaxConcurrent t) (Int 1))
    (error, "MaxConcurrent must be a positive integer",
     Some "MaxConcurrent", Some i, task)
  ++ match PreferredPhases t with
     | NotArr (OStr s) =>
         given (negb (isValidPhaseRange s))
           (error, "Invalid PreferredPhases format",
            Some "PreferredPhases", Some i, task)
     | NotArr _ =>
         [(error, "PreferredPhases must be an array or range string",
           Some "PreferredPhases", Some i, task)]
     | Arr _ => []
     end.

(** What the cross-reference check says about one client, and about one
    task. *)
Definition referenceRow (taskIds : gset string) (c : Client) (i : nat)
  : list finding :=
  match RequestedTaskIDs c with
  | Arr requested =>
      let invalidTasks :=
        List.filter (fun taskId => negb (bool_decide (taskId ∈ taskIds)))
          requested in
      given (Nat.ltb 0 (length invalidTasks))
        (error, "Unknown task references: " +:+ join ", " invalidTasks,
         Some "RequestedTaskIDs", Some i, client)
  | NotArr _ => []
  end.

Definition skillRow (allWorkerSkills : gset string) (t : Task) (i : nat)
  : list finding :=
  match RequiredSkills t with
  | Arr skills =>
      let unavailableSkills :=
        List.filter (fun skill => negb (bool_decide (skill ∈ allWorkerSkills)))
          skills in
      given (Nat.ltb 0 (length unavailableSkills))
        (error,
         "No workers have required skills: " +:+ join ", " unavailableSkills,
         Some "RequiredSkills", Some i, task)
  | NotArr _ => []
  end.

(** What the capacity check says about one entry of the demand map. *)
Definition phaseRow (phaseSlots : list (number * number))
    (entry : number * number) : list finding :=
  let '(phase, demand) := entry in
  let available := get_or_zero phaseSlots phase in
  given (num_gt demand available)
    (warning, saturationMessage phase demand available, None, None, task).

(** The rows of a collection, from the row [i] on. *)
Fixpoint indexed {A} (row : A -> nat -> list finding) (l : list A) (i : nat)
  : list finding :=
  match l with
  | [] => []
  | x :: rest => row x i ++ indexed row rest (S i)
  end.

(** The rows of a collection, from the row [i] on, with the identifiers
    seen in the rows before. *)
Fixpoint rows {A} (row : gset string -> A -> nat -> list finding)
    (key : A -> string) (l : list A) (i : nat) (seen : gset string)
  : list finding :=
  match l with
  | [] => []
  | x :: rest => row seen x i ++ rows row key rest (S i) ({[ key x ]} ∪ seen)
  end.

(** What each pass of [validateAll] reports, identifiers left out. *)
Definition clientsReport (clients : list Client) : list finding :=
  map content (validateClients no_ids clients []).

Definition workersReport (workers : list Worker) : exc (list finding) :=
  exc_map (map content) (validateWorkers no_ids workers []).

Definition tasksReport (tasks : list Task) : list finding :=
  map content (validateTasks no_ids tasks []).

Definition crossReport (clients : list Client) (workers : list Worker)
    (tasks : list Task) : list finding :=
  map content (validateCrossReferences no_ids clients workers tasks []).

Definition capacityReport (workers : list Worker) (tasks : list Task)
  : list finding :=
  map content (validateCapacityConstraints no_ids workers tasks []).

End Spec.

(** ** Reading a file ([src/lib/file-parser.ts], continued)

    The sections that follow embed the callers and the companions of the
    two files above: the choice of the reader and [transformData], the
    parser with header mapping of [src/unnamed/part_003], the cell editor
    of [src/unnamed/part_007] and the validation of the worker thread of
    [src/lib/workers/data-processor.worker.ts].

    A row object is modelled by its own properties.  Its keys are the
    names of columns; a name that is a property of [Object.prototype],
    such as [__proto__] or [constructor], is not represented as the name
    of a column. *)

Module Upload.
Import JS Types FileParser.

(** The two readers of [parseFile]: [parseCSV] and [parseXLSX]. *)
Inductive reader : Type := CSV | XLSX.

(** [file.name.split('.').pop()?.toLowerCase()] *)
Definition extension (name : string) : string :=
  toLowerCase (List.last (split "." name) "").

(** The choice of [parseFile]: the reader of the file, or nothing when
    the Error [Unsupported file format] is thrown. *)
Definition parseFile (name : string) : option reader :=
  let extension := extension name in
  if String.eqb extension "csv" then Some CSV
  else if String.eqb extension "xlsx" || String.eqb extension "xls"
  then Some XLSX
  else None.

(** An element of the array that [transformData] returns. *)
Inductive Entity : Type :=
| EClient (c : Client)
| EWorker (w : Worker)
| ETask (t : Task).

(** [transformData]; the type of the entities is one of the three that
    [detectEntityType] gives. *)
Definition transformData (data : list row) (entityType : entity_tag)
  : exc (list Entity) :=
  map_exc (fun r =>
             match entityType with
             | client => EClient <$> transformClient r
             | worker => EWorker <$> transformWorker r
             | task => ETask <$> transformTask r
             end) data.

End Upload.

(** ** The file parser with header mapping ([src/unnamed/part_003]) *)

Module EnhancedFileParser.
Import JS Types FileParser Upload.

(** Truthiness of a value: [undefined], [null], [false], [0], [NaN] and
    the empty string are falsy. *)
Definition truthy (v : value) : bool :=
  match v with
  | VUndefined | VNull => false
  | VBool b => b
  | VNum n => num_truthy n
  | VStr s => negb (falsy s)
  | VArr _ | VObj _ => true
  end.

(** [v || ''] *)
Definition or_empty (v : value) : value :=
  if truthy v then v else VStr "".




(** [h.toLowerCase().replace(/[_\s]/g, '')] *)
Definition stripped (h : string) : string :=
  str (List.filter (fun c => negb (Ascii.eqb c "_" || is_space c))
         (chars (toLowerCase h))).

Definition getExpectedHeaders (entityType : entity_tag) : list string :=
  match entityType with
  | client =>
      ["ClientID"; "ClientName"; "PriorityLevel"; "RequestedTaskIDs";
       "GroupTag"; "AttributesJSON"]
  | worker =>
      ["WorkerID"; "WorkerName"; "Skills"; "AvailableSlots";
       "MaxLoadPerPhase"; "WorkerGroup"; "QualificationLevel"]
  | task =>
      ["TaskID"; "TaskName"; "Category"; "Duration"; "RequiredSkills";
       "PreferredPhases"; "MaxConcurrent"]
  end.

(** A mapping from expected header to provided header: the entries of the
    object, in the order in which the keys were set. *)
Abbreviation mapping := (list (string * string)).

(** [headers.find(header => stripped(header) === stripped(expected))] on
    the header array of a file, which has holes when it comes from a sheet:
    [find] visits a hole as [undefined], and [header.toLowerCase()] then
    throws a TypeError.  A hole after the first match is not visited. *)
Fixpoint find_header (expected : string) (headers : list (option string))
  : exc (option string) :=
  match headers with
  | [] => Ok None
  | Some header :: rest =>
      if String.eqb (stripped header) (stripped expected) then Ok (Some header)
      else find_header expected rest
  | None :: _ => Throw TypeError
  end.

(** [if (found) { mapping[expected] = found }] *)
Definition fallbackEntry (expected : string) (found : option string)
  : mapping :=
  match found with
  | Some found => if falsy found then [] else [(expected, found)]
  | None => []
  end.

Definition createFallbackMapping (headers : list (option string))
    (entityType : entity_tag) : exc mapping :=
  entries ← map_exc
              (fun expected =>
                 fallbackEntry expected <$> find_header expected headers)
              (getExpectedHeaders entityType);
  Ok (concat entries).

(** The row that [transformDataWithMapping] builds from a row: under each
    expected header, the cell of the provided header, or the empty string
    when that cell is falsy or not there. *)
Definition transformedRow (m : mapping) (r : row) : row :=
  fold_left
    (fun obj '(expected, provided) =>
       <[ expected := or_empty (default VUndefined (r !! provided)) ]> obj)
    m ∅.

Definition transformEntityData (r : row) (entityType : entity_tag)
  : exc Entity :=
  match entityType with
  | client => EClient <$> transformClient r
  | worker => EWorker <$> transformWorker r
  | task => ETask <$> transformTask r
  end.

Definition transformDataWithMapping (data : list row) (m : mapping)
    (entityType : entity_tag) : exc (list Entity) :=
  map_exc (fun r => transformEntityData (transformedRow m r) entityType) data.

End EnhancedFileParser.

(** ** Editing a cell ([src/unnamed/part_007]) *)

Module DataTable.
Import JS Types FileParser EnhancedFileParser.

(** [elems.join(sep)]: the strings of the elements, with the empty string
    for [null] and [undefined]. *)
Definition join_values (sep : string) (elems : list value) : exc string :=
  join sep <$>
    map_exc (fun x =>
               match x with
               | VUndefined | VNull => Ok ""
               | _ => to_string x
               end) elems.

(** The text that [startEditing] puts in the editor for the value of a
    cell. *)
Definition startEditing (currentValue : value) : exc string :=
  match currentValue with
  | VArr elems => join_values ", " elems
  | _ => to_string (or_empty currentValue)
  end.

(** The value that [saveEdit] stores for the text of the editor, in the
    column [col]. *)
Definition saveEdit (col : string) (editValue : string) : value :=
  if String.eqb col "RequestedTaskIDs" || String.eqb col "Skills"
     || String.eqb col "RequiredSkills"
  then
    VArr (map VStr
            (List.filter (fun s => Nat.ltb 0 (String.length s))
               (map trim (split "," editValue))))
  else if String.eqb col "AvailableSlots" || String.eqb col "PreferredPhases"
  then
    match JSON_parse editValue with
    | Ok processedValue => processedValue
    | Throw _ =>
        VArr (map VNum
                (List.filter notNaN
                   (map (fun s => parseInt (trim s)) (split "," editValue))))
    end
  else if String.eqb col "PriorityLevel" || String.eqb col "Duration"
          || String.eqb col "MaxConcurrent" || String.eqb col "MaxLoadPerPhase"
          || String.eqb col "QualificationLevel"
  then VNum (num_or (parseInt editValue) (Int 0))
  else VStr editValue.

End DataTable.

(** ** The validation of the worker thread
    ([src/lib/workers/data-processor.worker.ts]) *)

Module DataProcessor.
Import JS Types FileParser Validation.

(** [errors.push(e)] *)
Definition push (e : ValidationError) (errors : list ValidationError)
  : list ValidationError :=
  errors ++ [e].

(** The identifier [`${tag}-${index}-${check}`] of an issue. *)
Definition issueId (tag : string) (index : nat) (check : string) : string :=
  tag +:+ "-" +:+ num_to_string (Int (Z.of_nat index)) +:+ "-" +:+ check.

(** The body of the loop over the clients. *)
Definition checkClient (clientIds : gset string) (c : Client) (index : nat)
    (errors : list ValidationError) : list ValidationError :=
  let errors :=
    when (falsy (ClientID c))
      (push {| id := issueId "client" index "id";
               type := error;
               message := "Missing ClientID";
               field := Some "ClientID";
               rowIndex := Some index;
               entity := client |})
      errors in
  let errors :=
    when (bool_decide (ClientID c ∈ clientIds))
      (push {| id := issueId "client" index "duplicate";
               type := error;
               message := "Duplicate ClientID: " +:+ ClientID c;
               field := Some "ClientID";
               rowIndex := Some index;
               entity := client |})
      errors in
  when (num_lt (PriorityLevel c) (Int 1) || num_gt (PriorityLevel c) (Int 5))
    (push {| id := issueId "client" index "priority";
             type := error;
             message := "PriorityLevel must be between 1-5";
             field := Some "PriorityLevel";
             rowIndex := Some index;
             entity := client |})
    errors.

(** The body of the loop over the workers. *)
Definition checkWorker (workerIds : gset string) (w : Worker) (index : nat)
    (errors : list ValidationError) : list ValidationError :=
  let errors :=
    when (falsy (WorkerID w))
      (push {| id := issueId "worker" index "id";
               type := error;
               message := "Missing WorkerID";
               field := Some "WorkerID";
               rowIndex := Some index;
               entity := worker |})
      errors in
  let errors :=
    when (bool_decide (WorkerID w ∈ workerIds))
      (push {| id := issueId "worker" index "duplicate";
               type := error;
               message := "Duplicate WorkerID: " +:+ WorkerID w;
               field := Some "WorkerID";
               rowIndex := Some index;
               entity := worker |})
      errors in
  when (negb (isArray (Skills w)))
    (push {| id := issueId "worker" index "skills";
             type := error;
             message := "Skills must be an array";
             field := Some "Skills";
             rowIndex := Some index;
             entity := worker |})
    errors.

(** The body of the loop over the tasks. *)
Definition checkTask (taskIds : gset string) (t : Task) (index : nat)
    (errors : list ValidationError) : list ValidationError :=
  let errors :=
    when (falsy (TaskID t))
      (push {| id := issueId "task" index "id";
               type := error;
               message := "Missing TaskID";
               field := Some "TaskID";
               rowIndex := Some index;
               entity := task |})
      errors in
  let errors :=
    when (bool_decide (TaskID t ∈ taskIds))
      (push {| id := issueId "task" index "duplicate";
               type := error;
               message := "Duplicate TaskID: " +:+ TaskID t;
               field := Some "TaskID";
               rowIndex := Some index;
               entity := task |})
      errors in
  when (num_lt (Duration t) (Int 1))
    (push {| id := issueId "task" index "duration";
             type := error;
             message := "Duration must be positive";
             field := Some "Duration";
             rowIndex := Some index;
             entity := task |})
    errors.

(** [l.forEach((x, index) => ...)] with the set of the identifiers seen,
    from the row [index] on. *)
Fixpoint forEach_from {A} (body : gset string -> A -> nat ->
                                  list ValidationError -> list ValidationError)
    (key : A -> string) (l : list A) (index : nat) (seen : gset string)
    (errors : list ValidationError) : list ValidationError :=
  match l with
  | [] => errors
  | x :: rest =>
      forEach_from body key rest (S index) ({[ key x ]} ∪ seen)
        (body seen x index errors)
  end.

Definition validateDataInWorker (clients : list Client)
    (workers : list Worker) (tasks : list Task) : list ValidationError :=
  let errors := [] in
  let errors := forEach_from checkClient ClientID clients 0 ∅ errors in
  let errors := forEach_from checkWorker WorkerID workers 0 ∅ errors in
  let errors := forEach_from checkTask TaskID tasks 0 ∅ errors in
  errors.

End DataProcessor.

(** ** Conditions

    The notions in which the properties of the functions above and of the
    validation are stated. *)

Module Conditions.
Import JS Types FileParser Validation Spec Upload EnhancedFileParser DataTable
  DataProcessor.

(** An integer that is 1 or more. *)
Definition positiveInteger (n : number) : Prop := exists z, n = Int z /\ 1 <= z.

(** The conditions on one row that the validation checks. *)
Definition validClient (c : Client) : Prop :=
  ClientID c <> "" /\ ClientName c <> "" /\
  num_lt (PriorityLevel c) (Int 1) = false /\
  num_gt (PriorityLevel c) (Int 5) = false /\
  isArray (RequestedTaskIDs c) = true /\
  (forall s, AttributesJSON c = VStr s -> completes (JSON_parse s) = true).

Definition validWorker (w : Worker) : Prop :=
  WorkerID w <> "" /\ WorkerName w <> "" /\
  isArray (Skills w) = true /\
  exists slots load,
    AvailableSlots w = Arr slots /\ Forall positiveInteger slots /\
    MaxLoadPerPhase w = Int load /\ 1 <= load <= Z.of_nat (length slots).

Definition validPhases (phases : loose number) : Prop :=
  match phases with
  | Arr _ => True
  | NotArr (OStr s) => isValidPhaseRange s = true
  | NotArr _ => False
  end.

Definition validTask (t : Task) : Prop :=
  TaskID t <> "" /\ TaskName t <> "" /\
  positiveInteger (Duration t) /\
  isArray (RequiredSkills t) = true /\
  positiveInteger (MaxConcurrent t) /\
  validPhases (PreferredPhases t).

(** Every requested task is a task, every required skill is the skill of
    a worker, and no phase is asked for more than the workers supply. *)
Definition resolved (clients : list Client) (tasks : list Task) : Prop :=
  forall c requested taskId,
    c ∈ clients -> RequestedTaskIDs c = Arr requested -> taskId ∈ requested ->
    taskId ∈ map TaskID tasks.

Definition staffed (workers : list Worker) (tasks : list Task) : Prop :=
  forall t skills skill,
    t ∈ tasks -> RequiredSkills t = Arr skills -> skill ∈ skills ->
    exists w, w ∈ workers /\ possesses w skill.

Definition unsaturated (workers : list Worker) (tasks : list Task) : Prop :=
  forall t phase,
    t ∈ tasks -> phase ∈ phasesOf t ->
    num_gt (demand tasks phase) (supply workers phase) = false.

Definition wellFormed (clients : list Client) (workers : list Worker)
    (tasks : list Task) : Prop :=
  (NoDup (map ClientID clients) /\ Forall validClient clients) /\
  (NoDup (map WorkerID workers) /\ Forall validWorker workers) /\
  (NoDup (map TaskID tasks) /\ Forall validTask tasks) /\
  resolved clients tasks /\ staffed workers tasks /\
  unsaturated workers tasks.

(** The headers of a header array that stand before its first hole. *)
Fixpoint before_hole (headers : list (option string)) : list string :=
  match headers with
  | Some header :: rest => header :: before_hole rest
  | _ => []
  end.

(** The value of [AvailableSlots] is an array, a string, a number or a
    boolean; and it is [null] or [undefined]. *)
Definition plainSlots (w : Worker) : Prop :=
  match AvailableSlots w with
  | Arr _ | NotArr (OStr _) | NotArr (ONum _) | NotArr (OBool _) => True
  | _ => False
  end.

Definition missingSlots (w : Worker) : Prop :=
  AvailableSlots w = NotArr ONull \/ AvailableSlots w = NotArr OUndefined.

(** The number of rows of the collection of an entity type. *)
Definition collectionSize (clients : list Client) (workers : list Worker)
    (tasks : list Task) (tag : entity_tag) : nat :=
  match tag with
  | client => length clients
  | worker => length workers
  | task => length tasks
  end.

(** An issue about a row names a row of its collection and a field, and
    is a warning only for the load of a worker; an issue about no row
    names no field and is a warning about the tasks. *)
Definition wellShaped (clients : list Client) (workers : list Worker)
    (tasks : list Task) (e : ValidationError) : Prop :=
  type e <> info /\
  match rowIndex e with
  | Some i =>
      (i < collectionSize clients workers tasks (entity e))%nat /\
      field e <> None /\
      (type e = warning ->
       entity e = worker /\ field e = Some "MaxLoadPerPhase")
  | None => field e = None /\ type e = warning /\ entity e = task
  end.

(** The same on findings: a finding about the row [i] of the collection
    [tag], and a finding about no row. *)
Definition rowShaped (tag : entity_tag) (i : nat) (f : finding) : Prop :=
  let '(sev, _, fld, row, tag') := f in
  tag' = tag /\ row = Some i /\ fld <> None /\ sev <> info /\
  (sev = warning -> tag = worker /\ fld = Some "MaxLoadPerPhase").

Definition generalShaped (f : finding) : Prop :=
  let '(sev, _, fld, row, tag) := f in
  sev = warning /\ fld = None /\ row = None /\ tag = task.

(** A cell of a parsed table: a string, a number, a boolean, or nothing. *)
Definition scalar (v : value) : bool :=
  match v with
  | VArr _ | VObj _ => false
  | _ => true
  end.

(** The type of an entity. *)
Definition tagOf (e : Entity) : entity_tag :=
  match e with
  | EClient _ => client
  | EWorker _ => worker
  | ETask _ => task
  end.

(** An integer other than 0. *)
(** A number that is not [NaN] and not a fraction: an integer or an
    infinity. *)
Definition whole (n : number) : Prop :=
  match n with
  | Int _ | Infinity _ => True
  | NaN | Frac _ _ _ => False
  end.

(** A number that is not [NaN], not 0 and not a fraction: an integer other
    than 0, or an infinity. *)
Definition nonzeroWhole (n : number) : Prop :=
  match n with
  | Int z => z <> 0
  | Infinity _ => True
  | NaN | Frac _ _ _ => False
  end.

(** The messages about a field that is not of its declared shape. *)
Definition shapeMessages : list string :=
  ["RequestedTaskIDs must be an array"; "Skills must be an array";
   "AvailableSlots must be an array"; "RequiredSkills must be an array";
   "PreferredPhases must be an array or range string"].

Definition noShapeMessage (f : finding) : Prop :=
  finding_message f ∉ shapeMessages.

(** A string that is a piece of a comma-separated text as it is: not
    empty, without white space around it and without a comma. *)
Definition piece (item : string) : Prop :=
  item <> "" /\ trim item = item /\ includes "," item = false.

(** The natural numbers [ns] as values of the language. *)
Definition naturals (ns : list N) : list value :=
  map (fun n => VNum (Int (Z.of_N n))) ns.

(** What the validation of the worker thread says about one row, check by
    check. *)
Definition lightClientRow (seen : gset string) (c : Client) (i : nat)
  : list finding :=
  given (falsy (ClientID c))
    (error, "Missing ClientID", Some "ClientID", Some i, client)
  ++ given (bool_decide (ClientID c ∈ seen))
    (duplicateFinding "ClientID" client (ClientID c) i)
  ++ given (num_lt (PriorityLevel c) (Int 1) || num_gt (PriorityLevel c) (Int 5))
    (error, "PriorityLevel must be between 1-5", Some "PriorityLevel",
     Some i, client).

Definition lightWorkerRow (seen : gset string) (w : Worker) (i : nat)
  : list finding :=
  given (falsy (WorkerID w))
    (error, "Missing WorkerID", Some "WorkerID", Some i, worker)
  ++ given (bool_decide (WorkerID w ∈ seen))
    (duplicateFinding "WorkerID" worker (WorkerID w) i)
  ++ given (negb (isArray (Skills w)))
    (error, "Skills must be an array", Some "Skills", Some i, worker).

Definition lightTaskRow (seen : gset string) (t : Task) (i : nat)
  : list finding :=
  given (falsy (TaskID t))
    (error, "Missing TaskID", Some "TaskID", Some i, task)
  ++ given (bool_decide (TaskID t ∈ seen))
    (duplicateFinding "TaskID" task (TaskID t) i)
  ++ given (num_lt (Duration t) (Int 1))
    (error, "Duration must be positive", Some "Duration", Some i, task).

(** The message of [validateAll] for the check that the validation of the
    worker thread reports with the message [msg]: the two differ on the
    duration only. *)
Definition fullMessage (msg : string) : string :=
  if String.eqb msg "Duration must be positive"
  then "Duration must be a positive integer"
  else msg.

Definition restated (f : finding) : finding :=
  let '(sev, msg, fld, row, tag) := f in (sev, fullMessage msg, fld, row, tag).

(** The identifiers of the issues of the rows [i], ..., [i + n - 1] of a
    collection, were every check of [checks] to fail on every row. *)
Definition identifiers (tag : string) (checks : list string) (i n : nat)
  : list string :=
  seq i n ≫= (fun j => map (issueId tag j) checks).

(** The first token opens an array. *)
Definition opens_array (toks : list token) : bool :=
  match toks with
  | TLBracket :: _ => true
  | _ => false
  end.

(** The lexer is inside a token. *)
Definition inside (st : lex_state) : bool :=
  match st with
  | LStart => false
  | _ => true
  end.

(** The outermost open container is an object. *)
Fixpoint object_below (stack : list frame) : bool :=
  match stack with
  | [] => false
  | [FObj _ _] => true
  | [FArr _] => false
  | _ :: rest => object_below rest
  end.

(** The value that the parser is reading is an object. *)
Definition reads_object (st : parse_state) : bool :=
  match st with
  | SValue stack | SArrStart stack | SAfterArr _ stack => object_below stack
  | SObjStart stack | SKey _ stack | SColon _ _ stack | SAfterObj _ stack =>
      match stack with
      | [] => true
      | _ => object_below stack
      end
  | SDone (VObj _) => true
  | SDone _ => false
  end.

End Conditions.

(** * Properties *)

Import JS Types FileParser Validation Spec.
Import Upload EnhancedFileParser DataTable DataProcessor Conditions.

(** ** Strings *)

Lemma chars_str (l : list ascii) : chars (str l) = l.
Proof. apply list_ascii_of_string_of_list_ascii. Qed.

Lemma str_chars (s : string) : str (chars s) = s.
Proof. apply string_of_list_ascii_of_string. Qed.

Lemma chars_app (s t : string) : chars (s +:+ t) = chars s ++ chars t.
Proof. induction s as [|c s IH]; simpl; [done | by rewrite IH]. Qed.

Lemma falsy_spec (s : string) : falsy s = true <-> s = "".
Proof. unfold falsy. apply String.eqb_eq. Qed.

Lemma matches_range_nonempty (s : string) :
  matches_range s = true -> falsy s = false.
Proof. destruct s; [discriminate | done]. Qed.

(** ** Binary64 *)

Lemma decimal_finite m k : isFinite (decimal m k) = true.
Proof.
  revert m. induction k as [|k IH]; intros m; simpl; [done |].
  by destruct (m mod 10 =? 0).
Qed.

Lemma decimal_is_NaN m k : isNaN (decimal m k) = false.
Proof. pose proof (decimal_finite m k) as H. by destruct (decimal m k). Qed.

Lemma num_neg_finite n : isFinite n = true -> isFinite (num_neg n) = true.
Proof.
  destruct n; try done. intros _. unfold num_neg.
  destruct (places _). apply decimal_finite.
Qed.

Lemma num_neg_is_NaN n : isNaN (num_neg n) = isNaN n.
Proof.
  destruct n; try done.
  pose proof (num_neg_finite (Frac q d k) eq_refl) as H.
  by destruct (num_neg _).
Qed.

Lemma binary64_integer_shape a :
  (exists v, binary64_integer a = Int v) \/ binary64_integer a = Infinity false.
Proof. unfold binary64_integer. destruct (_ <=? _); eauto. Qed.

Lemma binary64_fraction_is_NaN a k : isNaN (binary64_fraction a k) = false.
Proof.
  unfold binary64_fraction. destruct (0 <=? _); [by destruct (_ <=? _) |].
  apply decimal_is_NaN.
Qed.

(** An integer becomes an integer or an infinity. *)
Lemma binary64_Int_shape z :
  (exists v, binary64 (Int z) = Int v) \/ (exists s, binary64 (Int z) = Infinity s).
Proof.
  unfold binary64. destruct (_ <=? _); [eauto |].
  destruct (0 <? z).
  - destruct (binary64_integer_shape z) as [[v ->] | ->]; eauto.
  - destruct (binary64_integer_shape (- z)) as [[v ->] | ->]; simpl; eauto.
Qed.

(** Only [NaN] becomes [NaN]. *)
Lemma binary64_is_NaN n : isNaN (binary64 n) = isNaN n.
Proof.
  destruct n as [| s | z | q d k]; try done.
  - by destruct (binary64_Int_shape z) as [[v ->] | [s ->]].
  - unfold binary64. destruct (places _) as [m p]. destruct (0 <? m).
    + apply binary64_fraction_is_NaN.
    + rewrite num_neg_is_NaN. apply binary64_fraction_is_NaN.
Qed.

(** An integer up to 2^53 is a binary64 number. *)
Lemma binary64_safe z : Z.abs z <= 2 ^ 53 -> binary64 (Int z) = Int z.
Proof.
  intros Hz. unfold binary64.
  by replace (_ <=? _) with true by (symmetry; by apply Z.leb_le).
Qed.

Lemma shortest_safe z : Z.abs z <= 2 ^ 53 -> shortest (Int z) = Int z.
Proof.
  intros Hz. unfold shortest. rewrite (binary64_safe z Hz).
  by replace (_ <=? _) with true by (symmetry; by apply Z.leb_le).
Qed.

Lemma digit_in_nonneg radix c : 0 <= default 0 (digit_in radix c).
Proof.
  unfold digit_in. generalize (code c). intros n.
  destruct ((48 <=? n) && (n <=? 57)) eqn:H1.
  - destruct (_ <? _); simpl; lia.
  - destruct ((97 <=? n) && (n <=? 122)) eqn:H2.
    + destruct (_ <? _); simpl; lia.
    + destruct ((65 <=? n) && (n <=? 90)) eqn:H3;
        destruct (_ <? _); simpl; lia.
Qed.

Lemma digits_value_nonneg radix l : 0 <= radix -> 0 <= digits_value radix l.
Proof.
  intros Hr. unfold digits_value.
  assert (H : forall acc, 0 <= acc ->
    0 <= fold_left (fun acc c => acc * radix + default 0 (digit_in radix c)) l acc).
  { induction l as [|c l IH]; intros acc Hacc; simpl; [done |].
    apply IH. pose proof (digit_in_nonneg radix c). nia. }
  by apply H.
Qed.

(** ** Field coercion *)

Section Coercion.

Lemma parsePhases_unfold (value : string) :
  parsePhases value =
    Ok (if falsy value then Arr []
        else if matches_range value then NotArr (OStr value)
        else match jsonNumbers value with
             | Some ns => Arr ns
             | None =>
                 match commaNumbers value with
                 | [] => NotArr (OStr value)
                 | ns => Arr ns
                 end
             end).
Proof.
  unfold parsePhases, jsonNumbers, commaNumbers, try_return.
  destruct (falsy value); [done |].
  destruct (matches_range value); [done |].
  destruct (JSON_parse value) as [[] |]; simpl; try by destruct (List.filter _ _).
  destruct (map_exc to_number elems); simpl; [done |].
  by destruct (List.filter _ _).
Qed.

Lemma parseNumberArray_unfold (value : string) :
  parseNumberArray value =
    Ok (if falsy value then []
        else match jsonNumbers value with
             | Some ns => ns
             | None => commaNumbers value
             end).
Proof.
  unfold parseNumberArray, jsonNumbers, commaNumbers, try_return.
  destruct (falsy value); [done |].
  destruct (JSON_parse value) as [[] |]; simpl; try done.
  by destruct (map_exc to_number elems).
Qed.

Lemma parseArray_unfold (value : string) :
  parseArray value =
    Ok (if falsy value then []
        else match jsonStrings value with
             | Some l => l
             | None =>
                 List.filter (fun item => Nat.ltb 0 (String.length item))
                   (map trim (split "," value))
             end).
Proof.
  unfold parseArray, jsonStrings, try_return.
  destruct (falsy value); [done |].
  destruct (JSON_parse value) as [[] |]; simpl; try done.
  by destruct (map_exc to_string elems).
Qed.

Lemma filter_notNaN (l : list number) :
  Forall (fun n => n <> NaN) (List.filter notNaN l).
Proof.
  apply Forall_forall. intros n Hn.
  apply list_elem_of_In, filter_In in Hn as [_ Hn].
  by destruct n.
Qed.

Lemma jsonNumbers_notNaN (value : string) (ns : list number) :
  jsonNumbers value = Some ns -> Forall (fun n => n <> NaN) ns.
Proof.
  unfold jsonNumbers.
  destruct (JSON_parse value) as [[] |]; try done.
  destruct (map_exc to_number elems); [| done].
  intros [= <-]. apply filter_notNaN.
Qed.

End Coercion.

(** C1.  A cell that holds [0] is coerced to the integer 1, not to 0: the
    text ["0"] parses to the integer 0, and the [Duration] of a task row,
    the [PriorityLevel] of a client row and the [MaxLoadPerPhase] of a worker
    row that hold ["0"] all come out as 1. *)
Theorem zero_cell_coerced_to_one :
  parseInt "0" = Int 0 /\
  Duration <$> transformTask {[ "Duration" := VStr "0" ]} = Ok (Int 1) /\
  PriorityLevel <$> transformClient {[ "PriorityLevel" := VStr "0" ]} = Ok (Int 1) /\
  MaxLoadPerPhase <$> transformWorker {[ "MaxLoadPerPhase" := VStr "0" ]} = Ok (Int 1).
Proof. repeat split; vm_compute; reflexivity. Qed.

(** The coercion of an integer scalar in general: the parsed integer,
    unless the cell does not parse or parses to 0, and then 1. *)
Lemma integer_scalar_coercion (cell : string) :
  num_or (parseInt cell) (Int 1) =
    match parseInt cell with
    | NaN | Int 0 => Int 1
    | n => n
    end.
Proof. unfold num_or. by destruct (parseInt cell) as [| | [] |]. Qed.

(** C2.  The raw string does not come back from the JSON branch: the text
    of a JSON array whose elements are not numbers, such as
    [["soon","later"]], is not a range literal, none of its elements
    converts to a number, and the result is the empty list.  The same two
    names separated by a comma, which the comma branch reads, give the raw
    string; so does every other cell of which no number remains. *)
Theorem parsePhases_array_masks_cell :
  let cell := "[" +:+ quoted "soon" +:+ "," +:+ quoted "later" +:+ "]" in
  matches_range cell = false /\
  JSON_parse cell = Ok (VArr [VStr "soon"; VStr "later"]) /\
  resolvedNumbers cell = [] /\
  parsePhases cell = Ok (Arr []) /\
  parsePhases "soon,later" = Ok (NotArr (OStr "soon,later")) /\
  parsePhases "[]" = Ok (Arr []).
Proof. repeat split; vm_compute; reflexivity. Qed.

(** C9.  The three coercions return a value for every cell and never
    throw: a list of strings; a list of numbers without [NaN]; a list of
    numbers without [NaN] or the cell itself.  A cell that is not the text
    of a JSON array, malformed JSON included, is read as comma-separated
    pieces, and the pieces that are not numbers are left out. *)
Theorem coercions_never_throw (cell : string) :
  (exists l, parseArray cell = Ok l) /\
  (exists ns, parseNumberArray cell = Ok ns /\ Forall (fun n => n <> NaN) ns) /\
  (exists p, parsePhases cell = Ok p /\
     match p with
     | Arr ns => Forall (fun n => n <> NaN) ns
     | NotArr v => v = OStr cell
     end) /\
  (forall e, cell <> "" -> JSON_parse cell = Throw e ->
     parseArray cell =
       Ok (List.filter (fun item => Nat.ltb 0 (String.length item))
             (map trim (split "," cell))) /\
     parseNumberArray cell = Ok (commaNumbers cell)).
Proof.
  split; [| split; [| split]].
  - rewrite parseArray_unfold. eauto.
  - rewrite parseNumberArray_unfold. eexists; split; [done |].
    destruct (falsy cell); [constructor |].
    destruct (jsonNumbers cell) eqn:Hj.
    + by eapply jsonNumbers_notNaN.
    + apply filter_notNaN.
  - rewrite parsePhases_unfold. eexists; split; [done |].
    destruct (falsy cell); [constructor |].
    destruct (matches_range cell); [done |].
    destruct (jsonNumbers cell) eqn:Hj.
    + by eapply jsonNumbers_notNaN.
    + pose proof (filter_notNaN
        (map (fun item => parseInt (trim item)) (split "," cell))) as H.
      fold (commaNumbers cell) in H.
      by destruct (commaNumbers cell).
  - intros e Hne He.
    rewrite parseArray_unfold, parseNumberArray_unfold.
    unfold jsonStrings, jsonNumbers. rewrite He.
    destruct (falsy cell) eqn:Hf; [by apply falsy_spec in Hf | done].
Qed.

Lemma coercions_never_throw_witness :
  parseArray "[1,x" = Ok ["[1"; "x"] /\ parseNumberArray "[1,x" = Ok [].
Proof.
  destruct (coercions_never_throw "[1,x") as (_ & _ & _ & H).
  apply (H SyntaxError); [discriminate | reflexivity].
Defined.

(** ** Entity detection *)

Lemma existsb_orb {A} (f g : A -> bool) (l : list A) :
  existsb (fun x => f x || g x) l = existsb f l || existsb g l.
Proof.
  induction l as [|x l IH]; simpl; [done |].
  rewrite IH. destruct (f x), (g x), (existsb f l), (existsb g l); done.
Qed.

Lemma existsb_const_false {A} (l : list A) : existsb (fun _ => false) l = false.
Proof. by induction l. Qed.

Lemma headerSet_has (x : string) (headers : list string) :
  bool_decide (x ∈ (list_to_set (map toLowerCase headers) : gset string)) =
  existsb (fun h => String.eqb (toLowerCase h) x) headers.
Proof.
  induction headers as [|h headers IH]; simpl.
  - apply bool_decide_eq_false. apply not_elem_of_empty.
  - rewrite <- IH. destruct (String.eqb_spec (toLowerCase h) x) as [-> | Hne].
    + apply bool_decide_eq_true, elem_of_union_l, elem_of_singleton. done.
    + simpl. apply bool_decide_ext.
      rewrite elem_of_union, elem_of_singleton.
      split; [intros [-> | H]; [done | exact H] | by right].
Qed.

(** C3, as stated, fails: the header [Available_Slots], and likewise
    [max load per phase], is not recognized as a worker marker; a table
    with that header alone is detected as a client table.  Only the header
    without separators is a worker marker. *)
Lemma detectEntityType_separator_counterexample :
  detectEntityType ["Available_Slots"] <> worker /\
  detectEntityType ["max load per phase"] <> worker /\
  detectEntityType ["Available_Slots"] = client /\
  detectEntityType ["AvailableSlots"] = worker.
Proof. vm_compute. repeat split; first [discriminate | reflexivity]. Qed.

(** C3, amended.  The headers are put in lower case, and nothing else is
    done to them.  The table is a client table if some header is then a
    client marker; else a worker table if some header is a worker marker;
    else a task table if some header is a task marker; else a client
    table.  The only markers with a separator are [client_id], [worker_id]
    and [task_id]. *)
Theorem detectEntityType_spec (headers : list string) :
  detectEntityType headers =
    if marks clientMarkers headers then client
    else if marks workerMarkers headers then worker
    else if marks taskMarkers headers then task
    else client.
Proof.
  unfold detectEntityType, marks, clientMarkers, workerMarkers, taskMarkers.
  cbn [existsb]. rewrite !existsb_orb, !headerSet_has, !existsb_const_false.
  rewrite !orb_false_r, !orb_assoc.
  by repeat match goal with
     | |- context [existsb ?f headers] =>
         let b := fresh "b" in
         generalize (existsb f headers); intros b
     end.
Qed.

(** ** Phase ranges *)

Section PhaseRange.

Lemma digit_eqb (c x : ascii) :
  is_digit c = true -> is_digit x = false -> Ascii.eqb c x = false.
Proof.
  intros Hc Hx. destruct (Ascii.eqb_spec c x) as [-> | _]; [| done].
  by rewrite Hc in Hx.
Qed.

Lemma digit_not_space (c : ascii) : is_digit c = true -> is_space c = false.
Proof. unfold is_digit, is_space. lia. Qed.

Lemma span_digits (l : list ascii) :
  forallb is_digit l = true -> span is_digit l = (l, []).
Proof.
  induction l as [|c l IH]; simpl; [done |].
  intros [Hc Hl]%andb_prop. by rewrite Hc, IH.
Qed.

Lemma span_digits_stop (l : list ascii) (c : ascii) (rest : list ascii) :
  forallb is_digit l = true -> is_digit c = false ->
  span is_digit (l ++ c :: rest) = (l, c :: rest).
Proof.
  intros Hl Hc. induction l as [|d l IH]; simpl.
  - by rewrite Hc.
  - apply andb_prop in Hl as [Hd Hl]. by rewrite Hd, IH.
Qed.

Lemma drop_spaces_digits (l : list ascii) :
  forallb is_digit l = true -> drop_spaces l = l.
Proof.
  destruct l as [|c l]; simpl; [done |].
  intros [Hc _]%andb_prop. by rewrite (digit_not_space c Hc).
Qed.

Lemma forallb_rev {A} (p : A -> bool) (l : list A) :
  forallb p (rev l) = forallb p l.
Proof.
  induction l as [|x l IH]; simpl; [done |].
  rewrite forallb_app, IH. simpl. destruct (forallb p l), (p x); done.
Qed.

Lemma trim_digits (l : list ascii) :
  forallb is_digit l = true -> trim_chars l = l.
Proof.
  intros Hl. unfold trim_chars.
  rewrite (drop_spaces_digits l Hl), drop_spaces_digits, rev_involutive; [done |].
  by rewrite forallb_rev.
Qed.

Lemma split_digits (l : list ascii) :
  forallb is_digit l = true -> split_chars "-" l = [l].
Proof.
  induction l as [|c l IH]; simpl; [done |].
  intros [Hc Hl]%andb_prop.
  by rewrite (digit_eqb c "-" Hc), (IH Hl).
Qed.

Lemma split_range (a b : list ascii) :
  forallb is_digit a = true -> forallb is_digit b = true ->
  split_chars "-" (a ++ "-"%char :: b) = [a; b].
Proof.
  intros Ha Hb. induction a as [|c a IH]; simpl.
  - by rewrite (split_digits b Hb).
  - apply andb_prop in Ha as [Hc Ha].
    by rewrite (digit_eqb c "-" Hc), (IH Ha).
Qed.

Lemma numeral_chars (s : string) :
  is_numeral s = true ->
  exists c l, chars s = c :: l /\ is_digit c = true /\ forallb is_digit l = true.
Proof.
  unfold is_numeral. destruct s as [|c s]; [done |]. simpl.
  intros [Hc Hl]%andb_prop. eauto.
Qed.

(** [Number] reads a numeral as the binary64 number for the natural
    number it denotes. *)
Lemma string_to_number_numeral (s : string) :
  is_numeral s = true ->
  string_to_number s = binary64 (Int (numeral_value s)).
Proof.
  intros Hs. unfold string_to_number, numeral_value.
  destruct (numeral_chars s Hs) as (c & l & -> & Hc & Hl).
  assert (Hcl : forallb is_digit (c :: l) = true) by (simpl; by rewrite Hc, Hl).
  rewrite (trim_digits _ Hcl).
  assert (Hp : strip_radix_prefix (c :: l) = None).
  { destruct l as [|c1 l]; simpl; [done |].
    simpl in Hl. apply andb_prop in Hl as [Hc1 _].
    rewrite !(digit_eqb c1) by done. by destruct (Ascii.eqb c "0"). }
  rewrite Hp. unfold strip_sign.
  rewrite !(digit_eqb c) by done.
  assert (Hi : String.eqb (str (c :: l)) "Infinity" = false).
  { simpl. by rewrite (digit_eqb c "I"). }
  rewrite Hi. unfold decimal_literal.
  rewrite (span_digits _ Hcl). simpl.
  unfold scientific. simpl. do 2 f_equal. rewrite app_nil_r. lia.
Qed.

Lemma numeral_value_nonneg (s : string) : 0 <= numeral_value s.
Proof. by apply digits_value_nonneg. Qed.

Lemma includes_range (sa sb : string) :
  includes "-" (sa +:+ "-" +:+ sb) = true.
Proof.
  unfold includes. rewrite !chars_app, !existsb_app. simpl.
  by rewrite orb_true_r.
Qed.

Lemma split_numerals (sa sb : string) :
  is_numeral sa = true -> is_numeral sb = true ->
  split "-" (sa +:+ "-" +:+ sb) = [sa; sb].
Proof.
  unfold is_numeral. intros [_ Ha]%andb_prop [_ Hb]%andb_prop.
  unfold split. rewrite !chars_app. change (chars "-") with ["-"%char].
  simpl. rewrite (split_range _ _ Ha Hb). simpl. by rewrite !str_chars.
Qed.

Lemma parsePhaseRange_numerals (sa sb : string) :
  is_numeral sa = true -> is_numeral sb = true ->
  numeral_value sa <= max_safe_integer ->
  numeral_value sb <= max_safe_integer ->
  parsePhaseRange (VStr (sa +:+ "-" +:+ sb)) =
    if max_array_length <? numeral_value sb - numeral_value sa + 1
    then Throw RangeError
    else Ok (phases_between (numeral_value sa) (numeral_value sb)).
Proof.
  intros Ha Hb Hsa Hsb. unfold parsePhaseRange.
  rewrite includes_range, (split_numerals _ _ Ha Hb). simpl.
  rewrite (string_to_number_numeral _ Ha), (string_to_number_numeral _ Hb).
  pose proof (numeral_value_nonneg sa) as Hna.
  pose proof (numeral_value_nonneg sb) as Hnb.
  set (a := numeral_value sa) in *. set (b := numeral_value sb) in *.
  unfold max_safe_integer in Hsa, Hsb.
  rewrite (binary64_safe a), (binary64_safe b) by lia.
  unfold num_sub. cbn [num_neg num_add].
  rewrite (binary64_safe (b + - a)) by lia. cbn [num_add].
  rewrite (binary64_safe (b + - a + 1)) by lia.
  unfold array_from, to_length. cbn [places pow10]. rewrite Z.div_1_r.
  replace (b + - a + 1) with (b - a + 1) by lia.
  set (len := b - a + 1).
  unfold max_array_length, max_safe_integer.
  destruct (Z.ltb_spec 4294967295 len) as [Hlong | Hfits].
  - by replace (_ <? _) with true by (symmetry; apply Z.ltb_lt; lia).
  - replace (_ <? _) with false by (symmetry; apply Z.ltb_ge; lia).
    replace (Z.to_nat _) with (Z.to_nat len) by lia.
    unfold phases_between, seqZ. fold len. simpl. do 2 f_equal.
    rewrite <- !list_fmap_compose.
    apply list_fmap_ext. intros i x [-> Hi]%lookup_seq. simpl.
    rewrite binary64_safe by lia. do 2 f_equal. lia.
Qed.

End PhaseRange.

(** The numerals of the standard library are numerals here, and denote the
    same numbers. *)
Lemma uint_digits (d : Decimal.uint) :
  forallb is_digit (chars (NilEmpty.string_of_uint d)) = true.
Proof. induction d; simpl; done. Qed.

Lemma uint_value_acc (d : Decimal.uint) (acc : positive) :
  fold_left (fun a c => a * 10 + default 0 (digit_in 10 c))
    (chars (NilEmpty.string_of_uint d)) (Zpos acc) =
  Zpos (Pos.of_uint_acc d acc).
Proof.
  revert acc. induction d; intros acc; simpl; [done | ..];
    rewrite <- IHd; f_equal;
    match goal with
    | |- context [code ?c] =>
        let v := eval vm_compute in (code c) in change (code c) with v
    end; lia.
Qed.

Lemma uint_value (d : Decimal.uint) :
  digits_value 10 (chars (NilEmpty.string_of_uint d)) = Z.of_N (Pos.of_uint d).
Proof.
  unfold digits_value. induction d; simpl; try done;
    apply (uint_value_acc d).
Qed.

Lemma numeral_is_numeral (n : N) : is_numeral (numeral n) = true.
Proof.
  unfold is_numeral, numeral, NilZero.string_of_uint.
  destruct (N.to_uint n) eqn:Hd; try done; rewrite <- Hd;
    (apply andb_true_intro; split; [by rewrite Hd | apply uint_digits]).
Qed.

Lemma numeral_value_numeral (n : N) : numeral_value (numeral n) = Z.of_N n.
Proof.
  unfold numeral_value, numeral, NilZero.string_of_uint.
  assert (H : digits_value 10 (chars (NilEmpty.string_of_uint (N.to_uint n)))
              = Z.of_N n).
  { rewrite uint_value. f_equal. apply DecimalN.Unsigned.of_to. }
  by destruct (N.to_uint n).
Qed.

(** C10, as stated, fails on a range of 2^32 phases: [0] and [4294967295]
    are numerals with [0 <= 4294967295], and an array of that many phases
    cannot be created: the call ends with a RangeError and returns no
    list.  It fails above 2^53 as well, where the sums [start + i] are
    rounded: the range from 2^53 to 2^53 + 2 has 2^53 twice and 2^53 + 1
    not at all, and the descending range from 2^53 + 1 to 2^53 is not
    empty, since 2^53 + 1 is read as 2^53. *)
Lemma parsePhaseRange_long_range_counterexample :
  is_numeral "0" = true /\ is_numeral "4294967295" = true /\
  numeral_value "0" <= numeral_value "4294967295" /\
  parsePhaseRange (VStr "0-4294967295") = Throw RangeError /\
  parsePhaseRange (VStr "0-4294967295") <> Ok (phases_between 0 4294967295) /\
  parsePhaseRange (VStr "9007199254740992-9007199254740994") =
    Ok (VArr [VNum (Int 9007199254740992); VNum (Int 9007199254740992);
              VNum (Int 9007199254740994)]) /\
  parsePhaseRange (VStr "9007199254740993-9007199254740992") =
    Ok (VArr [VNum (Int 9007199254740992)]).
Proof.
  assert (Hthrows : parsePhaseRange (VStr "0-4294967295") = Throw RangeError).
  { refine (parsePhaseRange_numerals "0" "4294967295" eq_refl eq_refl _ _);
      by vm_compute. }
  repeat split; done.
Qed.

(** C10, amended.  An array is returned as it is.  For two numerals
    [start] and [end] of numbers up to 2^53 - 1, the string [start-end]
    gives the array of the phases from [start] to [end] in ascending order,
    both included, when [start <= end] and the phases are at most
    2^32 - 1, the greatest length of an array; more phases end the call
    with a RangeError; and when [start > end] the result is the empty
    array, without an exception.  In particular this holds for the decimal
    numerals of two natural numbers. *)
Theorem parsePhaseRange_spec :
  (forall elems, parsePhaseRange (VArr elems) = Ok (VArr elems)) /\
  (forall sa sb,
     is_numeral sa = true -> is_numeral sb = true ->
     let first := numeral_value sa in
     let last := numeral_value sb in
     let result := parsePhaseRange (VStr (sa +:+ "-" +:+ sb)) in
     first <= max_safe_integer -> last <= max_safe_integer ->
     (first <= last -> last - first < max_array_length ->
      result =
        Ok (VArr (map (fun z => VNum (Int z)) (seqZ first (last - first + 1))))) /\
     (max_array_length <= last - first -> result = Throw RangeError) /\
     (last < first -> result = Ok (VArr []))) /\
  (forall a b : N,
     let result := parsePhaseRange (VStr (numeral a +:+ "-" +:+ numeral b)) in
     Z.of_N a <= max_safe_integer -> Z.of_N b <= max_safe_integer ->
     ((a <= b)%N -> Z.of_N b - Z.of_N a < max_array_length ->
      result =
        Ok (VArr (map (fun z => VNum (Int z))
                    (seqZ (Z.of_N a) (Z.of_N b - Z.of_N a + 1))))) /\
     (max_array_length <= Z.of_N b - Z.of_N a -> result = Throw RangeError) /\
     ((b < a)%N -> result = Ok (VArr []))).
Proof.
  assert (Hrange : forall sa sb,
    is_numeral sa = true -> is_numeral sb = true ->
    numeral_value sa <= max_safe_integer ->
    numeral_value sb <= max_safe_integer ->
    numeral_value sb - numeral_value sa < max_array_length ->
    parsePhaseRange (VStr (sa +:+ "-" +:+ sb)) =
      Ok (phases_between (numeral_value sa) (numeral_value sb))).
  { intros sa sb Ha Hb Hsa Hsb Hfits.
    rewrite (parsePhaseRange_numerals _ _ Ha Hb Hsa Hsb).
    by replace (_ <? _) with false by (symmetry; apply Z.ltb_ge; lia). }
  assert (Hlong : forall sa sb,
    is_numeral sa = true -> is_numeral sb = true ->
    numeral_value sa <= max_safe_integer ->
    numeral_value sb <= max_safe_integer ->
    max_array_length <= numeral_value sb - numeral_value sa ->
    parsePhaseRange (VStr (sa +:+ "-" +:+ sb)) = Throw RangeError).
  { intros sa sb Ha Hb Hsa Hsb Hmore.
    rewrite (parsePhaseRange_numerals _ _ Ha Hb Hsa Hsb).
    by replace (_ <? _) with true by (symmetry; apply Z.ltb_lt; lia). }
  assert (Hdown : forall first last,
    last < first -> phases_between first last = VArr []).
  { intros first last Hlt. unfold phases_between, seqZ.
    by replace (Z.to_nat _) with O by lia. }
  split; [done |]. split.
  - intros sa sb Ha Hb first last result Hsa Hsb. subst result first last.
    split; [| split].
    + intros _ Hfits. by rewrite (Hrange _ _ Ha Hb Hsa Hsb Hfits).
    + apply (Hlong _ _ Ha Hb Hsa Hsb).
    + intros Hlt. rewrite (Hrange _ _ Ha Hb Hsa Hsb); [by rewrite Hdown |].
      unfold max_array_length. lia.
  - intros a b result Hsa Hsb. subst result.
    pose proof (numeral_is_numeral a) as Ha.
    pose proof (numeral_is_numeral b) as Hb.
    rewrite <- (numeral_value_numeral a) in Hsa.
    rewrite <- (numeral_value_numeral b) in Hsb.
    split; [| split].
    + intros _ Hfits. rewrite (Hrange _ _ Ha Hb Hsa Hsb);
        rewrite !numeral_value_numeral; done.
    + intros Hmore. apply (Hlong _ _ Ha Hb Hsa Hsb).
      by rewrite !numeral_value_numeral.
    + intros Hlt. rewrite (Hrange _ _ Ha Hb Hsa Hsb);
        rewrite !numeral_value_numeral; [| unfold max_array_length; lia].
      rewrite Hdown; [done | lia].
Qed.

Lemma parsePhaseRange_spec_witness :
  parsePhaseRange (VStr "2-5") =
    Ok (VArr [VNum (Int 2); VNum (Int 3); VNum (Int 4); VNum (Int 5)]) /\
  parsePhaseRange (VStr "5-2") = Ok (VArr []).
Proof.
  assert (Hsafe : forall z, z <= 5 -> z <= max_safe_integer)
    by (unfold max_safe_integer; lia).
  split.
  - apply (proj1 (proj1 (proj2 parsePhaseRange_spec) "2" "5" eq_refl eq_refl
                    (Hsafe 2 ltac:(lia)) (Hsafe 5 ltac:(lia))));
      vm_compute; [discriminate | reflexivity].
  - apply (proj2 (proj2
      (proj1 (proj2 parsePhaseRange_spec) "5" "2" eq_refl eq_refl
         (Hsafe 5 ltac:(lia)) (Hsafe 2 ltac:(lia))))).
    reflexivity.
Defined.

(** ** The issue list *)

Section Issues.
Variable ids : nat -> string.

Lemma addError_content ty msg f r e errors :
  map content (addError ids ty msg f r e errors) =
  map content errors ++ [(ty, msg, f, r, e)].
Proof. unfold addError. by rewrite map_app. Qed.

Lemma when_addError_content cond ty msg f r e errors :
  map content (when cond (addError ids ty msg f r e) errors) =
  map content errors ++ given cond (ty, msg, f, r, e).
Proof.
  destruct cond; simpl; [apply addError_content | by rewrite app_nil_r].
Qed.

End Issues.

(** The issues of a chain of checks, check by check. *)
Ltac reports :=
  repeat first [rewrite addError_content | rewrite when_addError_content];
  simpl; rewrite <- ?app_assoc; simpl; try done.

Lemma exc_map_compose {A B C} (f : A -> B) (g : B -> C) (m : exc A) :
  exc_map (fun a => g (f a)) m = exc_map g (exc_map f m).
Proof. by destruct m. Qed.

(** Each pass pushes its issues after the ones that are there, and what
    the issues say does not depend on the identifiers drawn. *)
Section Passes.

Lemma validateClient_content ids seen c i errors :
  map content (validateClient ids seen c i errors) =
  map content errors ++ map content (validateClient no_ids seen c i []).
Proof.
  unfold validateClient.
  destruct (AttributesJSON c) as [| | | | s | |];
    try destruct (JSON_parse s); reports.
Qed.

Lemma validateClients_from_content clients ids i seen errors :
  map content (validateClients_from ids clients i seen errors) =
  map content errors ++
  map content (validateClients_from no_ids clients i seen []).
Proof.
  revert ids i seen errors.
  induction clients as [|c clients IH]; intros ids i seen errors; simpl.
  - by rewrite app_nil_r.
  - rewrite IH, (IH no_ids _ _ (validateClient no_ids seen c i [])).
    by rewrite validateClient_content, <- app_assoc.
Qed.

Lemma validateTask_content ids seen t i errors :
  map content (validateTask ids seen t i errors) =
  map content errors ++ map content (validateTask no_ids seen t i []).
Proof.
  unfold validateTask.
  destruct (PreferredPhases t) as [| []]; reports.
Qed.

Lemma validateTasks_from_content tasks ids i seen errors :
  map content (validateTasks_from ids tasks i seen errors) =
  map content errors ++
  map content (validateTasks_from no_ids tasks i seen []).
Proof.
  revert ids i seen errors.
  induction tasks as [|t tasks IH]; intros ids i seen errors; simpl.
  - by rewrite app_nil_r.
  - rewrite IH, (IH no_ids _ _ (validateTask no_ids seen t i [])).
    by rewrite validateTask_content, <- app_assoc.
Qed.

Lemma validateWorker_content ids seen w i errors :
  exc_map (map content) (validateWorker ids seen w i errors) =
  exc_map (fun r => map content errors ++ map content r)
    (validateWorker no_ids seen w i []).
Proof.
  unfold validateWorker.
  destruct (overloaded w) as [b | e]; simpl; [| done]. f_equal.
  destruct (AvailableSlots w); reports.
Qed.

Lemma validateWorkers_from_content workers ids i seen errors :
  exc_map (map content) (validateWorkers_from ids workers i seen errors) =
  exc_map (fun r => map content errors ++ map content r)
    (validateWorkers_from no_ids workers i seen []).
Proof.
  revert ids i seen errors.
  induction workers as [|w workers IH]; intros ids i seen errors; simpl.
  - by rewrite app_nil_r.
  - pose proof (validateWorker_content ids seen w i errors) as Hrow.
    destruct (validateWorker ids seen w i errors) as [errors1 | e],
             (validateWorker no_ids seen w i []) as [errors2 | e'];
      simpl in *; try done.
    injection Hrow as Hrow.
    rewrite IH.
      rewrite (exc_map_compose (map content) (app (map content errors))).
      rewrite (IH no_ids _ _ errors2), Hrow.
      destruct (validateWorkers_from no_ids workers _ _ []); simpl; [| done].
      by rewrite <- app_assoc.
Qed.

Lemma checkClientReferences_content taskIds clients ids i errors :
  map content (checkClientReferences ids taskIds clients i errors) =
  map content errors ++
  map content (checkClientReferences no_ids taskIds clients i []).
Proof.
  revert ids i errors.
  induction clients as [|c clients IH]; intros ids i errors; simpl.
  - by rewrite app_nil_r.
  - rewrite IH. symmetry. rewrite IH. symmetry.
    destruct (RequestedTaskIDs c); reports.
Qed.

Lemma checkTaskSkills_content skills tasks ids i errors :
  map content (checkTaskSkills ids skills tasks i errors) =
  map content errors ++
  map content (checkTaskSkills no_ids skills tasks i []).
Proof.
  revert ids i errors.
  induction tasks as [|t tasks IH]; intros ids i errors; simpl.
  - by rewrite app_nil_r.
  - rewrite IH. symmetry. rewrite IH. symmetry.
    destruct (RequiredSkills t); reports.
Qed.

Lemma validateCrossReferences_content ids clients workers tasks errors :
  map content (validateCrossReferences ids clients workers tasks errors) =
  map content errors ++ crossReport clients workers tasks.
Proof.
  unfold crossReport, validateCrossReferences.
  rewrite checkTaskSkills_content, checkClientReferences_content.
  symmetry. rewrite checkTaskSkills_content. simpl.
  by rewrite <- app_assoc.
Qed.

Lemma checkPhases_content slots demand ids errors :
  map content (fold_left (checkPhase ids slots) demand errors) =
  map content errors ++
  map content (fold_left (checkPhase no_ids slots) demand []).
Proof.
  revert ids errors.
  induction demand as [|[phase d] demand IH]; intros ids errors; simpl.
  - by rewrite app_nil_r.
  - rewrite IH. symmetry. rewrite IH. symmetry. reports.
Qed.

Lemma validateCapacityConstraints_content ids workers tasks errors :
  map content (validateCapacityConstraints ids workers tasks errors) =
  map content errors ++ capacityReport workers tasks.
Proof. apply checkPhases_content. Qed.

(** The issues of a run, pass by pass. *)
Lemma validateAll_content ids clients workers tasks :
  exc_map (map content) (validateAll ids clients workers tasks) =
  exc_map (fun report =>
             clientsReport clients ++ report ++ tasksReport tasks
             ++ crossReport clients workers tasks
             ++ capacityReport workers tasks)
    (workersReport workers).
Proof.
  unfold validateAll, workersReport, validateWorkers. simpl.
  pose proof (validateWorkers_from_content workers ids 0 ∅
                (validateClients ids clients [])) as Hw.
  destruct (validateWorkers_from ids workers 0 ∅ _) as [errors | e],
           (validateWorkers_from no_ids workers 0 ∅ []) as [report | e'];
    simpl in *; try congruence.
  injection Hw as Hw. f_equal.
  rewrite validateCapacityConstraints_content,
    validateCrossReferences_content.
  unfold validateTasks. rewrite validateTasks_from_content, Hw.
  unfold validateClients. rewrite validateClients_from_content. simpl.
  by rewrite <- !app_assoc.
Qed.

End Passes.

(** ** Determinism *)

(** C8.  Two runs of the validation on the same three collections, each
    with its own clock and random numbers, end the same way, and when they
    return, their issue lists agree issue by issue on severity, message,
    field, row index and entity tag; only the identifiers differ. *)
Theorem validateAll_deterministic (ids1 ids2 : nat -> string)
    (clients : list Client) (workers : list Worker) (tasks : list Task) :
  exc_map (map content) (validateAll ids1 clients workers tasks) =
  exc_map (map content) (validateAll ids2 clients workers tasks).
Proof. by rewrite !validateAll_content. Qed.

(** ** Workers without a list of slots *)

(** C7.  The validation of a worker whose [AvailableSlots] is [null] does
    not return an issue list: reading [length] of [null] throws a
    TypeError, whatever the clients and the tasks are. *)
Theorem null_slots_abort_validation (ids : nat -> string)
    (clients : list Client) (tasks : list Task) :
  overloaded nullSlotsWorker = Throw TypeError /\
  validateWorkers ids [nullSlotsWorker] [] = Throw TypeError /\
  validateAll ids clients [nullSlotsWorker] tasks = Throw TypeError.
Proof. repeat split; reflexivity. Qed.

(** ** Row reports *)

Section RowReports.

Lemma validateClient_report seen c i :
  map content (validateClient no_ids seen c i []) = clientRow seen c i.
Proof.
  unfold validateClient, clientRow.
  destruct (AttributesJSON c) as [| | | | s | |];
    try destruct (JSON_parse s); reports; by rewrite ?app_nil_r.
Qed.

Lemma validateWorker_report seen w i :
  completes (overloaded w) = true ->
  exc_map (map content) (validateWorker no_ids seen w i []) =
  Ok (workerRow seen w i).
Proof.
  unfold validateWorker, workerRow.
  destruct (overloaded w) as [b | e]; [intros _ | done]. simpl. f_equal.
  destruct (AvailableSlots w); reports.
Qed.

Lemma validateTask_report seen t i :
  map content (validateTask no_ids seen t i []) = taskRow seen t i.
Proof.
  unfold validateTask, taskRow.
  destruct (PreferredPhases t) as [| []]; reports; by rewrite ?app_nil_r.
Qed.

Lemma validateClients_from_report clients i seen :
  map content (validateClients_from no_ids clients i seen []) =
  rows clientRow ClientID clients i seen.
Proof.
  revert i seen. induction clients as [|c clients IH]; intros i seen; simpl.
  - done.
  - by rewrite validateClients_from_content, IH, validateClient_report.
Qed.

Lemma validateTasks_from_report tasks i seen :
  map content (validateTasks_from no_ids tasks i seen []) =
  rows taskRow TaskID tasks i seen.
Proof.
  revert i seen. induction tasks as [|t tasks IH]; intros i seen; simpl.
  - done.
  - by rewrite validateTasks_from_content, IH, validateTask_report.
Qed.

Lemma validateWorkers_from_report workers i seen :
  Forall (fun w => completes (overloaded w) = true) workers ->
  exc_map (map content) (validateWorkers_from no_ids workers i seen []) =
  Ok (rows workerRow WorkerID workers i seen).
Proof.
  intros Hall. revert i seen.
  induction Hall as [|w workers Hw _ IH]; intros i seen; simpl; [done |].
  pose proof (validateWorker_report seen w i Hw) as Hrow.
  destruct (validateWorker no_ids seen w i []) as [errors | e]; [| done].
  simpl in *. injection Hrow as Hrow.
  rewrite validateWorkers_from_content.
  rewrite (exc_map_compose (map content) (app (map content errors))).
  by rewrite IH, Hrow.
Qed.

(** Over workers for which the comparison returns, the run returns, and
    its issues are the rows of the clients, of the workers and of the
    tasks, then the cross references, then the capacities. *)
Lemma validateAll_report ids clients workers tasks :
  Forall (fun w => completes (overloaded w) = true) workers ->
  exists errors,
    validateAll ids clients workers tasks = Ok errors /\
    map content errors =
      rows clientRow ClientID clients 0 ∅
      ++ rows workerRow WorkerID workers 0 ∅
      ++ rows taskRow TaskID tasks 0 ∅
      ++ crossReport clients workers tasks
      ++ capacityReport workers tasks.
Proof.
  intros Hall.
  pose proof (validateAll_content ids clients workers tasks) as H.
  unfold workersReport, validateWorkers, clientsReport, tasksReport,
    validateClients, validateTasks in H.
  rewrite (validateWorkers_from_report _ _ _ Hall),
    validateClients_from_report, validateTasks_from_report in H.
  destruct (validateAll ids clients workers tasks) as [errors | e];
    [| done].
  exists errors. split; [done |]. by injection H.
Qed.

Lemma checkClientReferences_report taskIds clients i :
  map content (checkClientReferences no_ids taskIds clients i []) =
  indexed (referenceRow taskIds) clients i.
Proof.
  revert i. induction clients as [|c clients IH]; intros i; simpl; [done |].
  rewrite checkClientReferences_content, IH. f_equal.
  unfold referenceRow. destruct (RequestedTaskIDs c); reports.
Qed.

Lemma checkTaskSkills_report skills tasks i :
  map content (checkTaskSkills no_ids skills tasks i []) =
  indexed (skillRow skills) tasks i.
Proof.
  revert i. induction tasks as [|t tasks IH]; intros i; simpl; [done |].
  rewrite checkTaskSkills_content, IH. f_equal.
  unfold skillRow. destruct (RequiredSkills t); reports.
Qed.

Lemma crossReport_rows clients workers tasks :
  crossReport clients workers tasks =
    indexed (referenceRow (list_to_set (map TaskID tasks))) clients 0
    ++ indexed (skillRow (list_to_set (flat_map flatSkills workers))) tasks 0.
Proof.
  unfold crossReport, validateCrossReferences.
  by rewrite checkTaskSkills_content, checkClientReferences_report,
    checkTaskSkills_report.
Qed.

Lemma checkPhases_report slots demand :
  map content (fold_left (checkPhase no_ids slots) demand []) =
  flat_map (phaseRow slots) demand.
Proof.
  induction demand as [|[phase d] demand IH]; simpl; [done |].
  rewrite checkPhases_content, IH. f_equal. reports.
Qed.

Lemma capacityReport_rows workers tasks :
  capacityReport workers tasks =
  flat_map (phaseRow (fold_left supplyOfWorker workers []))
    (fold_left demandOfTask tasks []).
Proof. apply checkPhases_report. Qed.

End RowReports.

(** ** Duplicate identifiers *)

Section Duplicates.

Lemma with_message_app msg l1 l2 :
  with_message msg (l1 ++ l2) = with_message msg l1 ++ with_message msg l2.
Proof. apply filter_app. Qed.

Lemma with_message_given_ne msg cond f :
  finding_message f <> msg -> with_message msg (given cond f) = [].
Proof.
  intros Hne. destruct cond; [| done]. unfold with_message. simpl.
  by rewrite filter_cons_False.
Qed.

Lemma with_message_excluded name v l :
  Forall (no_duplicate_of name) l ->
  with_message (duplicateMessage name v) l = [].
Proof.
  induction 1 as [|f l Hf _ IH]; [done |].
  unfold with_message in *. by rewrite filter_cons_False.
Qed.

Lemma append_inj (p a b : string) : p +:+ a = p +:+ b -> a = b.
Proof. induction p as [|c p IH]; simpl; [done |]. intros [= H]. auto. Qed.

Lemma duplicateMessage_inj name a b :
  duplicateMessage name a = duplicateMessage name b -> a = b.
Proof.
  unfold duplicateMessage. intros H.
  by repeat apply append_inj in H.
Qed.

Lemma with_message_duplicate name tag v x i cond :
  with_message (duplicateMessage name v)
    (given cond (duplicateFinding name tag x i)) =
  map (duplicateFinding name tag v)
    (if cond && bool_decide (x = v) then [i] else []).
Proof.
  destruct cond; [| done]. unfold with_message. simpl.
  case_bool_decide as Hx.
  - subst x. by rewrite filter_cons_True.
  - rewrite filter_cons_False; [done |].
    simpl. intros H. by apply duplicateMessage_inj in H.
Qed.

Lemma flagged_from_spec v l i seen :
  flagged_from v l i seen =
    if bool_decide (v ∈ seen) then occurrences_from v l i
    else tail (occurrences_from v l i).
Proof.
  revert i seen. induction l as [|x l IH]; intros i seen; simpl.
  - by case_bool_decide.
  - rewrite IH. destruct (decide (x = v)) as [-> | Hne].
    + rewrite (bool_decide_true (v = v)) by done. rewrite andb_true_r.
      rewrite (bool_decide_true (v ∈ {[v]} ∪ seen))
        by (apply elem_of_union_l; by apply elem_of_singleton).
      by case_bool_decide.
    + rewrite (bool_decide_false (x = v)) by done. rewrite andb_false_r.
      simpl. rewrite (bool_decide_ext (v ∈ {[x]} ∪ seen) (v ∈ seen)); [done |].
      rewrite elem_of_union, elem_of_singleton.
      split; [intros [-> | H]; [done | exact H] | by right].
Qed.

End Duplicates.

Section DuplicateRows.
Context {A : Type} (row : gset string -> A -> nat -> list finding)
  (key : A -> string) (name : string) (tag : entity_tag).

Lemma rows_duplicates (v : string) :
  (forall seen x i,
     with_message (duplicateMessage name v) (row seen x i) =
     map (duplicateFinding name tag v)
       (if bool_decide (key x ∈ seen) && bool_decide (key x = v)
        then [i] else [])) ->
  forall l i seen,
    with_message (duplicateMessage name v) (rows row key l i seen) =
    map (duplicateFinding name tag v) (flagged_from v (map key l) i seen).
Proof.
  intros Hrow l. induction l as [|x l IH]; intros i seen; simpl; [done |].
  by rewrite with_message_app, Hrow, IH, map_app.
Qed.

Lemma rows_Forall (P : finding -> Prop) :
  (forall seen x i, Forall P (row seen x i)) ->
  forall l i seen, Forall P (rows row key l i seen).
Proof.
  intros Hrow l. induction l as [|x l IH]; intros i seen; simpl.
  - constructor.
  - apply Forall_app. split; [apply Hrow | apply IH].
Qed.

End DuplicateRows.

Section DuplicatePasses.

Lemma Forall_given (P : finding -> Prop) cond f :
  P f -> Forall P (given cond f).
Proof. intros Hf. destruct cond; repeat constructor. done. Qed.

(** The messages of a row differ from a duplicate-id message in one of
    the first characters, unless they are the duplicate-id message of the
    row. *)
Ltac other_message :=
  unfold duplicateMessage; simpl; discriminate.

Ltac row_duplicates :=
  rewrite !with_message_app, with_message_duplicate;
  rewrite ?with_message_given_ne by other_message;
  simpl; rewrite ?app_nil_r.

Lemma clientRow_duplicates v seen c i :
  with_message (duplicateMessage "ClientID" v) (clientRow seen c i) =
  map (duplicateFinding "ClientID" client v)
    (if bool_decide (ClientID c ∈ seen) && bool_decide (ClientID c = v)
     then [i] else []).
Proof. unfold clientRow. row_duplicates. done. Qed.

Lemma workerRow_duplicates v seen w i :
  with_message (duplicateMessage "WorkerID" v) (workerRow seen w i) =
  map (duplicateFinding "WorkerID" worker v)
    (if bool_decide (WorkerID w ∈ seen) && bool_decide (WorkerID w = v)
     then [i] else []).
Proof.
  unfold workerRow. row_duplicates.
  destruct (AvailableSlots w); [| by rewrite app_nil_r].
  by rewrite with_message_given_ne, app_nil_r by other_message.
Qed.

Lemma taskRow_duplicates v seen t i :
  with_message (duplicateMessage "TaskID" v) (taskRow seen t i) =
  map (duplicateFinding "TaskID" task v)
    (if bool_decide (TaskID t ∈ seen) && bool_decide (TaskID t = v)
     then [i] else []).
Proof.
  unfold taskRow. row_duplicates.
  destruct (PreferredPhases t) as [| []]; rewrite ?app_nil_r; try done;
    by rewrite with_message_given_ne, app_nil_r by other_message.
Qed.

End DuplicatePasses.

Section OtherMessages.

Ltac foreign_message :=
  intros v' H; unfold duplicateMessage in H; simpl in H; discriminate H.

Ltac no_duplicates :=
  repeat (apply Forall_app; split);
  repeat match goal with
    | |- Forall _ (match ?x with _ => _ end) => destruct x
    end;
  first [apply Forall_given | repeat constructor];
  foreign_message.

Lemma indexed_Forall {A} (row : A -> nat -> list finding)
    (P : finding -> Prop) :
  (forall x i, Forall P (row x i)) ->
  forall l i, Forall P (indexed row l i).
Proof.
  intros Hrow l. induction l as [|x l IH]; intros i; simpl.
  - constructor.
  - apply Forall_app. split; [apply Hrow | apply IH].
Qed.

Lemma clientRows_others clients i seen :
  Forall (no_duplicate_of "WorkerID") (rows clientRow ClientID clients i seen) /\
  Forall (no_duplicate_of "TaskID") (rows clientRow ClientID clients i seen).
Proof.
  split; apply rows_Forall; intros; unfold clientRow; no_duplicates.
Qed.

Lemma workerRows_others workers i seen :
  Forall (no_duplicate_of "ClientID") (rows workerRow WorkerID workers i seen) /\
  Forall (no_duplicate_of "TaskID") (rows workerRow WorkerID workers i seen).
Proof.
  split; apply rows_Forall; intros; unfold workerRow; no_duplicates.
Qed.

Lemma taskRows_others tasks i seen :
  Forall (no_duplicate_of "ClientID") (rows taskRow TaskID tasks i seen) /\
  Forall (no_duplicate_of "WorkerID") (rows taskRow TaskID tasks i seen).
Proof.
  split; apply rows_Forall; intros; unfold taskRow; no_duplicates.
Qed.

Lemma crossReport_others name clients workers tasks :
  Forall (no_duplicate_of name) (crossReport clients workers tasks).
Proof.
  rewrite crossReport_rows. apply Forall_app.
  split; apply indexed_Forall; intros; unfold referenceRow, skillRow;
    no_duplicates.
Qed.

Lemma capacityReport_others name workers tasks :
  Forall (no_duplicate_of name) (capacityReport workers tasks).
Proof.
  rewrite capacityReport_rows. apply Forall_forall.
  intros f Hf. apply list_elem_of_In, in_flat_map in Hf as ([p d] & _ & Hf).
  apply list_elem_of_In in Hf. unfold phaseRow, given in Hf.
  destruct (num_gt _ _); [| by apply elem_of_nil in Hf].
  apply list_elem_of_singleton in Hf as ->. foreign_message.
Qed.

End OtherMessages.

Lemma validateWorkers_from_completes ids workers i seen errors :
  completes (validateWorkers_from ids workers i seen errors) = true <->
  Forall (fun w => completes (overloaded w) = true) workers.
Proof.
  revert i seen errors.
  induction workers as [|w workers IH]; intros i seen errors; simpl.
  - by split.
  - rewrite Forall_cons, <- (IH (S i) ({[WorkerID w]} ∪ seen)
      (match validateWorker ids seen w i errors with
       | Ok e => e | Throw _ => [] end)).
    unfold validateWorker.
    destruct (overloaded w) as [b | e]; simpl; [tauto |].
    split; [done | by intros []].
Qed.

Lemma validateAll_completes ids clients workers tasks :
  completes (validateAll ids clients workers tasks) = true <->
  Forall (fun w => completes (overloaded w) = true) workers.
Proof.
  rewrite <- (validateWorkers_from_completes ids workers 0 ∅
                (validateClients ids clients [])).
  unfold validateAll, validateWorkers.
  by destruct (validateWorkers_from ids workers 0 ∅ _).
Qed.

(** When the validation returns, the duplicate-id errors of an identifier
    [v] are exactly those of the rows that hold [v], the first of these
    rows left out, in the order of the rows: when [v] appears [k] times,
    there are [k - 1] of them, on the second to the last occurrence.  This
    holds for [ClientID], for [WorkerID] and for [TaskID]. *)
Lemma duplicate_ids_of_returning_run (ids : nat -> string) (clients : list Client)
    (workers : list Worker) (tasks : list Task)
    (errors : list ValidationError) :
  validateAll ids clients workers tasks = Ok errors ->
  forall v,
    with_message (duplicateMessage "ClientID" v) (map content errors) =
      map (duplicateFinding "ClientID" client v)
        (tail (occurrences v (map ClientID clients))) /\
    with_message (duplicateMessage "WorkerID" v) (map content errors) =
      map (duplicateFinding "WorkerID" worker v)
        (tail (occurrences v (map WorkerID workers))) /\
    with_message (duplicateMessage "TaskID" v) (map content errors) =
      map (duplicateFinding "TaskID" task v)
        (tail (occurrences v (map TaskID tasks))).
Proof.
  intros Hrun v.
  assert (Hall : Forall (fun w => completes (overloaded w) = true) workers).
  { apply (validateAll_completes ids clients workers tasks). by rewrite Hrun. }
  destruct (validateAll_report ids clients workers tasks Hall)
    as (errors' & Hrun' & Hsays).
  rewrite Hrun in Hrun'. injection Hrun' as <-. rewrite Hsays.
  destruct (clientRows_others clients 0 ∅) as [Hcw Hct].
  destruct (workerRows_others workers 0 ∅) as [Hwc Hwt].
  destruct (taskRows_others tasks 0 ∅) as [Htc Htw].
  rewrite !with_message_app.
  rewrite (rows_duplicates clientRow ClientID "ClientID" client v
             (clientRow_duplicates v)).
  rewrite (rows_duplicates workerRow WorkerID "WorkerID" worker v
             (workerRow_duplicates v)).
  rewrite (rows_duplicates taskRow TaskID "TaskID" task v
             (taskRow_duplicates v)).
  rewrite !with_message_excluded
    by first [done | apply crossReport_others | apply capacityReport_others].
  rewrite !flagged_from_spec.
  rewrite (bool_decide_false (v ∈ (∅ : gset string))) by apply not_elem_of_empty.
  by rewrite !app_nil_r.
Qed.

Lemma duplicate_ids_of_returning_run_example :
  exists errors,
    validateAll no_ids
      [exampleClient "C1" []; exampleClient "C1" []; exampleClient "C2" [];
       exampleClient "C1" []]
      [exampleWorker "W1" [] [1] 1; exampleWorker "W1" [] [1] 1] [] = Ok errors /\
    with_message (duplicateMessage "ClientID" "C1") (map content errors) =
      [duplicateFinding "ClientID" client "C1" 1;
       duplicateFinding "ClientID" client "C1" 3] /\
    with_message (duplicateMessage "WorkerID" "W1") (map content errors) =
      [duplicateFinding "WorkerID" worker "W1" 1].
Proof.
  destruct (validateAll no_ids
      [exampleClient "C1" []; exampleClient "C1" []; exampleClient "C2" [];
       exampleClient "C1" []]
      [exampleWorker "W1" [] [1] 1; exampleWorker "W1" [] [1] 1] [])
    as [errors | e] eqn:Hrun; [| by vm_compute in Hrun].
  exists errors. split; [done |].
  destruct (duplicate_ids_of_returning_run _ _ _ _ _ Hrun "C1") as (Hc & _ & _).
  destruct (duplicate_ids_of_returning_run _ _ _ _ _ Hrun "W1") as (_ & Hw & _).
  split; [exact Hc | exact Hw].
Defined.

(** C5.  The duplicate-id errors are lost when the validation aborts.  The
    identifier [C1] appears twice among the clients: with no worker, the
    duplicate-id error is there, on row 1; with a worker whose
    [AvailableSlots] is [null], the validation ends with a TypeError and
    gives no issue at all, so no duplicate-id error either. *)
Theorem duplicate_ids_lost_on_abort :
  let clients := [exampleClient "C1" []; exampleClient "C1" []] in
  occurrences "C1" (map ClientID clients) = [0; 1]%nat /\
  ((fun errors =>
      with_message (duplicateMessage "ClientID" "C1") (map content errors))
     <$> validateAll no_ids clients [] []) =
    Ok [duplicateFinding "ClientID" client "C1" 1] /\
  validateAll no_ids clients [nullSlotsWorker] [] = Throw TypeError.
Proof. repeat split; vm_compute; reflexivity. Qed.

(** ** Cross references *)

Section CrossReferences.

Lemma pushed_content before after report :
  map content after = map content before ++ report ->
  map content (pushed before after) = report.
Proof.
  intros H. unfold pushed.
  change (map content (drop (length before) after))
    with (content <$> drop (length before) after).
  rewrite fmap_drop. change (content <$> after) with (map content after).
  rewrite H, <- (length_map content before). apply drop_app_length.
Qed.

Lemma List_filter_filter {A} (f : A -> bool) (P : A -> Prop)
    `{forall x, Decision (P x)} (l : list A) :
  (forall x, f x = true <-> P x) -> List.filter f l = filter P l.
Proof.
  intros Hf. induction l as [|x l IH]; simpl; [done |].
  rewrite filter_cons, IH. destruct (f x) eqn:Hx.
  - rewrite decide_True; [done | by apply Hf].
  - rewrite decide_False; [done |]. intros HP. apply Hf in HP. congruence.
Qed.

Lemma invalidTasks_unknown tasks requested :
  List.filter
    (fun taskId =>
       negb (bool_decide (taskId ∈ (list_to_set (map TaskID tasks) : gset string))))
    requested =
  unknownTasks tasks requested.
Proof.
  apply List_filter_filter. intros x.
  rewrite negb_true_iff, bool_decide_eq_false, elem_of_list_to_set. done.
Qed.

Lemma flatSkills_possesses w skill :
  skill ∈ flatSkills w <-> possesses w skill.
Proof.
  unfold flatSkills, possesses. destruct (Skills w) as [| []]; try done;
    try (split; [by intros ?%elem_of_nil | done]).
  rewrite list_elem_of_singleton. split; congruence.
Qed.

Lemma unavailableSkills_unmet workers skills :
  List.filter
    (fun skill =>
       negb (bool_decide
               (skill ∈ (list_to_set (flat_map flatSkills workers) : gset string))))
    skills =
  unmetSkills workers skills.
Proof.
  apply List_filter_filter. intros x.
  rewrite negb_true_iff, bool_decide_eq_false, elem_of_list_to_set.
  rewrite Forall_forall. split.
  - intros Hno w Hw Hp. apply Hno, list_elem_of_In, in_flat_map.
    exists w. split; apply list_elem_of_In; [done |].
    by apply flatSkills_possesses.
  - intros Hall (w & Hw & Hx)%list_elem_of_In%in_flat_map.
    apply list_elem_of_In in Hw, Hx.
    by apply (Hall w Hw), flatSkills_possesses.
Qed.

Lemma nonempty_length {A} (l : list A) : l <> [] -> Nat.ltb 0 (length l) = true.
Proof. by destruct l. Qed.

(** The findings of a collection about one of its rows. *)
Lemma indexed_about_before {A} (row : A -> nat -> list finding) tag :
  (forall x k, Forall (about tag k) (row x k)) ->
  forall l i j, (j < i)%nat -> filter (about tag j) (indexed row l i) = [].
Proof.
  intros Hrow l. induction l as [|x l IH]; intros i j Hj; simpl; [done |].
  rewrite filter_app, IH, app_nil_r by lia.
  specialize (Hrow x i). induction Hrow as [|f fs [_ Hf] _ IHf]; [done |].
  rewrite filter_cons_False; [done |].
  intros [_ Hf']. rewrite Hf in Hf'. injection Hf' as ->. lia.
Qed.

Lemma indexed_about {A} (row : A -> nat -> list finding) tag :
  (forall x k, Forall (about tag k) (row x k)) ->
  forall l i n x, l !! n = Some x ->
    filter (about tag (i + n)) (indexed row l i) = row x (i + n)%nat.
Proof.
  intros Hrow l. induction l as [|y l IH]; intros i n x Hx; [done |].
  simpl. rewrite filter_app. destruct n as [|n]; simpl in Hx.
  - injection Hx as ->. rewrite Nat.add_0_r.
    rewrite (indexed_about_before row tag Hrow) by lia.
    rewrite app_nil_r. specialize (Hrow x i).
    induction Hrow as [|f fs Hf _ IHf]; [done |].
    by rewrite filter_cons_True, IHf.
  - replace (i + S n)%nat with (S i + n)%nat by lia.
    rewrite (IH (S i) n x Hx).
    specialize (Hrow y i). 
    assert (filter (about tag (S i + n)) (row y i) = []) as ->; [| done].
    induction Hrow as [|f fs [_ Hf] _ IHf]; [done |].
    rewrite filter_cons_False; [done |].
    intros [_ Hf']. rewrite Hf in Hf'. injection Hf' as Hf'. lia.
Qed.

Lemma indexed_about_other {A} (row : A -> nat -> list finding) tag tag' :
  tag <> tag' ->
  (forall x k, Forall (about tag' k) (row x k)) ->
  forall l i j, filter (about tag j) (indexed row l i) = [].
Proof.
  intros Hne Hrow l. induction l as [|x l IH]; intros i j; simpl; [done |].
  rewrite filter_app, IH, app_nil_r.
  specialize (Hrow x i). induction Hrow as [|f fs [Hf _] _ IHf]; [done |].
  rewrite filter_cons_False; [done |]. intros [Hf' _]. congruence.
Qed.

Lemma referenceRow_about taskIds c k :
  Forall (about client k) (referenceRow taskIds c k).
Proof.
  unfold referenceRow. destruct (RequestedTaskIDs c); [| constructor].
  apply Forall_given. done.
Qed.

Lemma skillRow_about skills t k : Forall (about task k) (skillRow skills t k).
Proof.
  unfold skillRow. destruct (RequiredSkills t); [| constructor].
  apply Forall_given. done.
Qed.

End CrossReferences.

(** C6.  Among the issues that the cross-reference check pushes, a client
    whose [RequestedTaskIDs] is an array with at least one id that is the
    [TaskID] of no task has exactly one issue: an error on the field
    [RequestedTaskIDs] whose message lists all its unknown ids, joined with
    commas.  Likewise a task whose [RequiredSkills] is an array with at
    least one skill that no worker has has exactly one issue: an error on
    the field [RequiredSkills] whose message lists all these skills. *)
Theorem cross_references_one_error_per_row (ids : nat -> string)
    (clients : list Client) (workers : list Worker) (tasks : list Task)
    (errors : list ValidationError) :
  let found :=
    map content
      (pushed errors
         (validateCrossReferences ids clients workers tasks errors)) in
  (forall i c requested,
     clients !! i = Some c ->
     RequestedTaskIDs c = Arr requested ->
     unknownTasks tasks requested <> [] ->
     filter (about client i) found =
       [(error,
         "Unknown task references: " +:+ join ", " (unknownTasks tasks requested),
         Some "RequestedTaskIDs", Some i, client)]) /\
  (forall i t skills,
     tasks !! i = Some t ->
     RequiredSkills t = Arr skills ->
     unmetSkills workers skills <> [] ->
     filter (about task i) found =
       [(error,
         "No workers have required skills: "
         +:+ join ", " (unmetSkills workers skills),
         Some "RequiredSkills", Some i, task)]).
Proof.
  intros found. subst found.
  rewrite (pushed_content _ _ _
             (validateCrossReferences_content ids clients workers tasks errors)).
  rewrite crossReport_rows. split.
  - intros i c requested Hc Hreq Hunknown.
    rewrite filter_app.
    rewrite (indexed_about_other (skillRow _) client task)
      by (done || apply skillRow_about).
    rewrite (indexed_about _ client (referenceRow_about _) clients 0 i c Hc).
    unfold referenceRow. rewrite Hreq, invalidTasks_unknown.
    by rewrite (nonempty_length _ Hunknown).
  - intros i t skills Ht Hskills Hunmet.
    rewrite filter_app.
    rewrite (indexed_about_other (referenceRow _) task client)
      by (done || apply referenceRow_about).
    rewrite (indexed_about _ task (skillRow_about _) tasks 0 i t Ht).
    unfold skillRow. rewrite Hskills, unavailableSkills_unmet.
    by rewrite (nonempty_length _ Hunmet).
Qed.

Lemma cross_references_one_error_per_row_witness :
  let found :=
    map content
      (pushed []
         (validateCrossReferences no_ids
            [exampleClient "C1" ["T1"; "T9"; "T8"]]
            [exampleWorker "W1" ["x"] [1] 1]
            [exampleTask "T1" ["welding"; "x"] (Arr []) 1] [])) in
  filter (about client 0) found =
    [(error, "Unknown task references: T9, T8", Some "RequestedTaskIDs",
      Some 0%nat, client)] /\
  filter (about task 0) found =
    [(error, "No workers have required skills: welding", Some "RequiredSkills",
      Some 0%nat, task)].
Proof.
  split.
  - apply (proj1 (cross_references_one_error_per_row no_ids
             [exampleClient "C1" ["T1"; "T9"; "T8"]]
             [exampleWorker "W1" ["x"] [1] 1]
             [exampleTask "T1" ["welding"; "x"] (Arr []) 1] [])
             0%nat (exampleClient "C1" ["T1"; "T9"; "T8"]) ["T1"; "T9"; "T8"]
             eq_refl eq_refl).
    vm_compute. discriminate.
  - apply (proj2 (cross_references_one_error_per_row no_ids
             [exampleClient "C1" ["T1"; "T9"; "T8"]]
             [exampleWorker "W1" ["x"] [1] 1]
             [exampleTask "T1" ["welding"; "x"] (Arr []) 1] [])
             0%nat (exampleTask "T1" ["welding"; "x"] (Arr []) 1)
             ["welding"; "x"] eq_refl eq_refl).
    vm_compute. discriminate.
Defined.

(** ** Capacities *)

Section Finite.

(** A sum of finite numbers can be an infinity, and is never [NaN]. *)
Lemma num_add_not_NaN a b :
  isNaN a = false -> isFinite b = true -> isNaN (num_add a b) = false.
Proof.
  destruct a, b; try done; intros _ _; unfold num_add, places;
    cbv beta iota zeta; rewrite ?binary64_is_NaN;
    (done || apply decimal_is_NaN).
Qed.

Lemma total_from_not_NaN amounts start :
  isNaN start = false ->
  Forall (fun a => isFinite a = true) amounts ->
  isNaN (fold_left num_add amounts start) = false.
Proof.
  intros Hs Ha. revert start Hs.
  induction Ha as [|a amounts Hfin _ IH]; intros start Hs; simpl; [done |].
  apply IH. by apply num_add_not_NaN.
Qed.

Lemma total_not_NaN amounts :
  Forall (fun a => isFinite a = true) amounts ->
  isNaN (total amounts) = false.
Proof. by apply total_from_not_NaN. Qed.

Lemma num_or_not_NaN a : isNaN a = false -> num_or a (Int 0) = a.
Proof. by destruct a as [| | [] |]. Qed.

Lemma total_snoc amounts a :
  total (amounts ++ [a]) = num_add (total amounts) a.
Proof. unfold total. by rewrite fold_left_app. Qed.

End Finite.

Section Tables.

Lemma distinct_from_snoc seen l k :
  distinct_from seen (l ++ [k]) =
  distinct_from seen l ++ (if decide (k ∈ seen \/ k ∈ l) then [] else [k]).
Proof.
  revert seen. induction l as [|x l IH]; intros seen; simpl.
  - destruct (decide (k ∈ seen)) as [Hk | Hk].
    + rewrite decide_True; [done | by left].
    + rewrite decide_False; [done |].
      intros [H | H]; [done | by apply elem_of_nil in H].
  - destruct (decide (x ∈ seen)) as [Hx | Hx]; rewrite IH; simpl.
    + f_equal. apply decide_ext. rewrite elem_of_cons. naive_solver.
    + do 2 f_equal. apply decide_ext. rewrite !elem_of_cons. naive_solver.
Qed.

Lemma elem_of_distinct_from seen l k :
  k ∈ distinct_from seen l <-> k ∈ l /\ k ∉ seen.
Proof.
  revert seen. induction l as [|x l IH]; intros seen; simpl.
  - split; [by intros H%elem_of_nil | by intros [H%elem_of_nil _]].
  - destruct (decide (x ∈ seen)) as [Hx | Hx].
    + rewrite IH, elem_of_cons. naive_solver.
    + rewrite !elem_of_cons, IH, elem_of_cons. split.
      * intros [-> | [Hk Hn]]; [by auto |]. split; [by right |].
        intros Hs. apply Hn. by right.
      * intros [[-> | Hk] Hn]; [by left |].
        destruct (decide (k = x)) as [-> | Hne]; [by left |].
        right. split; [done |]. intros [? | ?]; done.
Qed.

Lemma NoDup_distinct_from seen l : NoDup (distinct_from seen l).
Proof.
  revert seen. induction l as [|x l IH]; intros seen; simpl.
  - constructor.
  - destruct (decide (x ∈ seen)); [apply IH |].
    constructor; [| apply IH].
    rewrite elem_of_distinct_from, elem_of_cons. naive_solver.
Qed.

Lemma map_get_keys (f : number -> number) ks k :
  map_get k (map (fun key => (key, f key)) ks) =
  if decide (k ∈ ks) then Some (f k) else None.
Proof.
  induction ks as [|k0 ks IH]; simpl.
  - done.
  - destruct (decide (k0 = k)) as [-> | Hne].
    + rewrite decide_True; [done | by left].
    + rewrite IH. apply decide_ext. rewrite elem_of_cons. naive_solver.
Qed.

Lemma map_set_absent (f : number -> number) ks k v :
  k ∉ ks ->
  map_set k v (map (fun key => (key, f key)) ks) =
  map (fun key => (key, f key)) ks ++ [(k, v)].
Proof.
  induction ks as [|k0 ks IH]; simpl; [done |].
  rewrite not_elem_of_cons. intros [Hne Hk].
  rewrite decide_False by done. by rewrite IH.
Qed.

Lemma map_set_present (f : number -> number) ks k v :
  NoDup ks -> k ∈ ks ->
  map_set k v (map (fun key => (key, f key)) ks) =
  map (fun key => (key, if decide (key = k) then v else f key)) ks.
Proof.
  induction 1 as [|k0 ks Hk0 Hnd IH]; [by intros H%elem_of_nil |].
  rewrite elem_of_cons. intros Hk. simpl.
  destruct (decide (k0 = k)) as [-> | Hne].
  - f_equal. apply map_ext_in. intros key Hkey%list_elem_of_In.
    rewrite decide_False; [done |]. by intros ->.
  - f_equal. apply IH. by destruct Hk as [-> | Hk].
Qed.

Lemma amounts_of_snoc key cs k a :
  amounts_of key (cs ++ [(k, a)]) =
  amounts_of key cs ++ (if decide (k = key) then [a] else []).
Proof.
  unfold amounts_of. rewrite filter_app, map_app. f_equal.
  rewrite filter_cons, filter_nil. simpl. by destruct (decide (k = key)).
Qed.

Lemma amounts_of_finite key cs :
  Forall (fun c => isFinite (snd c) = true) cs ->
  Forall (fun a => isFinite a = true) (amounts_of key cs).
Proof.
  intros H. unfold amounts_of. apply Forall_forall.
  intros a (c & -> & Hc)%list_elem_of_fmap.
  apply list_elem_of_filter in Hc as [_ Hc].
  by apply (proj1 (Forall_forall _ _) H).
Qed.

Lemma amounts_of_absent key cs :
  key ∉ map fst cs -> amounts_of key cs = [].
Proof.
  intros Hk. unfold amounts_of.
  induction cs as [|[k a] cs IH]; simpl; [done |].
  simpl in Hk. apply not_elem_of_cons in Hk as [Hne Hk].
  rewrite filter_cons_False; [by apply IH |]. simpl. congruence.
Qed.

(** What the map holds for a key, after the contributions [cs]. *)
Lemma get_or_zero_table cs k :
  Forall (fun c => isFinite (snd c) = true) cs ->
  get_or_zero (table cs) k = total (amounts_of k cs).
Proof.
  intros Hfin. unfold get_or_zero, table. rewrite map_get_keys.
  destruct (decide (k ∈ distinct_from [] (map fst cs))) as [Hk | Hk].
  - apply num_or_not_NaN, total_not_NaN. by apply amounts_of_finite.
  - rewrite amounts_of_absent; [done |].
    intros Hin. apply Hk, elem_of_distinct_from.
    split; [done | apply not_elem_of_nil].
Qed.

(** Adding the contributions one by one into a map that is empty at the
    start gives the table of the sums, in the order in which the keys
    come up. *)
Lemma accumulate_table cs :
  Forall (fun c => isFinite (snd c) = true) cs ->
  fold_left (fun m c => accumulate (snd c) m (fst c)) cs [] = table cs.
Proof.
  induction cs as [|[k a] cs IH] using rev_ind; [done |].
  intros [Hcs Ha]%Forall_app. rewrite fold_left_app. simpl.
  rewrite (IH Hcs). unfold accumulate.
  rewrite (get_or_zero_table cs k Hcs). unfold table.
  rewrite map_app. simpl. rewrite distinct_from_snoc.
  destruct (decide (k ∈ distinct_from [] (map fst cs))) as [Hk | Hk].
  - rewrite map_set_present by (done || apply NoDup_distinct_from).
    apply elem_of_distinct_from in Hk as [Hk _].
    rewrite decide_True by (by right). rewrite app_nil_r.
    apply map_ext. intros key. rewrite amounts_of_snoc.
    destruct (decide (key = k)) as [-> | Hne].
    + rewrite decide_True by done. by rewrite total_snoc.
    + rewrite decide_False by congruence. by rewrite app_nil_r.
  - rewrite map_set_absent by done.
    assert (Hk' : k ∉ map fst cs).
    { intros Hin. apply Hk, elem_of_distinct_from.
      split; [done | apply not_elem_of_nil]. }
    rewrite decide_False
      by (intros [H | H]; [by apply elem_of_nil in H | done]).
    rewrite map_app. simpl. f_equal.
    + apply map_ext_in. intros key Hkey%list_elem_of_In.
      rewrite amounts_of_snoc, decide_False, app_nil_r; [done |].
      intros ->. apply elem_of_distinct_from in Hkey as [Hkey _]. done.
    + rewrite amounts_of_snoc, decide_True by done.
      by rewrite total_snoc.
Qed.

End Tables.

Section Capacity.

Lemma accumulate_keys a ks m :
  fold_left (accumulate a) ks m =
  fold_left (fun m c => accumulate (snd c) m (fst c))
    (map (fun key => (key, a)) ks) m.
Proof. revert m. induction ks as [|k ks IH]; intros m; simpl; [done | apply IH]. Qed.

(** The supply map of the code holds the contributions of the workers,
    and the demand map those of the tasks. *)
Lemma phaseSlots_contributions workers m :
  fold_left supplyOfWorker workers m =
  fold_left (fun m c => accumulate (snd c) m (fst c))
    (contributions MaxLoadPerPhase slotsOf workers) m.
Proof.
  revert m. induction workers as [|w workers IH]; intros m; [done |].
  unfold contributions in *. simpl. rewrite fold_left_app, <- IH. f_equal.
  unfold supplyOfWorker, slotsOf.
  destruct (AvailableSlots w); [apply accumulate_keys | done].
Qed.

Lemma phaseDemand_contributions tasks m :
  fold_left demandOfTask tasks m =
  fold_left (fun m c => accumulate (snd c) m (fst c))
    (contributions Duration phasesOf tasks) m.
Proof.
  revert m. induction tasks as [|t tasks IH]; intros m; [done |].
  unfold contributions in *. simpl. rewrite fold_left_app, <- IH. f_equal.
  unfold demandOfTask, phasesOf.
  destruct (PreferredPhases t); [apply accumulate_keys | done].
Qed.

Lemma contributions_keys {A} (amount : A -> number) keys (l : list A) :
  map fst (contributions amount keys l) = flat_map keys l.
Proof.
  unfold contributions. induction l as [|x l IH]; simpl; [done |].
  rewrite map_app, IH. f_equal. rewrite map_map. simpl. apply map_id.
Qed.

Lemma contributions_amounts {A} (amount : A -> number) keys (l : list A) k :
  amounts_of k (contributions amount keys l) =
  flat_map (fun x => map (fun _ => amount x) (filter (fun key => key = k) (keys x))) l.
Proof.
  unfold contributions, amounts_of.
  induction l as [|x l IH]; simpl; [done |].
  rewrite filter_app, map_app, IH. f_equal. clear IH.
  induction (keys x) as [|key ks IH]; simpl; [done |].
  rewrite !filter_cons. simpl.
  destruct (decide (key = k)); simpl; by rewrite IH.
Qed.

Lemma contributions_finite {A} (amount : A -> number) keys (l : list A) :
  Forall (fun x => isFinite (amount x) = true) l ->
  Forall (fun c => isFinite (snd c) = true) (contributions amount keys l).
Proof.
  unfold contributions. induction 1 as [|x l Hx _ IH]; simpl; [constructor |].
  apply Forall_app. split; [| done].
  apply Forall_forall. by intros c (key & -> & _)%list_elem_of_fmap.
Qed.

Lemma flat_map_given {K} (cond : K -> bool) (f : K -> finding) (l : list K) :
  flat_map (fun k => given (cond k) (f k)) l =
  map f (filter (fun k => cond k = true) l).
Proof.
  induction l as [|k l IH]; simpl; [done |].
  rewrite filter_cons, IH. by destruct (cond k).
Qed.

(** The report of the capacity check, over finite loads and durations. *)
Lemma capacityReport_spec workers tasks :
  Forall (fun w => isFinite (MaxLoadPerPhase w) = true) workers ->
  Forall (fun t => isFinite (Duration t) = true) tasks ->
  capacityReport workers tasks =
  map (saturationFinding workers tasks)
    (filter (fun phase => num_gt (demand tasks phase) (supply workers phase) = true)
       (demandedPhases tasks)).
Proof.
  intros Hw Ht. rewrite capacityReport_rows.
  rewrite phaseSlots_contributions, phaseDemand_contributions.
  rewrite !accumulate_table by by apply contributions_finite.
  unfold table at 2. rewrite contributions_keys.
  rewrite <- flat_map_given. unfold demandedPhases.
  rewrite flat_map_concat_map, map_map, <- flat_map_concat_map.
  apply flat_map_ext. intros phase. unfold phaseRow, saturationFinding.
  rewrite get_or_zero_table by by apply contributions_finite.
  rewrite !contributions_amounts. done.
Qed.

End Capacity.

(** The sums of the capacity check are sums of binary64 numbers: the
    durations 0.1 and 0.2 add up to 0.30000000000000004, more than the
    load 0.3, and give a warning. *)
Example capacity_rounded_sums :
  map content
    (pushed []
       (validateCapacityConstraints no_ids
          [workerOfLoad "W1" (string_to_number "0.3")]
          [taskOfDuration "T1" (string_to_number "0.1");
           taskOfDuration "T2" (string_to_number "0.2")] [])) =
    [(warning,
      "Phase 1 is oversaturated: 0.30000000000000004 duration needed, 0.3 slots available",
      None, None, task)].
Proof. vm_compute. reflexivity. Qed.

(** C4, as stated, fails when a sum is not a number, and when a sum is not
    exact.  A duration cell of 309 digits is read as [Infinity], and as
    [-Infinity] after a minus sign.  Three tasks ask for phase 1 with the
    durations [Infinity], [-Infinity] and 5: adding the durations gives
    [NaN], which exceeds no supply, yet the check warns of a demand of 5,
    because it starts a sum again from 0 when the sum so far is [NaN].
    And the durations 2^53 and 1 exceed the load 2^53, yet the check gives
    no warning, because their sum is rounded to 2^53. *)
Lemma capacity_sums_counterexample :
  let tasks :=
    [taskOfDuration "T1" (Infinity false);
     taskOfDuration "T2" (Infinity true);
     taskOfDuration "T3" (Int 5)] in
  num_or (parseInt (nines 309)) (Int 1) = Infinity false /\
  num_or (parseInt ("-" +:+ nines 309)) (Int 1) = Infinity true /\
  demand tasks (Int 1) = NaN /\
  num_gt (demand tasks (Int 1)) (supply [] (Int 1)) = false /\
  map content (pushed [] (validateCapacityConstraints no_ids [] tasks [])) =
    [(warning, "Phase 1 is oversaturated: 5 duration needed, 0 slots available",
      None, None, task)] /\
  2 ^ 53 < 2 ^ 53 + 1 /\
  validateCapacityConstraints no_ids
    [workerOfLoad "W1" (Int (2 ^ 53))]
    [taskOfDuration "T1" (Int (2 ^ 53)); taskOfDuration "T2" (Int 1)] [] = [].
Proof. repeat split; vm_compute; reflexivity. Qed.

(** C4, amended.  Over workers and tasks whose loads and durations are
    finite numbers, the slots and the phases of a list being numbers as
    the records have them, the issues that the capacity check pushes are
    warnings, one for each phase of the demand map whose demand exceeds
    its supply, in the order of the map and with the phase, the demand and
    the supply in the message.  The supply of a phase adds the [MaxLoadPerPhase] of a
    worker for every occurrence of the phase in its [AvailableSlots]; no
    occurrence gives 0.  The demand adds the [Duration] of a task for every
    occurrence of the phase in its [PreferredPhases], when these are an
    array; a range literal adds nothing.  The additions are those of the
    language, each rounded to a binary64 number, in the order of the
    rows. *)
Theorem capacity_warnings (ids : nat -> string) (workers : list Worker)
    (tasks : list Task) (errors : list ValidationError) :
  Forall (fun w => isFinite (MaxLoadPerPhase w) = true) workers ->
  Forall (fun t => isFinite (Duration t) = true) tasks ->
  map content (pushed errors (validateCapacityConstraints ids workers tasks errors)) =
    map (saturationFinding workers tasks)
      (filter (fun phase => num_gt (demand tasks phase) (supply workers phase) = true)
         (demandedPhases tasks)) /\
  Forall (fun e => type e = warning)
    (pushed errors (validateCapacityConstraints ids workers tasks errors)).
Proof.
  intros Hw Ht.
  pose proof (pushed_content _ _ _
    (validateCapacityConstraints_content ids workers tasks errors)) as Hsays.
  rewrite (capacityReport_spec _ _ Hw Ht) in Hsays. split; [done |].
  apply Forall_forall. intros e He.
  assert (Hc : content e ∈ map content
            (pushed errors (validateCapacityConstraints ids workers tasks errors))).
  { apply list_elem_of_fmap. eauto. }
  rewrite Hsays in Hc. apply list_elem_of_fmap in Hc as (phase & Hc & _).
  unfold content, saturationFinding in Hc. by injection Hc.
Qed.

Lemma capacity_warnings_witness :
  map content
    (pushed []
       (validateCapacityConstraints no_ids
          [exampleWorker "W1" [] [1; 2] 3]
          [exampleTask "T1" [] (Arr [Int 1]) 10;
           exampleTask "T2" [] (NotArr (OStr "1-3")) 50] [])) =
  [(warning, "Phase 1 is oversaturated: 10 duration needed, 3 slots available",
    None, None, task)].
Proof.
  apply (proj1 (capacity_warnings no_ids
           [exampleWorker "W1" [] [1; 2] 3]
           [exampleTask "T1" [] (Arr [Int 1]) 10;
            exampleTask "T2" [] (NotArr (OStr "1-3")) 50] []
           ltac:(repeat constructor) ltac:(repeat constructor))).
Defined.

(** * Further properties *)

Lemma given_nil cond f : given cond f = [] <-> cond = false.
Proof. by destruct cond. Qed.

Lemma positiveInteger_spec n :
  negb (isInteger n) || num_lt n (Int 1) = false <-> positiveInteger n.
Proof.
  unfold positiveInteger. destruct n as [| s | z | q d k]; simpl.
  - split; [done | by intros (z & ? & _)].
  - split; [done | by intros (z & ? & _)].
  - unfold pow10. simpl. rewrite Z.ltb_ge. split.
    + intros H. exists z. split; [done | lia].
    + intros (z' & [= <-] & H). lia.
  - split; [done | by intros (z & ? & _)].
Qed.

Lemma falsy_false (s : string) : falsy s = false <-> s <> "".
Proof. unfold falsy. apply String.eqb_neq. Qed.

Lemma clientRow_nil seen c i :
  clientRow seen c i = [] <-> validClient c /\ ClientID c ∉ seen.
Proof.
  unfold clientRow, validClient.
  rewrite !app_nil, !given_nil, !falsy_false, bool_decide_eq_false,
    orb_false_iff, negb_false_iff.
  assert (Hjson :
    match AttributesJSON c with
    | VStr s => negb (completes (JSON_parse s))
    | _ => false
    end = false <->
    forall s, AttributesJSON c = VStr s -> completes (JSON_parse s) = true).
  { destruct (AttributesJSON c) as [| | | | s | |]; try (split; [by intros | done]).
    rewrite negb_false_iff. split.
    - by intros H s' [= <-].
    - intros H. by apply H. }
  rewrite Hjson. unfold num_gt. tauto.
Qed.

Lemma invalidSlots_nil slots :
  Nat.ltb 0 (length (List.filter invalidSlot slots)) = false <->
  Forall positiveInteger slots.
Proof.
  induction slots as [|slot slots IH]; simpl; [by split |].
  rewrite Forall_cons, <- IH, <- positiveInteger_spec.
  fold (invalidSlot slot). destruct (invalidSlot slot); simpl; [| tauto].
  split; [done | by intros []].
Qed.

Lemma workerRow_nil seen w i :
  workerRow seen w i = [] <-> validWorker w /\ WorkerID w ∉ seen.
Proof.
  unfold workerRow, validWorker, overloaded.
  rewrite !app_nil, !given_nil, !falsy_false, bool_decide_eq_false,
    negb_false_iff, positiveInteger_spec.
  destruct (AvailableSlots w) as [slots | v]; simpl.
  - rewrite given_nil, invalidSlots_nil. unfold positiveInteger. split.
    + intros (? & ? & ? & ? & ? & (load & Hload & ?) & Hlt).
      rewrite Hload in Hlt. simpl in Hlt. unfold pow10 in Hlt. simpl in Hlt.
      apply Z.ltb_ge in Hlt. split; [| done].
      repeat split; try done. exists slots, load. repeat split; try done; lia.
    + intros [(? & ? & ? & slots' & load & [= <-] & ? & Hload & ?) ?].
      repeat split; try done; [by exists load; split; [| lia] |].
      rewrite Hload. simpl. unfold pow10. simpl. apply Z.ltb_ge. lia.
  - split; [by intros (_ & _ & _ & _ & ? & _) |].
    by intros [(_ & _ & _ & slots & load & ? & _) _].
Qed.

Lemma taskRow_nil seen t i :
  taskRow seen t i = [] <-> validTask t /\ TaskID t ∉ seen.
Proof.
  unfold taskRow, validTask, validPhases.
  rewrite !app_nil, !given_nil, !falsy_false, bool_decide_eq_false,
    negb_false_iff, !positiveInteger_spec.
  destruct (PreferredPhases t) as [phases | []]; simpl;
    rewrite ?given_nil, ?negb_false_iff; try tauto;
    (split; [by intros (_ & _ & _ & _ & _ & _ & ?) | tauto]).
Qed.

(** The rows of a collection report nothing when every row passes its
    checks and the identifiers are new and pairwise distinct. *)
Lemma rows_nil {A} (row : gset string -> A -> nat -> list finding)
    (key : A -> string) (P : A -> Prop) :
  (forall seen x i, row seen x i = [] <-> P x /\ key x ∉ seen) ->
  forall l i seen,
    rows row key l i seen = [] <->
    Forall P l /\ NoDup (map key l) /\ (forall x, x ∈ l -> key x ∉ seen).
Proof.
  intros Hrow l. induction l as [|x l IH]; intros i seen; simpl.
  - split; [| done]. intros _. split; [apply Forall_nil_2 |].
    split; [apply NoDup_nil_2 | by intros x ?%elem_of_nil].
  - rewrite app_nil, Hrow, IH, Forall_cons, NoDup_cons. split.
    + intros [[HP Hx] (Hl & Hnd & Hnew)]. repeat split; try done.
      * intros (y & Hy & Hin)%list_elem_of_fmap.
        apply (Hnew y Hin). rewrite <- Hy. set_solver.
      * intros y [-> | Hy]%elem_of_cons; [done |].
        specialize (Hnew y Hy). set_solver.
    + intros ([HP Hl] & [Hx Hnd] & Hnew). repeat split; try done.
      * apply Hnew. by left.
      * intros y Hy. rewrite elem_of_union, elem_of_singleton.
        intros [Heq | Hseen].
        -- apply Hx. rewrite <- Heq. apply list_elem_of_fmap. eauto.
        -- apply (Hnew y); [by right | done].
Qed.

Lemma rows_nil_empty {A} (row : gset string -> A -> nat -> list finding)
    (key : A -> string) (P : A -> Prop) :
  (forall seen x i, row seen x i = [] <-> P x /\ key x ∉ seen) ->
  forall l, rows row key l 0 ∅ = [] <-> NoDup (map key l) /\ Forall P l.
Proof.
  intros Hrow l. rewrite (rows_nil row key P Hrow). split.
  - tauto.
  - intros [? ?]. repeat split; done.
Qed.

Lemma indexed_nil {A} (row : A -> nat -> list finding) (P : A -> Prop) :
  (forall x i, row x i = [] <-> P x) ->
  forall l i, indexed row l i = [] <-> Forall P l.
Proof.
  intros Hrow l. induction l as [|x l IH]; intros i; simpl.
  - by split.
  - by rewrite app_nil, Hrow, IH, Forall_cons.
Qed.

Lemma positive_length_false {A} (l : list A) :
  Nat.ltb 0 (length l) = false <-> l = [].
Proof. by destruct l. Qed.

Lemma filter_nil_Forall {A} (P : A -> Prop) `{forall x, Decision (P x)}
    (l : list A) :
  filter P l = [] <-> Forall (fun x => ~ P x) l.
Proof.
  induction l as [|x l IH]; [by split |].
  rewrite filter_cons, Forall_cons, <- IH.
  destruct (decide (P x)); [| tauto]. split; [done | by intros []].
Qed.

Lemma referenceRow_nil tasks c i :
  referenceRow (list_to_set (map TaskID tasks)) c i = [] <->
  forall requested taskId,
    RequestedTaskIDs c = Arr requested -> taskId ∈ requested ->
    taskId ∈ map TaskID tasks.
Proof.
  unfold referenceRow. destruct (RequestedTaskIDs c) as [requested | v].
  - rewrite given_nil, positive_length_false, invalidTasks_unknown.
    unfold unknownTasks. rewrite filter_nil_Forall, Forall_forall. split.
    + intros Hall requested' taskId [= <-] Hin.
      destruct (decide (taskId ∈ map TaskID tasks)) as [| Hno]; [done |].
      by destruct (Hall taskId Hin).
    + intros Hall taskId Hin Hno. by apply Hno, (Hall requested).
  - by split.
Qed.

Lemma skillRow_nil workers t i :
  skillRow (list_to_set (flat_map flatSkills workers)) t i = [] <->
  forall skills skill,
    RequiredSkills t = Arr skills -> skill ∈ skills ->
    exists w, w ∈ workers /\ possesses w skill.
Proof.
  unfold skillRow. destruct (RequiredSkills t) as [skills | v].
  - rewrite given_nil, positive_length_false, unavailableSkills_unmet.
    unfold unmetSkills. rewrite filter_nil_Forall, Forall_forall. split.
    + intros Hall skills' skill [= <-] Hin.
      specialize (Hall skill Hin).
      apply not_Forall_Exists in Hall; [| intros w; apply _].
      apply Exists_exists in Hall as (w & Hw & Hp).
      exists w. split; [done |].
      by destruct (decide (possesses w skill)).
    + intros Hall skill Hin Hno.
      destruct (Hall skills skill eq_refl Hin) as (w & Hw & Hp).
      rewrite Forall_forall in Hno. by apply (Hno w Hw).
  - by split.
Qed.

Lemma crossReport_nil clients workers tasks :
  crossReport clients workers tasks = [] <->
  resolved clients tasks /\ staffed workers tasks.
Proof.
  rewrite crossReport_rows, app_nil.
  rewrite (indexed_nil _ _ (referenceRow_nil tasks)).
  rewrite (indexed_nil _ _ (skillRow_nil workers)).
  unfold resolved, staffed. rewrite !Forall_forall. naive_solver.
Qed.

Lemma positiveInteger_finite n : positiveInteger n -> isFinite n = true.
Proof. by intros (z & -> & _). Qed.

Lemma capacityReport_nil workers tasks :
  Forall (fun w => isFinite (MaxLoadPerPhase w) = true) workers ->
  Forall (fun t => isFinite (Duration t) = true) tasks ->
  capacityReport workers tasks = [] <-> unsaturated workers tasks.
Proof.
  intros Hw Ht. rewrite (capacityReport_spec _ _ Hw Ht).
  assert (Hin : forall phase,
    phase ∈ demandedPhases tasks <->
    exists t, t ∈ tasks /\ phase ∈ phasesOf t).
  { intros phase. unfold demandedPhases.
    rewrite elem_of_distinct_from, list_elem_of_In, in_flat_map.
    setoid_rewrite <- list_elem_of_In. split.
    - by intros [? _].
    - intros ?. split; [done | by intros ?%elem_of_nil]. }
  unfold unsaturated. split.
  - intros Hnil%map_eq_nil t phase Hin_t Hin_p.
    rewrite filter_nil_Forall, Forall_forall in Hnil.
    apply not_true_is_false, Hnil, Hin. eauto.
  - intros Hall.
    assert (Hnil : filter
      (fun phase => num_gt (demand tasks phase) (supply workers phase) = true)
      (demandedPhases tasks) = []).
    { apply filter_nil_Forall, Forall_forall.
      intros phase (t & Hin_t & Hin_p)%Hin.
      by rewrite (Hall t phase Hin_t Hin_p). }
    by rewrite Hnil.
Qed.

Lemma validWorker_completes w :
  validWorker w -> completes (overloaded w) = true.
Proof.
  intros (_ & _ & _ & slots & load & Hslots & _). unfold overloaded.
  by rewrite Hslots.
Qed.

(** X1.  The validation reports nothing exactly on the data in which the
    identifiers of each collection are pairwise distinct, every row passes
    its checks, every requested task and required skill is there, and no
    phase is asked for more than the workers supply. *)
Theorem validateAll_clean (ids : nat -> string) (clients : list Client)
    (workers : list Worker) (tasks : list Task) :
  validateAll ids clients workers tasks = Ok [] <->
  wellFormed clients workers tasks.
Proof.
  assert (Hreport : forall errors,
    Forall (fun w => completes (overloaded w) = true) workers ->
    validateAll ids clients workers tasks = Ok errors ->
    (errors = [] <->
     rows clientRow ClientID clients 0 ∅ = [] /\
     rows workerRow WorkerID workers 0 ∅ = [] /\
     rows taskRow TaskID tasks 0 ∅ = [] /\
     crossReport clients workers tasks = [] /\
     capacityReport workers tasks = [])).
  { intros errors Hall Hrun.
    destruct (validateAll_report ids clients workers tasks Hall)
      as (errors' & Hrun' & Hsays).
    rewrite Hrun in Hrun'. injection Hrun' as <-.
    rewrite <- !app_nil, <- Hsays. by destruct errors. }
  assert (Hrows :
    (rows clientRow ClientID clients 0 ∅ = [] <->
       NoDup (map ClientID clients) /\ Forall validClient clients) /\
    (rows workerRow WorkerID workers 0 ∅ = [] <->
       NoDup (map WorkerID workers) /\ Forall validWorker workers) /\
    (rows taskRow TaskID tasks 0 ∅ = [] <->
       NoDup (map TaskID tasks) /\ Forall validTask tasks)).
  { split; [| split].
    - apply rows_nil_empty, clientRow_nil.
    - apply rows_nil_empty, workerRow_nil.
    - apply rows_nil_empty, taskRow_nil. }
  destruct Hrows as (Hclients & Hworkers & Htasks).
  assert (Hfinite :
    Forall validWorker workers -> Forall validTask tasks ->
    Forall (fun w => isFinite (MaxLoadPerPhase w) = true) workers /\
    Forall (fun t => isFinite (Duration t) = true) tasks).
  { intros Hw Ht. split.
    - eapply Forall_impl; [exact Hw |].
      by intros w (_ & _ & _ & slots & load & _ & _ & -> & _).
    - eapply Forall_impl; [exact Ht |].
      intros t (_ & _ & Hd & _). by apply positiveInteger_finite. }
  unfold wellFormed. split.
  - intros Hrun.
    assert (Hall : Forall (fun w => completes (overloaded w) = true) workers).
    { apply (validateAll_completes ids clients workers tasks). by rewrite Hrun. }
    destruct (proj1 (Hreport [] Hall Hrun) eq_refl)
      as (Hc & Hw & Ht & Hx & Hcap).
    apply Hclients in Hc. apply Hworkers in Hw. apply Htasks in Ht.
    apply crossReport_nil in Hx as [Hres Hst].
    destruct (Hfinite (proj2 Hw) (proj2 Ht)) as [Hfw Hft].
    apply (capacityReport_nil _ _ Hfw Hft) in Hcap. tauto.
  - intros (Hc & Hw & Ht & Hres & Hst & Hcap).
    assert (Hall : Forall (fun w => completes (overloaded w) = true) workers).
    { eapply Forall_impl; [exact (proj2 Hw) | apply validWorker_completes]. }
    destruct (validateAll_report ids clients workers tasks Hall)
      as (errors & Hrun & _).
    rewrite Hrun. f_equal. apply (Hreport errors Hall Hrun).
    destruct (Hfinite (proj2 Hw) (proj2 Ht)) as [Hfw Hft].
    rewrite Hclients, Hworkers, Htasks, crossReport_nil,
      (capacityReport_nil _ _ Hfw Hft). tauto.
Qed.

(** ** Exceptions of the validation *)

Lemma map_exc_throws {A B} (f : A -> exc B) (l : list A) e :
  map_exc f l = Throw e -> exists x, x ∈ l /\ f x = Throw e.
Proof.
  induction l as [|x l IH]; simpl; [done |].
  destruct (f x) as [b | e'] eqn:Hx.
  - destruct (map_exc f l) as [bs | e'']; simpl; [done |].
    intros [= <-]. destruct (IH eq_refl) as (y & Hy & Hfy).
    exists y. split; [by right | done].
  - intros [= <-]. exists x. split; [by left | done].
Qed.

Lemma to_string_throws v e : to_string v = Throw e -> e = TypeError.
Proof.
  revert v e. fix IH 1.
  intros [| | [] | n | s | elems | props] e; simpl; try discriminate.
  - intros He.
    destruct (map_exc _ elems) as [l | e'] eqn:Hm; [discriminate |].
    simpl in He. injection He as <-.
    revert e' Hm. induction elems as [|x elems IHl]; simpl; [discriminate |].
    intros e'.
    destruct (match x with VUndefined | VNull => Ok "" | _ => to_string x end)
      as [sx | ex] eqn:Hx.
    + destruct (map_exc _ elems) as [l | e'']; [discriminate |].
      intros [= <-]. by apply IHl.
    + intros [= <-]. apply (IH x). by destruct x.
  - destruct (has_prop "toString" props); [congruence | discriminate].
Qed.

Lemma to_number_throws v e : to_number v = Throw e -> e = TypeError.
Proof.
  destruct v as [| | [] | n | s | elems | props]; try discriminate;
    unfold to_number;
    match goal with
    | |- context [to_string ?v] => destruct (to_string v) eqn:H
    end; simpl; try discriminate;
    intros [= <-]; by apply to_string_throws in H.
Qed.

Lemma overloaded_throws w e : overloaded w = Throw e -> e = TypeError.
Proof.
  unfold overloaded, less_than.
  destruct (length_of (AvailableSlots w)) as [len | e'] eqn:Hlen; simpl.
  - destruct (to_number len) as [n | e'] eqn:Hn; simpl; [discriminate |].
    intros [= <-]. by apply to_number_throws in Hn.
  - intros [= <-]. destruct (AvailableSlots w) as [| []]; simpl in Hlen;
      congruence.
Qed.

Lemma validateWorkers_from_throws ids workers i seen errors e :
  validateWorkers_from ids workers i seen errors = Throw e -> e = TypeError.
Proof.
  revert i seen errors.
  induction workers as [|w workers IH]; intros i seen errors; simpl; [done |].
  unfold validateWorker.
  destruct (overloaded w) as [b | e'] eqn:Hw; simpl.
  - apply IH.
  - intros [= <-]. by apply overloaded_throws in Hw.
Qed.

Lemma validateAll_throws ids clients workers tasks e :
  validateAll ids clients workers tasks = Throw e -> e = TypeError.
Proof.
  unfold validateAll, validateWorkers.
  destruct (validateWorkers_from ids workers 0 ∅ _) as [errors | e'] eqn:Hw;
    simpl; [discriminate |].
  intros [= <-]. by apply validateWorkers_from_throws in Hw.
Qed.


Lemma plainSlots_completes w : plainSlots w -> completes (overloaded w) = true.
Proof.
  unfold plainSlots, overloaded. by destruct (AvailableSlots w) as [| []].
Qed.

Lemma missingSlots_throws w : missingSlots w -> completes (overloaded w) = false.
Proof. unfold overloaded. by intros [-> | ->]. Qed.

(** X2.  The pass over the workers returns, from any issue list, when the
    [AvailableSlots] of every worker is an array, a string, a number or a
    boolean; and the validation ends with a TypeError when the
    [AvailableSlots] of some worker is [null] or [undefined], whatever the
    other rows, the clients and the tasks are. *)
Theorem validateWorkers_returns (ids : nat -> string) (clients : list Client)
    (workers : list Worker) (tasks : list Task) :
  (Forall plainSlots workers ->
   forall errors,
     exists errors', validateWorkers ids workers errors = Ok errors') /\
  (Exists missingSlots workers ->
   validateAll ids clients workers tasks = Throw TypeError).
Proof.
  split.
  - intros Hall errors.
    assert (Hc : completes (validateWorkers ids workers errors) = true).
    { apply validateWorkers_from_completes.
      eapply Forall_impl; [exact Hall | apply plainSlots_completes]. }
    destruct (validateWorkers ids workers errors) as [errors' | e];
      [by exists errors' | done].
  - intros Hex.
    destruct (validateAll ids clients workers tasks) as [errors | e] eqn:Hrun.
    + assert (Hall : Forall (fun w => completes (overloaded w) = true) workers).
      { apply (validateAll_completes ids clients workers tasks).
        by rewrite Hrun. }
      apply Exists_exists in Hex as (w & Hw & Hmiss).
      rewrite Forall_forall in Hall. specialize (Hall w Hw).
      by rewrite (missingSlots_throws w Hmiss) in Hall.
    + f_equal. by apply validateAll_throws in Hrun.
Qed.

Lemma validateWorkers_returns_witness :
  (exists errors',
     validateWorkers no_ids [exampleWorker "W1" ["welding"] [1; 2] 3] [] =
     Ok errors') /\
  validateAll no_ids [] [exampleWorker "W1" ["welding"] [1; 2] 1;
                         nullSlotsWorker] [] = Throw TypeError.
Proof.
  split.
  - apply (proj1 (validateWorkers_returns no_ids []
                    [exampleWorker "W1" ["welding"] [1; 2] 3] [])).
    repeat constructor.
  - apply (proj2 (validateWorkers_returns no_ids []
                    [exampleWorker "W1" ["welding"] [1; 2] 1;
                     nullSlotsWorker] [])).
    right. left. by left.
Defined.

(** ** The shape of the issues *)

Section ShapeOfRows.
Variable Q : nat -> finding -> Prop.

Lemma rows_Forall_index {A} (row : gset string -> A -> nat -> list finding)
    (key : A -> string) :
  (forall seen x i, Forall (Q i) (row seen x i)) ->
  forall l i seen,
    Forall (fun f => exists k, (i <= k < i + length l)%nat /\ Q k f)
      (rows row key l i seen).
Proof.
  intros Hrow l. induction l as [|x l IH]; intros i seen; simpl.
  - constructor.
  - apply Forall_app. split.
    + eapply Forall_impl; [apply Hrow |]. intros f Hf. exists i.
      split; [lia | done].
    + eapply Forall_impl; [apply IH |]. intros f (k & Hk & Hf). exists k.
      split; [lia | done].
Qed.

Lemma indexed_Forall_index {A} (row : A -> nat -> list finding) :
  (forall x i, Forall (Q i) (row x i)) ->
  forall l i,
    Forall (fun f => exists k, (i <= k < i + length l)%nat /\ Q k f)
      (indexed row l i).
Proof.
  intros Hrow l. induction l as [|x l IH]; intros i; simpl.
  - constructor.
  - apply Forall_app. split.
    + eapply Forall_impl; [apply Hrow |]. intros f Hf. exists i.
      split; [lia | done].
    + eapply Forall_impl; [apply IH |]. intros f (k & Hk & Hf). exists k.
      split; [lia | done].
Qed.
End ShapeOfRows.

Ltac row_shaped :=
  repeat (apply Forall_app; split);
  repeat match goal with
         | |- context [match ?x with _ => _ end] => destruct x
         end;
  try apply Forall_given; try (repeat constructor; done); try constructor.

Lemma clientRow_shaped seen c i : Forall (rowShaped client i) (clientRow seen c i).
Proof. unfold clientRow, duplicateFinding. row_shaped. Qed.

Lemma workerRow_shaped seen w i : Forall (rowShaped worker i) (workerRow seen w i).
Proof. unfold workerRow, duplicateFinding. row_shaped. Qed.

Lemma taskRow_shaped seen t i : Forall (rowShaped task i) (taskRow seen t i).
Proof. unfold taskRow, duplicateFinding. row_shaped. Qed.

Lemma referenceRow_shaped ids c i : Forall (rowShaped client i) (referenceRow ids c i).
Proof. unfold referenceRow. row_shaped. Qed.

Lemma skillRow_shaped skills t i : Forall (rowShaped task i) (skillRow skills t i).
Proof. unfold skillRow. row_shaped. Qed.

Lemma rowShaped_wellShaped clients workers tasks tag e k :
  (k < collectionSize clients workers tasks tag)%nat ->
  rowShaped tag k (content e) -> wellShaped clients workers tasks e.
Proof.
  unfold wellShaped, rowShaped, content.
  intros Hk (-> & -> & Hf & Hs & Hw). done.
Qed.

(** X3.  Every issue of a run that returns is an error or a warning.  An issue
    with a row index names a row of the collection of its entity type and a
    field, and is a warning only as the warning about the load of a
    worker.  An issue without a row index names no field and is a warning
    with the entity type of the tasks: a capacity warning. *)
Theorem validateAll_issues_shape (ids : nat -> string)
    (clients : list Client) (workers : list Worker) (tasks : list Task)
    (errors : list ValidationError) :
  validateAll ids clients workers tasks = Ok errors ->
  Forall (wellShaped clients workers tasks) errors.
Proof.
  intros Hrun.
  assert (Hall : Forall (fun w => completes (overloaded w) = true) workers).
  { apply (validateAll_completes ids clients workers tasks). by rewrite Hrun. }
  destruct (validateAll_report ids clients workers tasks Hall)
    as (errors' & Hrun' & Hsays).
  rewrite Hrun in Hrun'. injection Hrun' as <-.
  assert (Hshape : Forall
    (fun f => (exists tag k,
                 (k < collectionSize clients workers tasks tag)%nat /\
                 rowShaped tag k f) \/
              generalShaped f)
    (map content errors)).
  { rewrite Hsays. rewrite crossReport_rows, capacityReport_rows.
    repeat (apply Forall_app; split).
    - eapply Forall_impl;
        [apply (rows_Forall_index (rowShaped client)), clientRow_shaped |].
      intros f (k & Hk & Hf). left. exists client, k. split; [simpl; lia | done].
    - eapply Forall_impl;
        [apply (rows_Forall_index (rowShaped worker)), workerRow_shaped |].
      intros f (k & Hk & Hf). left. exists worker, k. split; [simpl; lia | done].
    - eapply Forall_impl;
        [apply (rows_Forall_index (rowShaped task)), taskRow_shaped |].
      intros f (k & Hk & Hf). left. exists task, k. split; [simpl; lia | done].
    - eapply Forall_impl;
        [apply (indexed_Forall_index (rowShaped client)), referenceRow_shaped |].
      intros f (k & Hk & Hf). left. exists client, k. split; [simpl; lia | done].
    - eapply Forall_impl;
        [apply (indexed_Forall_index (rowShaped task)), skillRow_shaped |].
      intros f (k & Hk & Hf). left. exists task, k. split; [simpl; lia | done].
    - apply Forall_forall. intros f Hf. right.
      apply list_elem_of_In, in_flat_map in Hf as ([phase d] & _ & Hf).
      unfold phaseRow in Hf. destruct (num_gt _ _); [| done].
      destruct Hf as [<- | []]. done. }
  rewrite Forall_forall in Hshape. apply Forall_forall. intros e He.
  destruct (Hshape (content e)) as [(tag & k & Hk & Hf) | Hf].
  { apply list_elem_of_fmap. eauto. }
  - by apply (rowShaped_wellShaped _ _ _ tag e k).
  - unfold wellShaped. unfold generalShaped, content in Hf.
    destruct Hf as (-> & -> & -> & ->). done.
Qed.

Lemma validateAll_issues_shape_witness :
  Forall (wellShaped [exampleClient "" ["T9"]] [] [])
    [ {| id := ""; type := error; message := "Missing ClientID";
         field := Some "ClientID"; rowIndex := Some 0%nat; entity := client |};
      {| id := ""; type := error; message := "Unknown task references: T9";
         field := Some "RequestedTaskIDs"; rowIndex := Some 0%nat;
         entity := client |} ].
Proof.
  apply (validateAll_issues_shape no_ids [exampleClient "" ["T9"]] [] []).
  vm_compute. reflexivity.
Defined.

(** ** The range pattern *)

Lemma span_spec (p : ascii -> bool) (l a r : list ascii) :
  span p l = (a, r) -> l = a ++ r /\ forallb p a = true.
Proof.
  revert a r. induction l as [|c l IH]; simpl; intros a r.
  - by intros [= <- <-].
  - destruct (p c) eqn:Hc.
    + destruct (span p l) as [a' r'] eqn:Hs. intros [= <- <-].
      destruct (IH a' r' eq_refl) as [-> Ha]. simpl. by rewrite Hc.
    + by intros [= <- <-].
Qed.

Lemma is_numeral_str (l : list ascii) :
  l <> [] -> forallb is_digit l = true -> is_numeral (str l) = true.
Proof.
  intros Hne Hl. unfold is_numeral. rewrite chars_str, Hl.
  destruct l; [done |]. done.
Qed.

(** X4.  The pattern of a phase range accepts the strings made of a numeral, a
    hyphen and a numeral, and no other string. *)
Theorem isValidPhaseRange_spec (s : string) :
  isValidPhaseRange s = true <->
  exists sa sb,
    is_numeral sa = true /\ is_numeral sb = true /\ s = sa +:+ "-" +:+ sb.
Proof.
  unfold isValidPhaseRange, matches_range, is_range_chars. split.
  - destruct (span is_digit (chars s)) as [a rest] eqn:Ha.
    apply span_spec in Ha as [Hs Ha].
    destruct a as [|c a]; [done |]. destruct rest as [|d rest]; [done |].
    destruct (span is_digit rest) as [b tail] eqn:Hb.
    apply span_spec in Hb as [Hrest Hb].
    intros [Hd Hend]%andb_prop. apply Ascii.eqb_eq in Hd as ->.
    destruct b as [|c' b]; [done |]. destruct tail; [| done].
    rewrite app_nil_r in Hrest. subst rest.
    exists (str (c :: a)), (str (c' :: b)).
    split; [by apply is_numeral_str |]. split; [by apply is_numeral_str |].
    rewrite <- (str_chars s), Hs, <- (str_chars (_ +:+ _)).
    f_equal. rewrite !chars_app, !chars_str. done.
  - intros (sa & sb & Ha & Hb & ->).
    destruct (numeral_chars sa Ha) as (c & a & Hsa & Hc & Hla).
    destruct (numeral_chars sb Hb) as (c' & b & Hsb & Hc' & Hlb).
    rewrite !chars_app, Hsa, Hsb. change (chars "-") with ["-"%char].
    assert (Hca : forallb is_digit (c :: a) = true) by (simpl; by rewrite Hc, Hla).
    assert (Hcb : forallb is_digit (c' :: b) = true) by (simpl; by rewrite Hc', Hlb).
    change ((c :: a) ++ ["-"%char] ++ c' :: b)
      with ((c :: a) ++ "-"%char :: c' :: b).
    rewrite (span_digits_stop (c :: a) "-" (c' :: b) Hca eq_refl).
    by rewrite (span_digits (c' :: b) Hcb).
Qed.

(** ** Ingestion *)


Lemma drop_spaces_idem (l : list ascii) :
  drop_spaces (drop_spaces l) = drop_spaces l.
Proof.
  induction l as [|c l IH]; simpl; [done |].
  destruct (is_space c) eqn:Hc; [done |]. simpl. by rewrite Hc.
Qed.

Lemma drop_spaces_snoc (l : list ascii) (c : ascii) :
  is_space c = false -> drop_spaces (l ++ [c]) = drop_spaces l ++ [c].
Proof.
  intros Hc. induction l as [|d l IH]; simpl; [by rewrite Hc |].
  by destruct (is_space d).
Qed.

Lemma drop_spaces_head (l : list ascii) :
  match drop_spaces l with
  | [] => True
  | c :: _ => is_space c = false
  end.
Proof.
  induction l as [|c l IH]; simpl; [done |].
  by destruct (is_space c) eqn:Hc.
Qed.

Lemma trim_chars_idem (l : list ascii) :
  trim_chars (trim_chars l) = trim_chars l.
Proof.
  unfold trim_chars.
  pose proof (drop_spaces_head l) as Hd.
  destruct (drop_spaces l) as [|c d]; [done |].
  simpl rev at 3. simpl rev at 5.
  rewrite (drop_spaces_snoc _ _ Hd).
  rewrite rev_app_distr. simpl. rewrite Hd. simpl.
  rewrite (drop_spaces_snoc _ _ Hd), rev_involutive, drop_spaces_idem.
  by rewrite rev_app_distr.
Qed.

Lemma trim_idem (s : string) : trim (trim s) = trim s.
Proof. unfold trim. by rewrite chars_str, trim_chars_idem. Qed.

Lemma to_string_scalar (v : value) :
  scalar v = true -> exists s, to_string v = Ok s.
Proof. destruct v as [| | [] | | | |]; simpl; try done; eauto. Qed.

Lemma getValue_trim (r : row) (keys : list string) (s : string) :
  getValue r keys = Ok s -> trim s = s.
Proof.
  induction keys as [|key keys IH]; simpl.
  - by intros [= <-].
  - destruct (r !! key) as [v |]; [| apply IH].
    destruct v; try apply IH;
      (destruct (to_string _) as [x |] eqn:Hx; simpl; [| done];
       intros [= <-]; apply trim_idem).
Qed.

Lemma getValue_scalar (r : row) (keys : list string) :
  map_Forall (fun _ v => scalar v = true) r ->
  exists s, getValue r keys = Ok s.
Proof.
  intros Hr. induction keys as [|key keys IH]; simpl; [eauto |].
  destruct (r !! key) as [v |] eqn:Hv; [| done].
  destruct (to_string_scalar v (Hr key v Hv)) as (s & Hs).
  destruct v; try done; rewrite Hs; simpl; eauto.
Qed.

(** X5.  [getValue] gives a string without white space around it, and the
    empty string when none of the keys has a cell; over a row of scalar
    cells it does not throw. *)
Theorem getValue_trimmed (r : row) (keys : list string) :
  (forall s, getValue r keys = Ok s -> trim s = s) /\
  ((forall key, key ∈ keys -> r !! key = None) -> getValue r keys = Ok "") /\
  (map_Forall (fun _ v => scalar v = true) r ->
   exists s, getValue r keys = Ok s).
Proof.
  split; [| split].
  - apply getValue_trim.
  - induction keys as [|key keys IH]; simpl; intros Hnone; [done |].
    rewrite (Hnone key) by by left. apply IH. intros k Hk.
    apply Hnone. by right.
  - apply getValue_scalar.
Qed.

Lemma getValue_trimmed_witness :
  trim "C1" = "C1" /\
  getValue {[ "name" := VStr "Ada" ]} ["ClientID"; "client_id"; "id"] = Ok "" /\
  exists s, getValue {[ "id" := VStr " C1 " ]} ["ClientID"; "client_id"; "id"]
            = Ok s.
Proof.
  split; [| split].
  - apply (proj1 (getValue_trimmed {[ "id" := VStr " C1 " ]}
                    ["ClientID"; "client_id"; "id"])).
    reflexivity.
  - apply (proj1 (proj2 (getValue_trimmed {[ "name" := VStr "Ada" ]}
                           ["ClientID"; "client_id"; "id"]))).
    intros key Hkey. apply lookup_singleton_None.
    repeat (apply elem_of_cons in Hkey as [-> | Hkey]; [done |]).
    by apply elem_of_nil in Hkey.
  - apply (proj2 (proj2 (getValue_trimmed {[ "id" := VStr " C1 " ]}
                           ["ClientID"; "client_id"; "id"]))).
    by apply map_Forall_singleton.
Defined.


(** [parseInt] gives [NaN], an integer, or an infinity when the digits
    are too many for a number. *)
Lemma parseInt_integer (s : string) :
  parseInt s = NaN \/ (exists z, parseInt s = Int z) \/
  (exists b, parseInt s = Infinity b).
Proof.
  unfold parseInt.
  destruct (strip_sign _) as [negative l].
  destruct (strip_hex_prefix l) as [rest |];
    (destruct (fst (span _ _)); [by left | right; apply binary64_Int_shape]).
Qed.

Lemma coerced_integer (cell : string) (default : Z) :
  default <> 0 -> nonzeroWhole (num_or (parseInt cell) (Int default)).
Proof.
  intros Hd. unfold num_or.
  destruct (parseInt_integer cell) as [-> | [(z & ->) | (b & ->)]];
    simpl; [done | | done].
  destruct z; simpl; done.
Qed.

(** The steps of a transformation, one after the other. *)
Ltac binds H :=
  unfold mbind, exc_mbind, exc_bind in H;
  repeat match type of H with
         | match ?m with Ok _ => _ | Throw _ => _ end = Ok _ =>
             destruct m eqn:?; [cbv beta iota in H | discriminate H]
         end.

(** What [transformClient], [transformWorker] and [transformTask] return,
    from the cells that [getValue] reads. *)
Lemma transformClient_inv r c :
  transformClient r = Ok c ->
  exists cid cname priority tasks group attributes,
    getValue r ["ClientID"; "client_id"; "id"] = Ok cid /\
    getValue r ["ClientName"; "client_name"; "name"] = Ok cname /\
    getValue r ["PriorityLevel"; "priority_level"; "priority"] = Ok priority /\
    getValue r ["RequestedTaskIDs"; "requested_task_ids"; "tasks"] = Ok tasks /\
    getValue r ["GroupTag"; "group_tag"; "group"] = Ok group /\
    getValue r ["AttributesJSON"; "attributes_json"; "attributes"] = Ok attributes /\
    exists requested,
      parseArray tasks = Ok requested /\
      c = {| ClientID := cid;
             ClientName := cname;
             PriorityLevel := num_or (parseInt priority) (Int 1);
             RequestedTaskIDs := Arr requested;
             GroupTag := group;
             AttributesJSON := VStr attributes |}.
Proof.
  unfold transformClient. intros H. binds H. injection H as <-.
  repeat eexists; done.
Qed.

Lemma transformWorker_inv r w :
  transformWorker r = Ok w ->
  exists wid wname skillsCell slotsCell load group level,
    getValue r ["WorkerID"; "worker_id"; "id"] = Ok wid /\
    getValue r ["WorkerName"; "worker_name"; "name"] = Ok wname /\
    getValue r ["Skills"; "skills"] = Ok skillsCell /\
    getValue r ["AvailableSlots"; "available_slots"; "slots"] = Ok slotsCell /\
    getValue r ["MaxLoadPerPhase"; "max_load_per_phase"; "max_load"] = Ok load /\
    getValue r ["WorkerGroup"; "worker_group"; "group"] = Ok group /\
    getValue r ["QualificationLevel"; "qualification_level"; "level"] = Ok level /\
    exists skills slots,
      parseArray skillsCell = Ok skills /\
      parseNumberArray slotsCell = Ok slots /\
      w = {| WorkerID := wid;
             WorkerName := wname;
             Skills := Arr skills;
             AvailableSlots := Arr slots;
             MaxLoadPerPhase := num_or (parseInt load) (Int 1);
             WorkerGroup := group;
             QualificationLevel := num_or (parseInt level) (Int 1) |}.
Proof.
  unfold transformWorker. intros H. binds H. injection H as <-.
  repeat eexists; done.
Qed.

Lemma transformTask_inv r t :
  transformTask r = Ok t ->
  exists tid tname category duration skillsCell phasesCell concurrent,
    getValue r ["TaskID"; "task_id"; "id"] = Ok tid /\
    getValue r ["TaskName"; "task_name"; "name"] = Ok tname /\
    getValue r ["Category"; "category"] = Ok category /\
    getValue r ["Duration"; "duration"] = Ok duration /\
    getValue r ["RequiredSkills"; "required_skills"; "skills"] = Ok skillsCell /\
    getValue r ["PreferredPhases"; "preferred_phases"; "phases"] = Ok phasesCell /\
    getValue r ["MaxConcurrent"; "max_concurrent"; "concurrent"] = Ok concurrent /\
    exists skills phases,
      parseArray skillsCell = Ok skills /\
      parsePhases phasesCell = Ok phases /\
      t = {| TaskID := tid;
             TaskName := tname;
             Category := category;
             Duration := num_or (parseInt duration) (Int 1);
             RequiredSkills := Arr skills;
             PreferredPhases := phases;
             MaxConcurrent := num_or (parseInt concurrent) (Int 1) |}.
Proof.
  unfold transformTask. intros H. binds H. injection H as <-.
  repeat eexists; done.
Qed.

(** X6.  The integer scalar fields of an entity that comes from a row are
    never [NaN], never 0 and never a fraction: a cell that does not parse,
    and a cell that parses to 0, give 1; the others give the integer that
    [parseInt] reads, or an infinity when the digits are too many for a
    number. *)
Theorem ingested_integers (r : row) :
  (forall c, transformClient r = Ok c -> nonzeroWhole (PriorityLevel c)) /\
  (forall w, transformWorker r = Ok w ->
     nonzeroWhole (MaxLoadPerPhase w) /\
     nonzeroWhole (QualificationLevel w)) /\
  (forall t, transformTask r = Ok t ->
     nonzeroWhole (Duration t) /\ nonzeroWhole (MaxConcurrent t)).
Proof.
  split; [| split].
  - intros c Hc. apply transformClient_inv in Hc.
    destruct Hc as (? & ? & ? & ? & ? & ? & _ & _ & _ & _ & _ & _ & ? & _ & ->).
    by apply coerced_integer.
  - intros w Hw. apply transformWorker_inv in Hw.
    destruct Hw as (? & ? & ? & ? & ? & ? & ? & _ & _ & _ & _ & _ & _ & _
                    & ? & ? & _ & _ & ->).
    split; by apply coerced_integer.
  - intros t Ht. apply transformTask_inv in Ht.
    destruct Ht as (? & ? & ? & ? & ? & ? & ? & _ & _ & _ & _ & _ & _ & _
                    & ? & ? & _ & _ & ->).
    split; by apply coerced_integer.
Qed.

Lemma ingested_integers_witness :
  nonzeroWhole (Int 1) /\ nonzeroWhole (Int 7).
Proof.
  split.
  - refine (proj1 (proj2 (proj2 (ingested_integers {[ "Duration" := VStr "abc" ]}))
             {| TaskID := ""; TaskName := ""; Category := ""; Duration := Int 1;
                RequiredSkills := Arr []; PreferredPhases := Arr [];
                MaxConcurrent := Int 1 |} _)).
    reflexivity.
  - refine (proj1 (ingested_integers {[ "priority" := VStr " 7 " ]})
             {| ClientID := ""; ClientName := ""; PriorityLevel := Int 7;
                RequestedTaskIDs := Arr []; GroupTag := "";
                AttributesJSON := VStr "" |} _).
    reflexivity.
Defined.

(** ** Ingested data under validation *)

Lemma rows_Forall_in {A} (row : gset string -> A -> nat -> list finding)
    (key : A -> string) (P : finding -> Prop) (l : list A) :
  (forall seen x i, x ∈ l -> Forall P (row seen x i)) ->
  forall i seen, Forall P (rows row key l i seen).
Proof.
  induction l as [|x l IH]; intros Hrow i seen; simpl; [constructor |].
  apply Forall_app. split.
  - apply Hrow. by left.
  - apply IH. intros seen' y j Hy. apply Hrow. by right.
Qed.

Lemma indexed_Forall_in {A} (row : A -> nat -> list finding)
    (P : finding -> Prop) (l : list A) :
  (forall x i, x ∈ l -> Forall P (row x i)) ->
  forall i, Forall P (indexed row l i).
Proof.
  induction l as [|x l IH]; intros Hrow i; simpl; [constructor |].
  apply Forall_app. split.
  - apply Hrow. by left.
  - apply IH. intros y j Hy. apply Hrow. by right.
Qed.

Lemma map_exc_Forall {A B} (f : A -> exc B) (P : B -> Prop) l bs :
  (forall a b, f a = Ok b -> P b) -> map_exc f l = Ok bs -> Forall P bs.
Proof.
  intros Hf. revert bs. induction l as [|a l IH]; simpl; intros bs.
  - intros [= <-]. constructor.
  - destruct (f a) as [b |] eqn:Ha; [| done].
    destruct (map_exc f l) as [bs' |]; [| done].
    intros [= <-]. constructor; [by eapply Hf | by apply IH].
Qed.

Ltac no_shape_message :=
  unfold noShapeMessage, shapeMessages, finding_message, duplicateFinding,
    duplicateMessage, saturationMessage;
  let H := fresh in
  intros H; simpl in H;
  repeat (apply elem_of_cons in H as [H | H]; [discriminate H |]);
  by apply elem_of_nil in H.

Ltac no_shape_row :=
  repeat (apply Forall_app; split);
  repeat match goal with
         | |- Forall _ (given false _) => apply Forall_nil_2
         | |- Forall _ (given _ _) => apply Forall_given
         | |- Forall _ [] => constructor
         | |- Forall _ [_] => apply Forall_singleton
         end;
  try no_shape_message.

Lemma clientRow_noShape seen c i :
  isArray (RequestedTaskIDs c) = true ->
  Forall noShapeMessage (clientRow seen c i).
Proof.
  intros Harr. unfold clientRow. rewrite Harr. simpl negb. no_shape_row.
Qed.

Lemma workerRow_noShape seen w i :
  isArray (Skills w) = true -> isArray (AvailableSlots w) = true ->
  Forall noShapeMessage (workerRow seen w i).
Proof.
  intros Hskills Hslots. unfold workerRow. rewrite Hskills. simpl negb.
  destruct (AvailableSlots w); [| done]. no_shape_row.
Qed.

Lemma taskRow_noShape seen t i :
  isArray (RequiredSkills t) = true ->
  (forall v, PreferredPhases t = NotArr v -> exists s, v = OStr s) ->
  Forall noShapeMessage (taskRow seen t i).
Proof.
  intros Hskills Hphases. unfold taskRow. rewrite Hskills. simpl negb.
  destruct (PreferredPhases t) as [| v]; [no_shape_row |].
  destruct (Hphases v eq_refl) as (s & ->). no_shape_row.
Qed.

Lemma referenceRow_noShape ids c i : Forall noShapeMessage (referenceRow ids c i).
Proof. unfold referenceRow. destruct (RequestedTaskIDs c); no_shape_row. Qed.

Lemma skillRow_noShape skills t i : Forall noShapeMessage (skillRow skills t i).
Proof. unfold skillRow. destruct (RequiredSkills t); no_shape_row. Qed.

Lemma phaseRow_noShape slots entry : Forall noShapeMessage (phaseRow slots entry).
Proof. unfold phaseRow. destruct entry. no_shape_row. Qed.

Lemma transformWorker_arrays r w :
  transformWorker r = Ok w ->
  isArray (Skills w) = true /\ isArray (AvailableSlots w) = true.
Proof.
  intros Hw. apply transformWorker_inv in Hw.
  by destruct Hw as (? & ? & ? & ? & ? & ? & ? & _ & _ & _ & _ & _ & _ & _
                     & ? & ? & _ & _ & ->).
Qed.

Lemma transformClient_arrays r c :
  transformClient r = Ok c -> isArray (RequestedTaskIDs c) = true.
Proof.
  intros Hc. apply transformClient_inv in Hc.
  by destruct Hc as (? & ? & ? & ? & ? & ? & _ & _ & _ & _ & _ & _ & ? & _ & ->).
Qed.

Lemma parsePhases_shape cell phases v :
  parsePhases cell = Ok phases -> phases = NotArr v -> v = OStr cell.
Proof.
  rewrite parsePhases_unfold. intros [= <-].
  destruct (falsy cell); [done |].
  destruct (matches_range cell); [congruence |].
  destruct (jsonNumbers cell); [done |].
  destruct (commaNumbers cell); [congruence | done].
Qed.

Lemma transformTask_arrays r t :
  transformTask r = Ok t ->
  isArray (RequiredSkills t) = true /\
  (forall v, PreferredPhases t = NotArr v -> exists s, v = OStr s).
Proof.
  intros Ht. apply transformTask_inv in Ht.
  destruct Ht as (? & ? & ? & ? & ? & cell & ? & _ & _ & _ & _ & _ & _ & _
                  & ? & phases & _ & Hp & ->).
  split; [done |]. simpl. intros v Hv. exists cell.
  by apply (parsePhases_shape cell phases).
Qed.

(** X7.  The validation of the entities that come from rows returns, and
    none of its issues says that a field is not an array, or that the
    phases are neither an array nor a string. *)
Theorem ingested_data_validate (ids : nat -> string)
    (clientRows workerRows taskRows : list row)
    (clients : list Client) (workers : list Worker) (tasks : list Task) :
  map_exc transformClient clientRows = Ok clients ->
  map_exc transformWorker workerRows = Ok workers ->
  map_exc transformTask taskRows = Ok tasks ->
  exists errors,
    validateAll ids clients workers tasks = Ok errors /\
    Forall (fun e => message e ∉ shapeMessages) errors.
Proof.
  intros Hc Hw Ht.
  apply (map_exc_Forall _
           (fun c => isArray (RequestedTaskIDs c) = true) _ _
           transformClient_arrays) in Hc.
  apply (map_exc_Forall _
           (fun w => isArray (Skills w) = true /\
                     isArray (AvailableSlots w) = true) _ _
           transformWorker_arrays) in Hw.
  apply (map_exc_Forall _
           (fun t => isArray (RequiredSkills t) = true /\
                     (forall v, PreferredPhases t = NotArr v ->
                                exists s, v = OStr s)) _ _
           transformTask_arrays) in Ht.
  rewrite Forall_forall in Hc. rewrite Forall_forall in Hw.
  rewrite Forall_forall in Ht.
  assert (Hall : Forall (fun w => completes (overloaded w) = true) workers).
  { apply Forall_forall. intros w Hin. destruct (Hw w Hin) as [_ Hslots].
    unfold overloaded. by destruct (AvailableSlots w). }
  destruct (validateAll_report ids clients workers tasks Hall)
    as (errors & Hrun & Hsays).
  exists errors. split; [done |].
  assert (Hreport : Forall noShapeMessage (map content errors)).
  { rewrite Hsays, crossReport_rows, capacityReport_rows.
    repeat (apply Forall_app; split).
    - apply rows_Forall_in. intros seen c i Hin.
      by apply clientRow_noShape, Hc.
    - apply rows_Forall_in. intros seen w i Hin.
      by apply workerRow_noShape; apply Hw.
    - apply rows_Forall_in. intros seen t i Hin.
      by apply taskRow_noShape; apply Ht.
    - apply indexed_Forall. intros; apply referenceRow_noShape.
    - apply indexed_Forall. intros; apply skillRow_noShape.
    - apply Forall_forall. intros f Hf.
      apply list_elem_of_In, in_flat_map in Hf as (entry & _ & Hf).
      pose proof (phaseRow_noShape (fold_left supplyOfWorker workers []) entry)
        as Hrow.
      rewrite Forall_forall in Hrow. by apply Hrow, list_elem_of_In. }
  rewrite Forall_forall in Hreport. apply Forall_forall. intros e He.
  apply (Hreport (content e)), list_elem_of_fmap. eauto.
Qed.

Lemma ingested_data_validate_witness :
  exists errors,
    validateAll no_ids
      [ {| ClientID := "C1"; ClientName := ""; PriorityLevel := Int 1;
           RequestedTaskIDs := Arr []; GroupTag := "";
           AttributesJSON := VStr "" |} ] [] [] = Ok errors /\
    Forall (fun e => message e ∉ shapeMessages) errors.
Proof.
  apply (ingested_data_validate no_ids [ {[ "ClientID" := VStr "C1" ]} ] [] []);
    reflexivity.
Defined.

Lemma elem_of_given (f g : finding) cond :
  f ∈ given cond g <-> cond = true /\ f = g.
Proof.
  destruct cond; simpl.
  - rewrite list_elem_of_singleton. tauto.
  - split; [by intros ?%elem_of_nil | by intros []].
Qed.

Lemma validateTask_row ids seen t i :
  map content (validateTask ids seen t i []) = taskRow seen t i.
Proof. by rewrite validateTask_content, validateTask_report. Qed.

Lemma validateClient_row ids seen c i :
  map content (validateClient ids seen c i []) = clientRow seen c i.
Proof. by rewrite validateClient_content, validateClient_report. Qed.

Lemma elem_of_given_same (f : finding) cond :
  f ∈ given cond f <-> cond = true.
Proof. rewrite elem_of_given. tauto. Qed.

Lemma other_message (f g : finding) :
  String.eqb (finding_message f) (finding_message g) = false -> f <> g.
Proof. intros Hne ->. by rewrite String.eqb_refl in Hne. Qed.

Lemma not_in_given (f g : finding) cond :
  String.eqb (finding_message f) (finding_message g) = false ->
  f ∉ given cond g.
Proof.
  intros Hne. rewrite elem_of_given. intros [_ Heq].
  by apply (other_message f g).
Qed.

Lemma not_in_single (f g : finding) :
  String.eqb (finding_message f) (finding_message g) = false -> f ∉ [g].
Proof.
  intros Hne. rewrite list_elem_of_singleton. by apply other_message.
Qed.

Lemma not_in_app (f : finding) (l1 l2 : list finding) :
  f ∉ l1 -> f ∉ l2 -> f ∉ l1 ++ l2.
Proof. rewrite elem_of_app. tauto. Qed.

Lemma in_row_skip (f : finding) (l1 l2 : list finding) (P : Prop) :
  f ∉ l1 -> (f ∈ l2 <-> P) -> (f ∈ l1 ++ l2 <-> P).
Proof. rewrite elem_of_app. tauto. Qed.

Lemma in_row_here (f : finding) cond (l : list finding) :
  f ∉ l -> (f ∈ given cond f ++ l <-> cond = true).
Proof. rewrite elem_of_app, elem_of_given. tauto. Qed.


Lemma in_row_single (f : finding) : f ∈ [f] <-> True.
Proof. rewrite list_elem_of_singleton. tauto. Qed.

(** Membership in a row of checks, one check after the other. *)
Ltac other := vm_compute; reflexivity.

Ltac not_in_row :=
  repeat first
    [ apply not_in_app
    | apply not_in_given; other
    | apply not_in_single; other
    | apply not_elem_of_nil ].

Ltac in_row :=
  repeat (apply in_row_skip; [solve [not_in_row] |]);
  first [ apply in_row_here; solve [not_in_row]
        | apply elem_of_given_same
        | apply in_row_single ].

(** X8.  In the row of an ingested task, the check of the duration fails
    exactly when the cell parses to a negative number or to an infinity,
    which is what [parseInt] gives for digits too many for a number: a
    cell that does not parse and a cell that parses to 0 have become 1 and
    pass. *)
Theorem ingested_duration_check (ids : nat -> string) (seen : gset string)
    (r : row) (t : Task) (i : nat) (cell : string) :
  transformTask r = Ok t ->
  getValue r ["Duration"; "duration"] = Ok cell ->
  (error, "Duration must be a positive integer", Some "Duration", Some i, task)
    ∈ map content (validateTask ids seen t i []) <->
  num_lt (parseInt cell) (Int 0) = true \/
  exists b, parseInt cell = Infinity b.
Proof.
  intros Ht Hcell. rewrite validateTask_row.
  apply transformTask_inv in Ht.
  destruct Ht as (? & ? & ? & cell' & ? & ? & ? & _ & _ & _ & Hd & _ & _ & _
                  & ? & phases & _ & _ & ->).
  rewrite Hcell in Hd. injection Hd as <-.
  unfold taskRow. simpl.
  assert (Hcond :
    negb (isInteger (num_or (parseInt cell) (Int 1)))
    || num_lt (num_or (parseInt cell) (Int 1)) (Int 1) = true <->
    num_lt (parseInt cell) (Int 0) = true \/
    exists b, parseInt cell = Infinity b).
  { destruct (parseInt_integer cell) as [-> | [(z & ->) | (b & ->)]].
    - split; [done | by intros [? | [? ?]]].
    - assert (Hz :
        negb (isInteger (num_or (Int z) (Int 1)))
        || num_lt (num_or (Int z) (Int 1)) (Int 1) = num_lt (Int z) (Int 0)).
      { destruct z as [| p | p]; try done; unfold num_or, num_lt, pow10; simpl;
          change (10 ^ Z.of_nat 0) with 1;
          repeat match goal with
                 | |- context [?a <? ?b] => destruct (Z.ltb_spec a b)
                 end; simpl; try done; lia. }
      rewrite Hz. split; [by left | by intros [? | [? ?]]].
    - split; [intros _; right; by exists b | done]. }
  etrans; [| exact Hcond].
  destruct phases as [| []]; in_row.
Qed.

Lemma ingested_duration_check_witness :
  (error, "Duration must be a positive integer", Some "Duration", Some 0%nat,
   task)
    ∈ map content
        (validateTask no_ids ∅
           {| TaskID := ""; TaskName := ""; Category := "";
              Duration := Int (-3); RequiredSkills := Arr [];
              PreferredPhases := Arr []; MaxConcurrent := Int 1 |} 0 []).
Proof.
  assert (Ht : transformTask {[ "Duration" := VStr "-3" ]} =
               Ok {| TaskID := ""; TaskName := ""; Category := "";
                     Duration := Int (-3); RequiredSkills := Arr [];
                     PreferredPhases := Arr []; MaxConcurrent := Int 1 |})
    by (vm_compute; reflexivity).
  assert (Hcell : getValue ({[ "Duration" := VStr "-3" ]} : row)
                    ["Duration"; "duration"] = Ok "-3")
    by (vm_compute; reflexivity).
  apply (proj2 (ingested_duration_check no_ids ∅ _ _ 0%nat "-3" Ht Hcell)).
  left. vm_compute. reflexivity.
Defined.

(** X9.  In the row of an ingested client, the check of the attributes fails
    exactly when the cell of the attributes is not a JSON text; a row with
    no cell for the attributes has the empty string there, which is not a
    JSON text, and fails the check. *)
Theorem ingested_attributes_check (ids : nat -> string) (seen : gset string)
    (r : row) (c : Client) (i : nat) :
  transformClient r = Ok c ->
  let reported :=
    (error, "Invalid JSON in AttributesJSON", Some "AttributesJSON", Some i,
     client) ∈ map content (validateClient ids seen c i []) in
  (forall cell,
     getValue r ["AttributesJSON"; "attributes_json"; "attributes"] = Ok cell ->
     reported <-> completes (JSON_parse cell) = false) /\
  ((forall key, key ∈ ["AttributesJSON"; "attributes_json"; "attributes"] ->
                r !! key = None) ->
   reported).
Proof.
  intros Hc reported. subst reported. rewrite validateClient_row.
  apply transformClient_inv in Hc.
  destruct Hc as (? & ? & ? & ? & ? & cell & _ & _ & _ & _ & _ & Ha
                  & requested & _ & ->).
  assert (Hin :
    (error, "Invalid JSON in AttributesJSON", Some "AttributesJSON", Some i,
     client) ∈ clientRow seen
       {| ClientID := x; ClientName := x0;
          PriorityLevel := num_or (parseInt x1) (Int 1);
          RequestedTaskIDs := Arr requested; GroupTag := x3;
          AttributesJSON := VStr cell |} i <->
    completes (JSON_parse cell) = false).
  { unfold clientRow. simpl. rewrite <- negb_true_iff. in_row. }
  split.
  - intros cell' Hcell. rewrite Hcell in Ha. by injection Ha as <-.
  - intros Hnone. apply Hin.
    assert (Hcell :
      getValue r ["AttributesJSON"; "attributes_json"; "attributes"] = Ok "").
    { simpl. by rewrite !Hnone by (repeat constructor). }
    rewrite Hcell in Ha. by injection Ha as <-.
Qed.

Lemma ingested_attributes_check_witness :
  (error, "Invalid JSON in AttributesJSON", Some "AttributesJSON", Some 0%nat,
   client)
    ∈ map content
        (validateClient no_ids ∅
           {| ClientID := "C1"; ClientName := ""; PriorityLevel := Int 1;
              RequestedTaskIDs := Arr []; GroupTag := "";
              AttributesJSON := VStr "" |} 0 []).
Proof.
  assert (Hc : transformClient {[ "ClientID" := VStr "C1" ]} =
               Ok {| ClientID := "C1"; ClientName := ""; PriorityLevel := Int 1;
                     RequestedTaskIDs := Arr []; GroupTag := "";
                     AttributesJSON := VStr "" |})
    by (vm_compute; reflexivity).
  apply (proj2 (ingested_attributes_check no_ids ∅ _ _ 0%nat Hc)).
  intros key Hkey. apply lookup_singleton_None.
  repeat (apply elem_of_cons in Hkey as [-> | Hkey]; [done |]).
  by apply elem_of_nil in Hkey.
Defined.



(** ** The reader of a file *)


Lemma split_chars_cons sep (l : list ascii) :
  exists piece pieces, split_chars sep l = piece :: pieces.
Proof.
  induction l as [|c l (piece & pieces & IH)]; simpl; [eauto |].
  destruct (Ascii.eqb c sep); [eauto |]. rewrite IH. eauto.
Qed.

Lemma split_chars_none sep (l : list ascii) :
  existsb (Ascii.eqb sep) l = false -> split_chars sep l = [l].
Proof.
  induction l as [|c l IH]; simpl; [done |].
  intros [Hc Hl]%orb_false_elim. rewrite Ascii.eqb_sym, Hc.
  by rewrite (IH Hl).
Qed.

Lemma split_chars_app sep (a b : list ascii) :
  existsb (Ascii.eqb sep) a = false ->
  split_chars sep (a ++ sep :: b) = a :: split_chars sep b.
Proof.
  induction a as [|c a IH]; simpl.
  - intros _. by rewrite Ascii.eqb_refl.
  - intros [Hc Ha]%orb_false_elim. rewrite Ascii.eqb_sym, Hc.
    by rewrite (IH Ha).
Qed.

Lemma split_chars_prefix sep (a b : list ascii) :
  exists first more,
    split_chars sep (a ++ sep :: b) = (first :: more) ++ split_chars sep b.
Proof.
  induction a as [|c a (first & more & IH)]; simpl.
  - rewrite Ascii.eqb_refl. by exists [], [].
  - destruct (Ascii.eqb c sep).
    + rewrite IH. by exists [], (first :: more).
    + rewrite IH. simpl. by exists (c :: first), more.
Qed.

Lemma last_app_cons {A} (l1 l2 : list A) (d : A) :
  l2 <> [] -> List.last (l1 ++ l2) d = List.last l2 d.
Proof.
  intros Hne. induction l1 as [|x l1 IH]; simpl; [done |].
  rewrite IH. destruct (l1 ++ l2) eqn:Happ; [| done].
  by apply app_eq_nil in Happ as [_ ->].
Qed.

Lemma split_chars_last sep (a b : list ascii) :
  List.last (split_chars sep (a ++ sep :: b)) [] =
  List.last (split_chars sep b) [].
Proof.
  destruct (split_chars_prefix sep a b) as (first & more & ->).
  apply last_app_cons.
  by destruct (split_chars_cons sep b) as (piece & pieces & ->).
Qed.

Lemma last_map_str (l : list (list ascii)) :
  List.last (map str l) "" = str (List.last l []).
Proof.
  induction l as [|x l IH]; simpl; [done |].
  destruct l; [done |]. exact IH.
Qed.

(** X11.  The reader of a file depends on the part of its name after the last
    dot, read without regard to the case of the letters; a name without a
    dot is this part as a whole. *)
Theorem parseFile_extension (base ext : string) :
  includes "." ext = false ->
  extension (base +:+ "." +:+ ext) = toLowerCase ext /\
  extension ext = toLowerCase ext /\
  parseFile (base +:+ "." +:+ ext) = parseFile ext.
Proof.
  unfold includes. intros Hext.
  assert (Hone : extension ext = toLowerCase ext).
  { unfold extension, split. rewrite (split_chars_none _ _ Hext). simpl.
    by rewrite str_chars. }
  assert (Hlast : extension (base +:+ "." +:+ ext) = toLowerCase ext).
  { rewrite <- Hone. unfold extension, split. rewrite !last_map_str.
    rewrite !chars_app. change (chars ".") with ["."%char]. simpl app.
    by rewrite split_chars_last. }
  split; [done |]. split; [done |].
  unfold parseFile. by rewrite Hlast, Hone.
Qed.

Lemma parseFile_extension_witness :
  extension "report.final.CSV" = "csv" /\
  extension "CSV" = "csv" /\
  parseFile "report.final.CSV" = parseFile "CSV".
Proof. apply (parseFile_extension "report.final" "CSV"). reflexivity. Defined.

(** ** The pieces of a comma-separated cell *)







(** ** Rows of scalar cells *)

Ltac scalar_cells Hr :=
  repeat match goal with
         | |- context [getValue ?r ?keys] =>
             let s := fresh "cell" in
             let H := fresh "Hcell" in
             destruct (getValue_scalar r keys Hr) as (s & H); rewrite H;
             change (Ok s ≫= ?k) with (k s); cbv beta
         | |- context [parseArray ?x] =>
             rewrite (parseArray_unfold x);
             change (Ok ?a ≫= ?k) with (k a); cbv beta
         | |- context [parseNumberArray ?x] =>
             rewrite (parseNumberArray_unfold x);
             change (Ok ?a ≫= ?k) with (k a); cbv beta
         | |- context [parsePhases ?x] =>
             rewrite (parsePhases_unfold x);
             change (Ok ?a ≫= ?k) with (k a); cbv beta
         end.

Lemma transformClient_scalar r :
  map_Forall (fun _ v => scalar v = true) r -> exists c, transformClient r = Ok c.
Proof. intros Hr. unfold transformClient. scalar_cells Hr. eauto. Qed.

Lemma transformWorker_scalar r :
  map_Forall (fun _ v => scalar v = true) r -> exists w, transformWorker r = Ok w.
Proof. intros Hr. unfold transformWorker. scalar_cells Hr. eauto. Qed.

Lemma transformTask_scalar r :
  map_Forall (fun _ v => scalar v = true) r -> exists t, transformTask r = Ok t.
Proof. intros Hr. unfold transformTask. scalar_cells Hr. eauto. Qed.

(** X13.  Over rows whose cells are strings, numbers, booleans or nothing,
    [transformData] does not throw, whatever the cells hold: it gives one
    entity of the asked type for each row. *)
Theorem transformData_scalar (data : list row) (entityType : entity_tag) :
  Forall (map_Forall (fun _ v => scalar v = true)) data ->
  exists entities,
    transformData data entityType = Ok entities /\
    length entities = length data /\
    Forall (fun e => tagOf e = entityType) entities.
Proof.
  unfold transformData. induction 1 as [|r data Hr _ IH]; simpl.
  - exists []. by repeat split.
  - destruct IH as (entities & -> & Hlen & Htags).
    destruct entityType.
    + destruct (transformClient_scalar r Hr) as (c & ->). simpl.
      exists (EClient c :: entities). repeat split; simpl; [lia | by constructor].
    + destruct (transformWorker_scalar r Hr) as (w & ->). simpl.
      exists (EWorker w :: entities). repeat split; simpl; [lia | by constructor].
    + destruct (transformTask_scalar r Hr) as (t & ->). simpl.
      exists (ETask t :: entities). repeat split; simpl; [lia | by constructor].
Qed.

Lemma transformData_scalar_witness :
  exists entities,
    transformData [ {[ "WorkerID" := VStr "W1" ]}; ∅ ] worker = Ok entities /\
    length entities = 2%nat /\
    Forall (fun e => tagOf e = worker) entities.
Proof.
  apply (transformData_scalar [ {[ "WorkerID" := VStr "W1" ]}; ∅ ] worker).
  repeat constructor.
  - by apply map_Forall_singleton.
  - apply map_Forall_empty.
Defined.

(** ** Header mapping *)

Lemma find_spec {A} (p : A -> bool) (l : list A) (x : A) :
  List.find p l = Some x -> x ∈ l /\ p x = true.
Proof.
  intros H. apply find_some in H as [Hin Hp]. by apply list_elem_of_In in Hin.
Qed.

Lemma find_exists {A} (p : A -> bool) (l : list A) (x : A) :
  x ∈ l -> p x = true -> exists y, List.find p l = Some y.
Proof.
  intros Hin Hp. destruct (List.find p l) as [y |] eqn:Hfind; [eauto |].
  apply list_elem_of_In in Hin.
  by rewrite (find_none _ _ Hfind x Hin) in Hp.
Qed.

Lemma before_hole_elem headers header :
  header ∈ before_hole headers -> Some header ∈ headers.
Proof.
  induction headers as [|[h |] headers IH]; simpl; [by intros ?%elem_of_nil | |
    by intros ?%elem_of_nil].
  intros [-> | Hin]%elem_of_cons; [left | right; by apply IH].
Qed.

Lemma before_hole_all headers :
  None ∉ headers -> headers = map Some (before_hole headers).
Proof.
  induction headers as [|[h |] headers IH]; simpl; intros Hno; [done | |].
  - f_equal. apply IH. intros Hin. apply Hno. by right.
  - exfalso. apply Hno. left.
Qed.

(** [find] gives the first match before the first hole; without one it
    throws at the hole, and gives nothing when there is no hole. *)
Lemma find_header_spec expected headers :
  find_header expected headers =
    match List.find
            (fun header => String.eqb (stripped header) (stripped expected))
            (before_hole headers) with
    | Some found => Ok (Some found)
    | None => if bool_decide (None ∈ headers) then Throw TypeError else Ok None
    end.
Proof.
  induction headers as [|[h |] headers IH]; simpl.
  - done.
  - destruct (String.eqb (stripped h) (stripped expected)); [done |].
    rewrite IH. destruct (List.find _ _); [done |].
    destruct (decide (None ∈ headers)) as [Hin | Hno].
    + rewrite !bool_decide_true; [done | by right | done].
    + rewrite !bool_decide_false; [done | | done].
      intros [Heq | Hin]%elem_of_cons; [done | by apply Hno].
  - done.
Qed.

Lemma map_exc_Forall2 {A B} (f : A -> exc B) (l : list A) (bs : list B) :
  map_exc f l = Ok bs -> Forall2 (fun a b => f a = Ok b) l bs.
Proof.
  revert bs. induction l as [|a l IH]; simpl; intros bs.
  - intros [= <-]. constructor.
  - destruct (f a) as [b |] eqn:Hb; [| done].
    destruct (map_exc f l) as [bs' |]; [| done].
    intros [= <-]. constructor; [done | by apply IH].
Qed.

Lemma map_exc_returns {A B} (f : A -> exc B) (l : list A) :
  (forall a, a ∈ l -> exists b, f a = Ok b) -> exists bs, map_exc f l = Ok bs.
Proof.
  induction l as [|a l IH]; simpl; intros Hall; [by eexists |].
  destruct (Hall a) as (b & ->); [left |].
  destruct IH as (bs & ->); [| by eexists].
  intros a' Ha'. apply Hall. by right.
Qed.

Lemma createFallbackMapping_entries headers entityType m :
  createFallbackMapping headers entityType = Ok m ->
  m = flat_map
        (fun expected =>
           match List.find
                   (fun header => String.eqb (stripped header) (stripped expected))
                   (before_hole headers) with
           | Some found => if falsy found then [] else [(expected, found)]
           | None => []
           end)
        (getExpectedHeaders entityType) /\
  forall expected, expected ∈ getExpectedHeaders entityType ->
    find_header expected headers <> Throw TypeError.
Proof.
  unfold createFallbackMapping.
  destruct (map_exc _ (getExpectedHeaders entityType)) as [entries |] eqn:Hmap;
    [| done].
  intros [= <-]. apply map_exc_Forall2 in Hmap.
  induction Hmap as [|expected entry expecteds entries Hentry _ IH]; simpl.
  - split; [done |]. by intros expected ?%elem_of_nil.
  - destruct IH as [-> IH]. split.
    + f_equal. rewrite find_header_spec in Hentry.
      destruct (List.find _ (before_hole headers)) as [found |].
      * by injection Hentry as <-.
      * destruct (bool_decide (None ∈ headers)); [done |].
        by injection Hentry as <-.
    + intros e [-> | He]%elem_of_cons; [| by apply IH].
      by destruct (find_header expected headers).
Qed.

Lemma createFallbackMapping_elem headers entityType m expected found :
  createFallbackMapping headers entityType = Ok m ->
  (expected, found) ∈ m <->
  expected ∈ getExpectedHeaders entityType /\
  List.find (fun header => String.eqb (stripped header) (stripped expected))
    (before_hole headers) = Some found /\
  found <> "".
Proof.
  intros [-> _]%createFallbackMapping_entries.
  rewrite list_elem_of_In, in_flat_map. split.
  - intros (e & He & Hin). apply list_elem_of_In in He.
    destruct (List.find _ (before_hole headers)) as [f |] eqn:Hfind; [| done].
    destruct (falsy f) eqn:Hf; [done |].
    destruct Hin as [[= <- <-] | []]. by apply falsy_false in Hf.
  - intros (He & Hfind & Hne). exists expected.
    split; [by apply list_elem_of_In |]. rewrite Hfind.
    apply falsy_false in Hne. rewrite Hne. by left.
Qed.

Lemma stripped_expected entityType :
  Forall (fun expected => stripped expected <> "")
    (getExpectedHeaders entityType) /\
  NoDup (map stripped (getExpectedHeaders entityType)).
Proof.
  split.
  - destruct entityType; repeat constructor; by vm_compute.
  - destruct entityType; apply (bool_decide_unpack _); by vm_compute.
Qed.

Lemma mapping_keys (P : string -> option string) (l : list string) :
  NoDup l ->
  NoDup (map fst
           (flat_map
              (fun expected =>
                 match P expected with
                 | Some found => if falsy found then [] else [(expected, found)]
                 | None => []
                 end) l)).
Proof.
  induction 1 as [|e l Hnot _ IH]; simpl; [constructor |].
  rewrite map_app. apply NoDup_app. split; [| split; [| done]].
  - destruct (P e) as [f |]; [| constructor].
    destruct (falsy f); repeat constructor. by intros ?%elem_of_nil.
  - intros k Hk (p & -> & Hp)%list_elem_of_fmap.
    apply list_elem_of_In, in_flat_map in Hp as (e' & He' & Hp).
    apply list_elem_of_In in He'.
    destruct (P e) as [f |]; [| by apply elem_of_nil in Hk].
    destruct (falsy f); [by apply elem_of_nil in Hk |].
    apply list_elem_of_singleton in Hk. simpl in Hk.
    destruct (P e') as [f' |]; [| done].
    destruct (falsy f'); [done |]. destruct Hp as [<- | []].
    simpl in Hk. by subst.
Qed.

(** X14.  The fallback mapping of a header array, which has holes when it
    comes from a sheet.  It ends with a TypeError, and with no other
    exception, exactly when the array has a hole and some expected header
    has no provided header before the first hole that is the same up to
    the case of the letters, underscores and white space.  When it returns,
    it gives an expected header only a provided header that is the same in
    this sense, gives one to every expected header for which such a
    provided header exists, never gives one provided header to two expected
    headers, and has at most one entry for an expected header. *)
Theorem createFallbackMapping_spec (headers : list (option string))
    (entityType : entity_tag) :
  (forall e, createFallbackMapping headers entityType = Throw e <->
     e = TypeError /\ None ∈ headers /\
     exists expected, expected ∈ getExpectedHeaders entityType /\
       Forall (fun header => stripped header <> stripped expected)
         (before_hole headers)) /\
  (forall m, createFallbackMapping headers entityType = Ok m ->
     (forall expected found,
        (expected, found) ∈ m ->
        expected ∈ getExpectedHeaders entityType /\ Some found ∈ headers /\
        stripped found = stripped expected) /\
     (forall expected header,
        expected ∈ getExpectedHeaders entityType -> Some header ∈ headers ->
        stripped header = stripped expected ->
        exists found, (expected, found) ∈ m) /\
     (forall expected1 expected2 found,
        (expected1, found) ∈ m -> (expected2, found) ∈ m ->
        expected1 = expected2) /\
     NoDup (map fst m)).
Proof.
  destruct (stripped_expected entityType) as [Hnonempty Hdistinct].
  split.
  - intros e. split.
    + intros Hthrow. unfold createFallbackMapping in Hthrow.
      destruct (map_exc _ (getExpectedHeaders entityType)) as [| e'] eqn:Hmap;
        [done |].
      injection Hthrow as ->.
      apply map_exc_throws in Hmap as (expected & He & Hfind).
      rewrite find_header_spec in Hfind.
      destruct (List.find _ (before_hole headers)) as [found |] eqn:Hnone;
        [done |].
      destruct (bool_decide (None ∈ headers)) eqn:Hhole; [| done].
      apply bool_decide_eq_true in Hhole. injection Hfind as <-.
      split; [done |]. split; [done |]. exists expected. split; [done |].
      apply Forall_forall. intros header Hin%list_elem_of_In Heq.
      apply (find_none _ _ Hnone) in Hin. by apply String.eqb_neq in Hin.
    + intros (-> & Hhole & expected & He & Hnone).
      destruct (createFallbackMapping headers entityType) as [m | e] eqn:Hrun.
      * exfalso. apply createFallbackMapping_entries in Hrun as [_ Hfind].
        apply (Hfind expected He). rewrite find_header_spec.
        destruct (List.find _ (before_hole headers)) as [found |] eqn:Hfound.
        -- apply find_spec in Hfound as [Hin Heq%String.eqb_eq].
           rewrite Forall_forall in Hnone. by destruct (Hnone found Hin).
        -- by rewrite bool_decide_true.
      * f_equal. unfold createFallbackMapping in Hrun.
        destruct (map_exc _ (getExpectedHeaders entityType)) as [| e'] eqn:Hmap;
          [done |].
        injection Hrun as <-.
        apply map_exc_throws in Hmap as (expected' & _ & Hfind).
        rewrite find_header_spec in Hfind.
        destruct (List.find _ (before_hole headers)); [done |].
        destruct (bool_decide (None ∈ headers)); [| done]. by injection Hfind.
  - intros m Hrun.
    assert (Hsound : forall expected found,
      (expected, found) ∈ m ->
      expected ∈ getExpectedHeaders entityType /\ Some found ∈ headers /\
      stripped found = stripped expected).
    { intros expected found
        (He & Hfind & _)%(createFallbackMapping_elem _ _ _ _ _ Hrun).
      apply find_spec in Hfind as [Hin Heq].
      split; [done |]. split; [by apply before_hole_elem |].
      by apply String.eqb_eq in Heq. }
    split; [done |]. split; [| split].
    + intros expected header He Hin Heq.
      pose proof (createFallbackMapping_entries _ _ _ Hrun) as [_ Hfind].
      specialize (Hfind expected He). rewrite find_header_spec in Hfind.
      destruct (List.find _ (before_hole headers)) as [found |] eqn:Hfound.
      * exists found. apply (createFallbackMapping_elem _ _ _ _ _ Hrun).
        split; [done |]. split; [done |].
        apply find_spec in Hfound as [_ Hf%String.eqb_eq]. intros ->.
        rewrite Forall_forall in Hnonempty. by apply (Hnonempty expected He).
      * destruct (decide (None ∈ headers)) as [Hhole | Hno].
        -- by rewrite bool_decide_true in Hfind.
        -- exfalso. rewrite (before_hole_all headers Hno) in Hin.
           apply list_elem_of_fmap in Hin as (h & [= <-] & Hin).
           apply list_elem_of_In in Hin.
           apply (find_none _ _ Hfound) in Hin.
           by apply String.eqb_neq in Hin.
    + intros e1 e2 found (He1 & _ & H1)%Hsound (He2 & _ & H2)%Hsound.
      rewrite H1 in H2. clear H1.
      apply list_elem_of_lookup in He1 as (i & Hi).
      apply list_elem_of_lookup in He2 as (j & Hj).
      assert (i = j) as ->.
      { apply (NoDup_lookup _ i j (stripped e1) Hdistinct).
        - by rewrite list_lookup_fmap, Hi.
        - by rewrite list_lookup_fmap, Hj, H2. }
      congruence.
    + apply createFallbackMapping_entries in Hrun as [-> _].
      apply NoDup_fmap_1 in Hdistinct. by apply mapping_keys.
Qed.

Lemma createFallbackMapping_spec_witness :
  (exists m,
     createFallbackMapping [Some "Worker ID"; Some "Available_Slots"] task =
       Ok m /\
     NoDup (map fst m)) /\
  createFallbackMapping [Some "Worker ID"; None; Some "Available_Slots"] worker =
    Throw TypeError.
Proof.
  split.
  - destruct (createFallbackMapping [Some "Worker ID"; Some "Available_Slots"]
                task) as [m | e] eqn:Hrun; [| by vm_compute in Hrun].
    exists m. split; [done |].
    apply (proj2 (createFallbackMapping_spec
                    [Some "Worker ID"; Some "Available_Slots"] task) m Hrun).
  - apply (proj1 (createFallbackMapping_spec
                    [Some "Worker ID"; None; Some "Available_Slots"] worker)
             TypeError).
    split; [done |]. split; [right; left |].
    exists "WorkerName". split; [right; left |].
    repeat constructor; by vm_compute.
Defined.





(** ** Editing a list *)

Lemma drop_spaces_app_spaces (p l : list ascii) :
  forallb is_space p = true -> drop_spaces (p ++ l) = drop_spaces l.
Proof.
  induction p as [|c p IH]; simpl; [done |].
  intros [Hc Hp]%andb_prop. rewrite Hc. by apply IH.
Qed.

Lemma trim_chars_app_spaces (p l : list ascii) :
  forallb is_space p = true -> trim_chars (p ++ l) = trim_chars l.
Proof. intros Hp. unfold trim_chars. by rewrite drop_spaces_app_spaces. Qed.

Lemma existsb_app_false {A} (p : A -> bool) (l1 l2 : list A) :
  existsb p l1 = false -> existsb p l2 = false -> existsb p (l1 ++ l2) = false.
Proof. intros H1 H2. by rewrite existsb_app, H1, H2. Qed.

(** The pieces of the text of a list, joined with a comma and a space. *)
Lemma split_join (spaces : list ascii) (item : string) (items : list string) :
  forallb is_space spaces = true ->
  existsb (Ascii.eqb ",") spaces = false ->
  Forall piece (item :: items) ->
  map (fun l => str (trim_chars l))
    (split_chars "," (spaces ++ chars (join ", " (item :: items)))) =
  item :: items.
Proof.
  intros Hspaces Hnone Hall. revert spaces item Hspaces Hnone Hall.
  induction items as [|next items IH]; intros spaces item Hspaces Hnone Hall.
  - apply Forall_cons in Hall as [(_ & Htrim & Hcomma) _]. simpl.
    rewrite split_chars_none by by apply existsb_app_false.
    simpl. rewrite trim_chars_app_spaces by done.
    by fold (trim item); rewrite Htrim.
  - apply Forall_cons in Hall as [(_ & Htrim & Hcomma) Hall].
    change (join ", " (item :: next :: items))
      with (item +:+ ", " +:+ join ", " (next :: items)).
    rewrite !chars_app. change (chars ", ") with [","%char; " "%char].
    rewrite app_assoc. simpl app.
    rewrite split_chars_app by by apply existsb_app_false.
    simpl. rewrite trim_chars_app_spaces by done.
    fold (trim item). rewrite Htrim. f_equal.
    by apply (IH [" "%char] next).
Qed.

Lemma pieces_kept (items : list string) :
  Forall piece items ->
  List.filter (fun s => Nat.ltb 0 (String.length s)) items = items.
Proof.
  induction 1 as [|item items (Hne & _) _ IH]; simpl; [done |].
  destruct item; [done |]. simpl. by rewrite IH.
Qed.

(** X16.  A list of strings survives an edit without a change: when every
    string of the list is not empty, has no white space around it and no
    comma, the text that the editor shows for the list is stored as the
    same list. *)
Theorem edit_list_round_trip (col : string) (items : list string) :
  col ∈ ["RequestedTaskIDs"; "Skills"; "RequiredSkills"] ->
  Forall piece items ->
  exists text,
    startEditing (VArr (map VStr items)) = Ok text /\
    saveEdit col text = VArr (map VStr items).
Proof.
  intros Hcol Hitems. exists (join ", " items).
  assert (Hstart : startEditing (VArr (map VStr items)) = Ok (join ", " items)).
  { unfold startEditing, join_values.
    assert (Hmap : map_exc
      (fun x => match x with VUndefined | VNull => Ok "" | _ => to_string x end)
      (map VStr items) = Ok items).
    { clear. induction items as [|item items IH]; simpl; [done |].
      by rewrite IH. }
    by rewrite Hmap. }
  split; [done |].
  assert (Hsave : saveEdit col (join ", " items) =
    VArr (map VStr
            (List.filter (fun s => Nat.ltb 0 (String.length s))
               (map trim (split "," (join ", " items)))))).
  { unfold saveEdit.
    repeat (apply elem_of_cons in Hcol as [-> | Hcol]; [done |]).
    by apply elem_of_nil in Hcol. }
  rewrite Hsave. do 2 f_equal.
  destruct items as [|item items]; [done |].
  unfold split. rewrite map_map.
  pose proof (split_join [] item items eq_refl eq_refl Hitems) as Hsplit.
  simpl app in Hsplit.
  assert (Hpieces :
    map (fun x => trim (str x)) (split_chars "," (chars (join ", " (item :: items))))
    = item :: items).
  { rewrite <- Hsplit at 2. apply map_ext. intros l. unfold trim.
    by rewrite chars_str. }
  rewrite Hpieces. by apply pieces_kept.
Qed.

Lemma edit_list_round_trip_witness :
  exists text,
    startEditing (VArr [VStr "welding"; VStr "gas fitting"]) = Ok text /\
    saveEdit "Skills" text = VArr [VStr "welding"; VStr "gas fitting"].
Proof.
  apply (edit_list_round_trip "Skills" ["welding"; "gas fitting"]).
  - apply list_elem_of_In. simpl. tauto.
  - repeat constructor; try discriminate.
Defined.

(** ** The texts that [JSON.parse] reads as an array *)

Lemma lex_inside (st : lex_state) (l : list ascii) (toks : list token) :
  inside st = true -> lex st l = Some toks -> opens_array toks = false.
Proof.
  revert st toks. induction l as [|c l IH]; intros st toks Hst; simpl.
  - destruct st; try done.
    + destruct (json_number (rev acc)); [| done]. by intros [= <-].
    + unfold json_word. destruct (String.eqb _ "true"); [by intros [= <-] |].
      destruct (String.eqb _ "false"); [by intros [= <-] |].
      destruct (String.eqb _ "null"); [by intros [= <-] | done].
  - destruct (lex_step st c) as [[toks1 st'] |] eqn:Hstep; [| done].
    destruct (lex st' l) as [toks2 |] eqn:Hrest; [| done].
    intros [= <-].
    assert (Hcases : (toks1 = [] /\ inside st' = true) \/
                     (exists t ts, toks1 = t :: ts /\ t <> TLBracket)).
    { destruct st; try done; simpl in Hstep.
      - destruct (Ascii.eqb c quote); [injection Hstep as <- <-; right; by eauto |].
        destruct (Ascii.eqb c "\"); [injection Hstep as <- <-; by left |].
        destruct (code c <? 32); [done |]. injection Hstep as <- <-. by left.
      - repeat match type of Hstep with
               | (if ?b then _ else _) = _ => destruct b
               end; try done; injection Hstep as <- <-; by left.
      - destruct (is_digit_in 16 c); [| done].
        destruct (Nat.eqb _ 4); injection Hstep as <- <-; by left.
      - destruct (is_number_char c); [injection Hstep as <- <-; by left |].
        destruct (json_number (rev acc)); [| done].
        destruct (lex_start c) as [[ts st''] |]; [| done].
        injection Hstep as <- <-. right. by eauto.
      - destruct (is_word_char c); [injection Hstep as <- <-; by left |].
        destruct (json_word (rev acc)) as [t |] eqn:Hword; [| done].
        destruct (lex_start c) as [[ts st''] |]; [| done].
        injection Hstep as <- <-. right. exists t, ts. split; [done |].
        unfold json_word in Hword.
        repeat match type of Hword with
               | (if ?b then _ else _) = _ => destruct b
               end; try done; by injection Hword as <-. }
    destruct Hcases as [[-> Hin] | (t & ts & -> & Ht)].
    + simpl. by apply (IH st').
    + simpl. by destruct t.
Qed.

Lemma lex_first (c : ascii) (rest : list ascii) (toks : list token) :
  is_json_space c = false -> Ascii.eqb c "[" = false ->
  lex LStart (c :: rest) = Some toks -> opens_array toks = false.
Proof.
  intros Hspace Hbracket. simpl. unfold lex_start. rewrite Hspace, Hbracket.
  repeat match goal with
         | |- context [if ?b then _ else _] => destruct b
         end; try done;
    (destruct (lex _ rest) as [toks' |] eqn:Hrest; [| done]);
    intros [= <-]; try done;
    simpl; refine (lex_inside _ _ _ _ Hrest); reflexivity.
Qed.

Lemma object_below_cons (f : frame) (stack : list frame) :
  object_below stack = true -> object_below (f :: stack) = true.
Proof. destruct stack; [done |]. by destruct f. Qed.

Lemma complete_below (v : value) (stack : list frame) :
  object_below stack = true -> reads_object (complete v stack) = true.
Proof.
  destruct stack as [|[acc | acc key] rest]; [done | |]; simpl.
  - by destruct rest.
  - destruct rest as [|f rest]; [done |]. by destruct f.
Qed.

Lemma complete_object (props : list (string * value)) (stack : list frame) :
  match stack with [] => true | _ => object_below stack end = true ->
  reads_object (complete (VObj props) stack) = true.
Proof. destruct stack; [done |]. apply complete_below. Qed.

Lemma parse_value_below (t : token) (stack : list frame) (st : parse_state) :
  object_below stack = true -> parse_value t stack = Some st ->
  reads_object st = true.
Proof.
  intros Hstack. destruct t; simpl; try done; intros [= <-];
    try by apply complete_below.
  - done.
  - simpl. by destruct stack.
Qed.

Lemma parse_step_object (st st' : parse_state) (t : token) :
  reads_object st = true -> parse_step st t = Some st' ->
  reads_object st' = true.
Proof.
  destruct st; simpl; intros Hst.
  - by apply parse_value_below.
  - destruct t; try done;
      try (intros H; apply parse_value_below in H; [done |];
           by apply object_below_cons).
    intros [= <-]. by apply complete_below.
  - destruct t; try done; intros [= <-].
    + by apply complete_below.
    + exact (object_below_cons (FArr acc) stack Hst).
  - destruct t; try done; intros [= <-]; [by apply complete_object | done].
  - destruct t; try done. by intros [= <-].
  - destruct t; try done. intros [= <-].
    destruct stack as [|f stack]; [done |].
    exact (object_below_cons (FObj acc key) (f :: stack) Hst).
  - destruct t; try done; intros [= <-]; [by apply complete_object | done].
  - done.
Qed.

Lemma parse_tokens_object (st : parse_state) (toks : list token) (v : value) :
  reads_object st = true -> parse_tokens st toks = Some v ->
  exists props, v = VObj props.
Proof.
  revert st. induction toks as [|t toks IH]; intros st Hst; simpl.
  - destruct st; try done. intros [= <-]. destruct v0; try done. eauto.
  - destruct (parse_step st t) as [st' |] eqn:Hstep; [| done].
    apply IH. by apply (parse_step_object st st' t).
Qed.

Lemma parse_tokens_array (toks : list token) (elems : list value) :
  parse_tokens (SValue []) toks = Some (VArr elems) -> opens_array toks = true.
Proof.
  destruct toks as [|t toks]; [done |]. simpl.
  destruct t; simpl; try done;
    try (destruct toks; simpl; [by intros [=] | done]).
  intros H. by apply parse_tokens_object in H as (props & ?).
Qed.

(** A text whose first character is neither white space nor an opening
    bracket is not read as an array. *)
Lemma JSON_parse_array (c : ascii) (rest : string) (elems : list value) :
  is_json_space c = false -> Ascii.eqb c "[" = false ->
  JSON_parse (String c rest) <> Ok (VArr elems).
Proof.
  intros Hspace Hbracket. unfold JSON_parse.
  destruct (lex LStart (chars (String c rest))) as [toks |] eqn:Hlex; [| done].
  apply lex_first in Hlex; [| done | done].
  destruct (parse_tokens (SValue []) toks) as [v |] eqn:Hparse; [| done].
  intros [= ->]. apply parse_tokens_array in Hparse. congruence.
Qed.

Lemma commaNumbers_whole (cell : string) :
  Forall whole (commaNumbers cell).
Proof.
  unfold commaNumbers. apply Forall_forall. intros n Hn.
  apply list_elem_of_In, filter_In in Hn as [Hin Hn].
  apply in_map_iff in Hin as (item & <- & _).
  by destruct (parseInt_integer (trim item)) as [H | [(z & H) | (b & H)]];
    rewrite H in *.
Qed.

(** X17.  A cell whose first character is neither white space nor an opening
    bracket is read as comma-separated pieces, never as a JSON array:
    [parseArray] gives its pieces that are not blank, without the white
    space around them, and [parseNumberArray] and [parsePhases] give the
    numbers that [parseInt] reads at the head of its pieces, integers or,
    for digits too many for a number, an infinity: no fraction and no
    [NaN] comes out of such a cell. *)
Theorem cell_without_bracket (c : ascii) (rest : string) :
  is_json_space c = false -> Ascii.eqb c "[" = false ->
  let cell := String c rest in
  parseArray cell =
    Ok (List.filter (fun item => Nat.ltb 0 (String.length item))
          (map trim (split "," cell))) /\
  parseNumberArray cell = Ok (commaNumbers cell) /\
  parsePhases cell =
    Ok (if matches_range cell then NotArr (OStr cell)
        else match commaNumbers cell with
             | [] => NotArr (OStr cell)
             | ns => Arr ns
             end) /\
  Forall whole (commaNumbers cell).
Proof.
  intros Hspace Hbracket cell.
  assert (Hstrings : jsonStrings cell = None).
  { unfold jsonStrings.
    destruct (JSON_parse cell) as [[] |] eqn:Hparse; try done.
    by destruct (JSON_parse_array c rest elems Hspace Hbracket). }
  assert (Hnumbers : jsonNumbers cell = None).
  { unfold jsonNumbers.
    destruct (JSON_parse cell) as [[] |] eqn:Hparse; try done.
    by destruct (JSON_parse_array c rest elems Hspace Hbracket). }
  rewrite parseArray_unfold, parseNumberArray_unfold, parsePhases_unfold.
  rewrite Hstrings, Hnumbers.
  repeat split; try done. apply commaNumbers_whole.
Qed.

Lemma cell_without_bracket_witness :
  parseNumberArray "1.5, 2, x" = Ok [Int 1; Int 2].
Proof.
  apply (proj1 (proj2 (cell_without_bracket "1" ".5, 2, x" eq_refl eq_refl))).
Defined.

(** ** Numerals *)

Lemma digit_in_digit (c : ascii) :
  is_digit c = true -> digit_in 10 c = Some (code c - 48).
Proof.
  unfold is_digit, digit_in. intros Hc. rewrite Hc.
  destruct (Z.ltb_spec (code c - 48) 10); [done | lia].
Qed.

Lemma is_digit_in_digit (c : ascii) : is_digit c = true -> is_digit_in 10 c = true.
Proof. intros Hc. unfold is_digit_in. by rewrite digit_in_digit. Qed.

Lemma span_decimal (l : list ascii) :
  forallb is_digit l = true -> span (is_digit_in 10) l = (l, []).
Proof.
  induction l as [|c l IH]; simpl; [done |].
  intros [Hc Hl]%andb_prop. by rewrite (is_digit_in_digit c Hc), (IH Hl).
Qed.

(** [parseInt] reads a numeral as the binary64 number for the natural
    number it denotes. *)
Lemma parseInt_numeral (s : string) :
  is_numeral s = true -> parseInt s = binary64 (Int (numeral_value s)).
Proof.
  intros Hs. unfold parseInt, numeral_value.
  destruct (numeral_chars s Hs) as (c & l & -> & Hc & Hl).
  assert (Hcl : forallb is_digit (c :: l) = true) by (simpl; by rewrite Hc, Hl).
  rewrite (drop_spaces_digits _ Hcl).
  assert (Hsign : strip_sign (c :: l) = (false, c :: l)).
  { simpl. by rewrite (digit_eqb c "-" Hc), (digit_eqb c "+" Hc). }
  rewrite Hsign.
  assert (Hhex : strip_hex_prefix (c :: l) = None).
  { destruct l as [|c1 l]; simpl; [done |].
    simpl in Hl. apply andb_prop in Hl as [Hc1 _].
    by rewrite (digit_eqb c1 "x" Hc1), (digit_eqb c1 "X" Hc1), andb_false_r. }
  rewrite Hhex, (span_decimal _ Hcl). done.
Qed.

Lemma code_inj (c d : ascii) : code c = code d -> c = d.
Proof.
  unfold code. intros H%N2Z.inj.
  by rewrite <- (ascii_N_embedding c), <- (ascii_N_embedding d), H.
Qed.

(** The numeral of a natural number is made of digits and does not start
    with [0], unless it is [0]. *)
Lemma numeral_normal (n : N) :
  exists c rest,
    chars (numeral n) = c :: rest /\
    forallb is_digit (c :: rest) = true /\
    (rest = [] \/ Ascii.eqb c "0" = false).
Proof.
  pose proof (numeral_is_numeral n) as Hnum.
  destruct (numeral_chars _ Hnum) as (c & rest & Hchars & Hc & Hrest).
  exists c, rest. split; [done |]. split; [simpl; by rewrite Hc, Hrest |].
  destruct n as [|p]; [left; by injection Hchars as <- <- |].
  right. unfold numeral, NilZero.string_of_uint in Hchars.
  assert (Hnorm : N.to_uint (N.pos p) = Decimal.unorm (N.to_uint (N.pos p))).
  { rewrite <- DecimalN.Unsigned.to_of. by rewrite DecimalN.Unsigned.of_to. }
  pose proof (DecimalFacts.nzhead_nonzero (N.to_uint (N.pos p))) as Hhead.
  unfold Decimal.unorm in Hnorm.
  destruct (Decimal.nzhead (N.to_uint (N.pos p))) eqn:Hnz.
  - rewrite Hnorm in Hchars. injection Hchars as <- <-.
    simpl in Hnorm. exfalso.
    by apply (DecimalPos.Unsigned.to_uint_nonzero p).
  - by destruct (Hhead u).
  - rewrite Hnorm in Hchars. by injection Hchars as <- _.
  - rewrite Hnorm in Hchars. by injection Hchars as <- _.
  - rewrite Hnorm in Hchars. by injection Hchars as <- _.
  - rewrite Hnorm in Hchars. by injection Hchars as <- _.
  - rewrite Hnorm in Hchars. by injection Hchars as <- _.
  - rewrite Hnorm in Hchars. by injection Hchars as <- _.
  - rewrite Hnorm in Hchars. by injection Hchars as <- _.
  - rewrite Hnorm in Hchars. by injection Hchars as <- _.
  - rewrite Hnorm in Hchars. by injection Hchars as <- _.
Qed.

Lemma digits_value_lower (l : list ascii) (acc : Z) :
  0 <= acc -> forallb is_digit l = true ->
  acc * 10 ^ Z.of_nat (length l) <=
  fold_left (fun a c => a * 10 + default 0 (digit_in 10 c)) l acc.
Proof.
  revert acc. induction l as [|c l IH]; intros acc Hacc; simpl.
  - intros _. lia.
  - intros [Hc Hl]%andb_prop. rewrite (digit_in_digit c Hc). simpl.
    assert (Hcode : 48 <= code c) by (unfold is_digit in Hc; lia).
    etrans; [| apply IH; [lia | done]].
    rewrite Nat2Z.inj_succ, Z.pow_succ_r by lia.
    assert (0 <= 10 ^ Z.of_nat (length l)) by (apply Z.pow_nonneg; lia).
    nia.
Qed.

(** A natural number below 10^21 has at most 21 digits. *)
Lemma numeral_length (n : N) :
  Z.of_N n < 10 ^ 21 -> (length (chars (numeral n)) <= 21)%nat.
Proof.
  intros Hn.
  destruct (numeral_normal n) as (c & rest & Hchars & Hdigits & Hnormal).
  rewrite Hchars. simpl.
  destruct Hnormal as [-> | Hc]; [simpl; lia |].
  pose proof (numeral_value_numeral n) as Hvalue.
  unfold numeral_value, digits_value in Hvalue. rewrite Hchars in Hvalue.
  simpl in Hvalue, Hdigits. apply andb_prop in Hdigits as [Hd Hrest].
  rewrite (digit_in_digit c Hd) in Hvalue. simpl in Hvalue.
  assert (Hone : 1 <= code c - 48).
  { unfold is_digit in Hd.
    destruct (decide (code c = 48)) as [Heq | Hne]; [| lia].
    apply (code_inj c "0") in Heq. subst c. done. }
  pose proof (digits_value_lower rest (code c - 48) ltac:(lia) Hrest) as Hlow.
  change (0 * 10 + (code c - 48)) with (code c - 48) in Hvalue.
  rewrite Hvalue in Hlow.
  destruct (decide (length rest < 21)%nat) as [| Hlong]; [lia |].
  assert (10 ^ 21 <= 10 ^ Z.of_nat (length rest))
    by (apply Z.pow_le_mono_r; lia).
  nia.
Qed.

Lemma drop_zeros_spec (l : list ascii) :
  l = repeat "0"%char (length l - length (drop_zeros l)) ++ drop_zeros l.
Proof.
  induction l as [|c l IH]; simpl; [done |].
  destruct (Ascii.eqb_spec c "0") as [-> | Hne].
  - pose proof (f_equal (@length ascii) IH) as Hlen.
    rewrite length_app, repeat_length in Hlen.
    replace (S (length l) - length (drop_zeros l))%nat
      with (S (length l - length (drop_zeros l))) by lia.
    simpl. by rewrite <- IH.
  - simpl. by rewrite Nat.sub_diag.
Qed.

Lemma rev_repeat {A} (x : A) (k : nat) : rev (repeat x k) = repeat x k.
Proof.
  induction k as [|k IH]; simpl; [done |].
  rewrite IH. clear IH. induction k as [|k IH]; simpl; [done |].
  by rewrite IH.
Qed.

(** [Number::toString] of a natural number up to 2^53 is its numeral. *)
Lemma num_to_string_numeral (n : N) :
  Z.of_N n <= 2 ^ 53 -> num_to_string (Int (Z.of_N n)) = numeral n.
Proof.
  intros Hsafe.
  assert (Hn : Z.of_N n < 10 ^ 21) by lia.
  unfold num_to_string. rewrite shortest_safe by lia.
  destruct n as [|p]; [done |].
  simpl places. simpl Z.of_N. cbv iota beta.
  unfold positive_to_chars, nat_digits. fold (numeral (N.pos p)).
  pose proof (numeral_length (N.pos p) Hn) as Hlen.
  set (ds := chars (numeral (N.pos p))) in *.
  pose proof (drop_zeros_spec (rev ds)) as Hzeros.
  set (s := drop_zeros (rev ds)) in *.
  assert (Hs : (length s <= length ds)%nat).
  { pose proof (f_equal (@length ascii) Hzeros) as H.
    rewrite length_app, repeat_length, length_rev in H. lia. }
  rewrite length_rev, Nat2Z.inj_0, Z.sub_0_r.
  replace ((Z.of_nat (length s) <=? Z.of_nat (length ds))
           && (Z.of_nat (length ds) <=? 21)) with true
    by (symmetry; apply andb_true_intro; split; apply Z.leb_le; lia).
  unfold zeros.
  replace (Z.to_nat (Z.of_nat (length ds) - Z.of_nat (length s)))
    with (length (rev ds) - length s)%nat by (rewrite length_rev; lia).
  rewrite <- (rev_repeat "0"%char), <- rev_app_distr, <- Hzeros.
  rewrite rev_involutive. subst ds. apply str_chars.
Qed.

(** ** The text of a list of numbers under [JSON.parse] *)

Lemma option_map_app_nil {A} (x : option (list A)) : option_map (app []) x = x.
Proof. by destruct x. Qed.

Lemma digit_number_char (c : ascii) : is_digit c = true -> is_number_char c = true.
Proof. intros Hc. unfold is_number_char. by rewrite Hc. Qed.

Lemma lex_digits (acc ds rest : list ascii) :
  forallb is_digit ds = true ->
  lex (LNumber acc) (ds ++ rest) = lex (LNumber (rev ds ++ acc)) rest.
Proof.
  revert acc. induction ds as [|c ds IH]; intros acc; simpl; [done |].
  intros [Hc Hds]%andb_prop. rewrite (digit_number_char c Hc).
  rewrite option_map_app_nil, (IH _ Hds). by rewrite <- app_assoc.
Qed.

Lemma lex_start_digit (c : ascii) :
  is_digit c = true -> lex_start c = Some ([], LNumber [c]).
Proof.
  intros Hc. unfold lex_start.
  assert (Hspace : is_json_space c = false).
  { unfold is_json_space. unfold is_digit in Hc. lia. }
  rewrite Hspace, !(digit_eqb c) by done. by rewrite Hc.
Qed.

Lemma lex_numeral (c : ascii) (ds rest : list ascii) :
  is_digit c = true -> forallb is_digit ds = true ->
  lex LStart (c :: ds ++ rest) = lex (LNumber (rev (c :: ds))) rest.
Proof.
  intros Hc Hds. simpl lex at 1. unfold lex_step.
  rewrite (lex_start_digit c Hc), option_map_app_nil, (lex_digits _ _ _ Hds).
  done.
Qed.

(** A numeral followed by a comma is not a JSON text. *)
Lemma JSON_parse_numeral_comma (s rest : string) :
  is_numeral s = true -> JSON_parse (s +:+ "," +:+ rest) = Throw SyntaxError.
Proof.
  intros Hs. destruct (numeral_chars s Hs) as (c & ds & Hchars & Hc & Hds).
  unfold JSON_parse. rewrite !chars_app, Hchars.
  change (chars ",") with [","%char]. simpl app.
  rewrite (lex_numeral c ds _ Hc Hds). simpl lex.
  change (is_number_char ",") with false. cbv iota.
  destruct (json_number (rev (rev ds ++ [c]))) as [n |]; [| done].
  change (lex_start ",") with (Some ([TComma], LStart)). cbv iota.
  by destruct (lex LStart (chars rest)).
Qed.

(** The numeral of a natural number up to 2^53 is the JSON text of that
    number. *)
Lemma JSON_parse_numeral (n : N) :
  Z.of_N n <= 2 ^ 53 ->
  JSON_parse (numeral n) = Ok (VNum (Int (Z.of_N n))).
Proof.
  intros Hsafe.
  destruct (numeral_normal n) as (c & ds & Hchars & Hdigits & Hnormal).
  pose proof (numeral_value_numeral n) as Hvalue.
  unfold numeral_value in Hvalue.
  unfold JSON_parse. rewrite Hchars in *.
  simpl in Hdigits. apply andb_prop in Hdigits as [Hc Hds].
  rewrite <- (app_nil_r ds), (lex_numeral c ds [] Hc Hds). simpl lex.
  rewrite rev_app_distr, rev_involutive. simpl app.
  assert (Hnumber : json_number (c :: ds) = Some (Int (Z.of_N n))).
  { unfold json_number. rewrite (digit_eqb c "-" Hc) by done.
    assert (Hcd : forallb is_digit (c :: ds) = true) by (simpl; by rewrite Hc, Hds).
    rewrite (span_digits _ Hcd). simpl fraction_part. cbv iota beta.
    assert (Hok : match c :: ds with
                  | [] => false
                  | [_] => true
                  | c0 :: _ :: _ => negb (Ascii.eqb c0 "0")
                  end = true).
    { destruct ds as [|d ds]; [done |].
      destruct Hnormal as [? | ->]; done. }
    rewrite Hok. simpl. rewrite app_nil_r, Hvalue.
    unfold scientific. change (0 <=? 0 - Z.of_nat 0) with true. cbv iota.
    change (10 ^ (0 - Z.of_nat 0)) with 1. rewrite Z.mul_1_r.
    rewrite binary64_safe by lia. done. }
  rewrite Hnumber. done.
Qed.

(** ** Editing a list of numbers *)

Lemma forallb_digit_no_comma (l : list ascii) :
  forallb is_digit l = true -> existsb (Ascii.eqb ",") l = false.
Proof.
  induction l as [|c l IH]; [done |].
  intros [Hc Hl]%andb_prop.
  change (existsb (Ascii.eqb ",") (c :: l))
    with (Ascii.eqb "," c || existsb (Ascii.eqb ",") l).
  rewrite (IH Hl), orb_false_r, Ascii.eqb_sym. by apply digit_eqb.
Qed.

Lemma rev_digits (l : list ascii) :
  forallb is_digit l = true -> forallb is_digit (rev l) = true.
Proof.
  intros Hl. apply forallb_forall. intros c Hc%in_rev.
  by apply (proj1 (forallb_forall _ _) Hl).
Qed.

Lemma numeral_piece (n : N) : piece (numeral n).
Proof.
  destruct (numeral_normal n) as (c & rest & Hchars & Hdigits & _).
  repeat split.
  - intros Hempty. by rewrite Hempty in Hchars.
  - unfold trim, trim_chars. rewrite Hchars.
    rewrite (drop_spaces_digits _ Hdigits).
    rewrite (drop_spaces_digits _ (rev_digits _ Hdigits)).
    by rewrite rev_involutive, <- Hchars, str_chars.
  - unfold includes. rewrite Hchars. by apply forallb_digit_no_comma.
Qed.

Lemma safe_integer_bound (n : N) :
  Z.of_N n <= max_safe_integer -> Z.of_N n <= 2 ^ 53.
Proof. unfold max_safe_integer. lia. Qed.

Lemma join_naturals (ns : list N) :
  Forall (fun n => Z.of_N n <= max_safe_integer) ns ->
  join_values ", " (naturals ns) = Ok (join ", " (map numeral ns)).
Proof.
  intros Hns. unfold join_values.
  assert (Hmap : map_exc
    (fun x => match x with VUndefined | VNull => Ok "" | _ => to_string x end)
    (naturals ns) = Ok (map numeral ns)).
  { induction Hns as [|n ns Hn _ IH]; [done |].
    change (naturals (n :: ns)) with (VNum (Int (Z.of_N n)) :: naturals ns).
    cbn [map_exc]. change (to_string (VNum (Int (Z.of_N n))))
      with (Ok (num_to_string (Int (Z.of_N n)))).
    rewrite (num_to_string_numeral n (safe_integer_bound n Hn)), IH. done. }
  by rewrite Hmap.
Qed.

Lemma parseInt_numerals (ns : list N) :
  Forall (fun n => Z.of_N n <= max_safe_integer) ns ->
  List.filter notNaN (map parseInt (map numeral ns)) =
  map (fun n => Int (Z.of_N n)) ns.
Proof.
  induction 1 as [|n ns Hn _ IH]; simpl; [done |].
  rewrite (parseInt_numeral _ (numeral_is_numeral n)), numeral_value_numeral.
  rewrite binary64_safe by (apply safe_integer_bound in Hn; lia).
  simpl. by rewrite IH.
Qed.

(** X18.  A list of numbers under an edit without a change: the text that the
    editor shows for a list of natural numbers up to 2^53 - 1 is stored as
    the same list when the list is empty or has two or more numbers; for a
    list of one number the number itself is stored, not a list. *)
Theorem edit_numbers (col : string) (ns : list N) :
  col ∈ ["AvailableSlots"; "PreferredPhases"] ->
  Forall (fun n => Z.of_N n <= max_safe_integer) ns ->
  exists text,
    startEditing (VArr (naturals ns)) = Ok text /\
    saveEdit col text =
      match ns with
      | [n] => VNum (Int (Z.of_N n))
      | _ => VArr (naturals ns)
      end.
Proof.
  intros Hcol Hns. exists (join ", " (map numeral ns)).
  split; [by apply join_naturals |].
  assert (Hsave : saveEdit col (join ", " (map numeral ns)) =
    match JSON_parse (join ", " (map numeral ns)) with
    | Ok processedValue => processedValue
    | Throw _ =>
        VArr (map VNum
                (List.filter notNaN
                   (map (fun s => parseInt (trim s))
                      (split "," (join ", " (map numeral ns))))))
    end).
  { unfold saveEdit.
    repeat (apply elem_of_cons in Hcol as [-> | Hcol]; [done |]).
    by apply elem_of_nil in Hcol. }
  rewrite Hsave. clear Hsave Hcol.
  destruct ns as [|n [|m ns]].
  - done.
  - simpl join. apply Forall_cons in Hns as [Hn _].
    by rewrite (JSON_parse_numeral n (safe_integer_bound n Hn)).
  - assert (Hthrow : JSON_parse (join ", " (map numeral (n :: m :: ns))) =
                     Throw SyntaxError).
    { change (join ", " (map numeral (n :: m :: ns)))
        with (numeral n +:+ "," +:+ (" " +:+ join ", " (map numeral (m :: ns)))).
      apply JSON_parse_numeral_comma, numeral_is_numeral. }
    rewrite Hthrow. f_equal.
    assert (Hpieces :
      map trim (split "," (join ", " (map numeral (n :: m :: ns)))) =
      map numeral (n :: m :: ns)).
    { unfold split. rewrite map_map.
      assert (Hall : Forall piece (map numeral (n :: m :: ns))).
      { apply Forall_map, Forall_forall. intros x _. apply numeral_piece. }
      pose proof (split_join [] _ _ eq_refl eq_refl Hall) as Hsplit.
      simpl app in Hsplit. rewrite <- Hsplit at 2.
      apply map_ext. intros l. unfold trim. by rewrite chars_str. }
    rewrite <- (map_map trim parseInt), Hpieces, parseInt_numerals by done.
    unfold naturals. by rewrite map_map.
Qed.

Lemma edit_numbers_witness :
  exists text,
    startEditing (VArr (naturals [3%N])) = Ok text /\
    saveEdit "AvailableSlots" text = VNum (Int 3).
Proof.
  apply (edit_numbers "AvailableSlots" [3%N]).
  - apply list_elem_of_In. simpl. tauto.
  - repeat constructor. unfold max_safe_integer. simpl. lia.
Defined.

(** X19.  A number under an edit without a change: in a numeric column, the
    text that the editor shows for a natural number up to 2^53 - 1 is
    stored as the same number; for 0 the editor shows the empty text, and
    the empty text is stored as 0. *)
Theorem edit_number_round_trip (col : string) (n : N) :
  col ∈ ["PriorityLevel"; "Duration"; "MaxConcurrent"; "MaxLoadPerPhase";
         "QualificationLevel"] ->
  Z.of_N n <= max_safe_integer ->
  exists text,
    startEditing (VNum (Int (Z.of_N n))) = Ok text /\
    (text = "" <-> n = 0%N) /\
    saveEdit col text = VNum (Int (Z.of_N n)).
Proof.
  intros Hcol Hn.
  assert (Hsave : forall text,
    saveEdit col text = VNum (num_or (parseInt text) (Int 0))).
  { intros text. unfold saveEdit.
    repeat (apply elem_of_cons in Hcol as [-> | Hcol]; [done |]).
    by apply elem_of_nil in Hcol. }
  destruct n as [|p].
  - exists "". rewrite Hsave. done.
  - exists (numeral (N.pos p)). rewrite Hsave. split; [| split].
    + unfold startEditing, or_empty. simpl truthy. cbv iota.
      change (to_string (VNum (Int (Z.of_N (N.pos p)))))
        with (Ok (num_to_string (Int (Z.of_N (N.pos p))))).
      by rewrite (num_to_string_numeral _ (safe_integer_bound _ Hn)).
    + split; [| done]. intros Hempty.
      destruct (numeral_piece (N.pos p)) as (Hne & _). done.
    + rewrite (parseInt_numeral _ (numeral_is_numeral _)),
        numeral_value_numeral.
      rewrite binary64_safe by (apply safe_integer_bound in Hn; lia). done.
Qed.

Lemma edit_number_round_trip_witness :
  exists text,
    startEditing (VNum (Int 0)) = Ok text /\
    (text = "" <-> 0%N = 0%N) /\
    saveEdit "Duration" text = VNum (Int 0).
Proof.
  apply (edit_number_round_trip "Duration" 0%N).
  - apply list_elem_of_In. simpl. tauto.
  - unfold max_safe_integer. simpl. lia.
Defined.

(** ** The validation of the worker thread *)

Section WorkerThread.

Lemma push_content e errors :
  map content (push e errors) = map content errors ++ [content e].
Proof. unfold push. by rewrite map_app. Qed.

Lemma when_push_content cond e errors :
  map content (when cond (push e) errors) =
  map content errors ++ given cond (content e).
Proof. destruct cond; simpl; [apply push_content | by rewrite app_nil_r]. Qed.

Lemma when_push cond e errors :
  when cond (push e) errors = errors ++ when cond (push e) [].
Proof. destruct cond; simpl; [done | by rewrite app_nil_r]. Qed.

Lemma checkClient_app seen c i errors :
  checkClient seen c i errors = errors ++ checkClient seen c i [].
Proof.
  unfold checkClient.
  rewrite when_push, (when_push _ _ (when _ _ errors)), (when_push _ _ errors),
    (when_push _ _ (when _ _ (when _ _ []))), (when_push _ _ (when _ _ [])).
  by rewrite !app_assoc.
Qed.

Lemma checkWorker_app seen w i errors :
  checkWorker seen w i errors = errors ++ checkWorker seen w i [].
Proof.
  unfold checkWorker.
  rewrite when_push, (when_push _ _ (when _ _ errors)), (when_push _ _ errors),
    (when_push _ _ (when _ _ (when _ _ []))), (when_push _ _ (when _ _ [])).
  by rewrite !app_assoc.
Qed.

Lemma checkTask_app seen t i errors :
  checkTask seen t i errors = errors ++ checkTask seen t i [].
Proof.
  unfold checkTask.
  rewrite when_push, (when_push _ _ (when _ _ errors)), (when_push _ _ errors),
    (when_push _ _ (when _ _ (when _ _ []))), (when_push _ _ (when _ _ [])).
  by rewrite !app_assoc.
Qed.

Context {A : Type}.
Variable body : gset string -> A -> nat ->
                list ValidationError -> list ValidationError.
Variable key : A -> string.
Hypothesis body_app : forall seen x i errors,
  body seen x i errors = errors ++ body seen x i [].

Lemma forEach_from_app l i seen errors :
  forEach_from body key l i seen errors =
  errors ++ forEach_from body key l i seen [].
Proof.
  revert i seen errors.
  induction l as [|x l IH]; intros i seen errors; simpl.
  - by rewrite app_nil_r.
  - rewrite IH, (IH _ _ (body seen x i [])), (body_app _ _ _ errors).
    by rewrite app_assoc.
Qed.

Lemma forEach_from_cons x l i seen :
  forEach_from body key (x :: l) i seen [] =
  body seen x i [] ++ forEach_from body key l (S i) ({[ key x ]} ∪ seen) [].
Proof. simpl. by rewrite forEach_from_app. Qed.

Lemma forEach_from_rows (row : gset string -> A -> nat -> list finding) :
  (forall seen x i, map content (body seen x i []) = row seen x i) ->
  forall l i seen,
    map content (forEach_from body key l i seen []) = rows row key l i seen.
Proof.
  intros Hrow l. induction l as [|x l IH]; intros i seen; [done |].
  rewrite forEach_from_cons, map_app, Hrow, IH. done.
Qed.

Lemma forEach_from_identifiers (tag : string) (checks : list string) :
  (forall seen x i,
     sublist (map id (body seen x i [])) (map (issueId tag i) checks)) ->
  forall l i seen,
    sublist (map id (forEach_from body key l i seen []))
      (identifiers tag checks i (length l)).
Proof.
  intros Hrow l. induction l as [|x l IH]; intros i seen; [done |].
  rewrite forEach_from_cons, map_app.
  apply sublist_app; [apply Hrow | apply IH].
Qed.

End WorkerThread.

Lemma validateDataInWorker_app clients workers tasks :
  validateDataInWorker clients workers tasks =
    forEach_from checkClient ClientID clients 0 ∅ []
    ++ forEach_from checkWorker WorkerID workers 0 ∅ []
    ++ forEach_from checkTask TaskID tasks 0 ∅ [].
Proof.
  unfold validateDataInWorker.
  rewrite (forEach_from_app checkTask TaskID checkTask_app).
  rewrite (forEach_from_app checkWorker WorkerID checkWorker_app).
  by rewrite <- app_assoc.
Qed.

Lemma validateDataInWorker_rows clients workers tasks :
  map content (validateDataInWorker clients workers tasks) =
    rows lightClientRow ClientID clients 0 ∅
    ++ rows lightWorkerRow WorkerID workers 0 ∅
    ++ rows lightTaskRow TaskID tasks 0 ∅.
Proof.
  rewrite validateDataInWorker_app, !map_app.
  rewrite (forEach_from_rows checkClient ClientID checkClient_app lightClientRow),
    (forEach_from_rows checkWorker WorkerID checkWorker_app lightWorkerRow),
    (forEach_from_rows checkTask TaskID checkTask_app lightTaskRow); [done | | |];
    intros seen x i; unfold checkTask, checkWorker, checkClient,
      lightTaskRow, lightWorkerRow, lightClientRow;
    rewrite !when_push_content; simpl; by rewrite <- ?app_assoc.
Qed.

Lemma rows_restated {A} (light full : gset string -> A -> nat -> list finding)
    (key : A -> string) :
  (forall seen x i f, f ∈ light seen x i -> restated f ∈ full seen x i) ->
  forall l i seen f,
    f ∈ rows light key l i seen -> restated f ∈ rows full key l i seen.
Proof.
  intros Hrow l. induction l as [|x l IH]; intros i seen f; simpl.
  - by intros ?%elem_of_nil.
  - rewrite !elem_of_app. intros [Hf | Hf]; [left | right]; eauto.
Qed.

Lemma lightClientRow_restated seen c i f :
  f ∈ lightClientRow seen c i -> restated f ∈ clientRow seen c i.
Proof.
  unfold lightClientRow, clientRow. rewrite !elem_of_app, !elem_of_given.
  intros [[H ->] | [[H ->] | [H ->]]].
  - by left.
  - right. right. by left.
  - right. right. right. by left.
Qed.

Lemma lightWorkerRow_restated seen w i f :
  f ∈ lightWorkerRow seen w i -> restated f ∈ workerRow seen w i.
Proof.
  unfold lightWorkerRow, workerRow. rewrite !elem_of_app, !elem_of_given.
  intros [[H ->] | [[H ->] | [H ->]]].
  - by left.
  - right. right. by left.
  - right. right. right. by left.
Qed.

Lemma lightTaskRow_restated seen t i f :
  f ∈ lightTaskRow seen t i -> restated f ∈ taskRow seen t i.
Proof.
  unfold lightTaskRow, taskRow. rewrite !elem_of_app, !elem_of_given.
  intros [[H ->] | [[H ->] | [H ->]]].
  - by left.
  - right. right. by left.
  - right. right. right. left. split; [| done]. by rewrite H, orb_true_r.
Qed.

(** X20.  Every issue of the validation of the worker thread is an issue of
    [validateAll], when [validateAll] returns: the same severity, field,
    row and entity, and the same message, but for the duration, where
    [Duration must be positive] reads [Duration must be a positive
    integer]. *)
Theorem worker_thread_issue_in_full (ids : nat -> string)
    (clients : list Client) (workers : list Worker) (tasks : list Task)
    (errors : list ValidationError) (e : ValidationError) :
  validateAll ids clients workers tasks = Ok errors ->
  e ∈ validateDataInWorker clients workers tasks ->
  restated (content e) ∈ map content errors.
Proof.
  intros Hrun He.
  assert (Hall : Forall (fun w => completes (overloaded w) = true) workers).
  { apply (validateAll_completes ids clients workers tasks). by rewrite Hrun. }
  destruct (validateAll_report ids clients workers tasks Hall)
    as (errors' & Hrun' & Hsays).
  rewrite Hrun in Hrun'. injection Hrun' as <-. rewrite Hsays.
  apply (list_elem_of_fmap_2 content) in He.
  rewrite validateDataInWorker_rows, !elem_of_app in He.
  rewrite !elem_of_app.
  destruct He as [He | [He | He]].
  - left. revert He. apply rows_restated. apply lightClientRow_restated.
  - right. left. revert He. apply rows_restated. apply lightWorkerRow_restated.
  - right. right. left. revert He. apply rows_restated.
    apply lightTaskRow_restated.
Qed.

Lemma worker_thread_issue_in_full_witness :
  exists errors,
    validateAll no_ids [] []
      [ {| TaskID := "T1"; TaskName := "Survey"; Category := "";
           Duration := Int 0; RequiredSkills := Arr [];
           PreferredPhases := Arr []; MaxConcurrent := Int 1 |} ]
      = Ok errors /\
    (error, "Duration must be a positive integer", Some "Duration",
     Some 0%nat, task) ∈ map content errors.
Proof.
  set (t := {| TaskID := "T1"; TaskName := "Survey"; Category := "";
               Duration := Int 0; RequiredSkills := Arr [];
               PreferredPhases := Arr []; MaxConcurrent := Int 1 |}).
  destruct (validateAll no_ids [] [] [t]) as [errors | e] eqn:Hrun;
    [| by vm_compute in Hrun].
  exists errors. split; [done |].
  apply (worker_thread_issue_in_full no_ids [] [] [t] errors
           {| id := "task-0-duration"; type := error;
              message := "Duration must be positive";
              field := Some "Duration"; rowIndex := Some 0%nat;
              entity := task |} Hrun).
  apply list_elem_of_In. vm_compute. by left.
Defined.

(** *** The identifiers of the issues *)

Lemma append_inj_l (p s t : string) : p +:+ s = p +:+ t -> s = t.
Proof. induction p as [|c p IH]; simpl; [done |]. intros [= H]. by apply IH. Qed.

Lemma numeral_inj (n m : N) : numeral n = numeral m -> n = m.
Proof. intros H. apply N2Z.inj. by rewrite <- !numeral_value_numeral, H. Qed.

Lemma numeral_digits (n : N) : forallb is_digit (chars (numeral n)) = true.
Proof. by destruct (numeral_normal n) as (c & rest & -> & Hdigits & _). Qed.

Lemma numeral_dash_inj (n m : N) (s t : string) :
  numeral n +:+ "-" +:+ s = numeral m +:+ "-" +:+ t -> n = m /\ s = t.
Proof.
  intros H. apply (f_equal chars) in H. rewrite !chars_app in H.
  change (chars "-") with ["-"%char] in H. simpl app in H.
  apply (f_equal (span is_digit)) in H.
  rewrite !span_digits_stop in H by (apply numeral_digits || done).
  injection H as Hn Hs. split.
  - apply numeral_inj. by rewrite <- (str_chars (numeral n)), Hn, str_chars.
  - by rewrite <- (str_chars s), Hs, str_chars.
Qed.

Lemma issueId_numeral (tag : string) (i : nat) (check : string) :
  Z.of_nat i < 2 ^ 53 ->
  issueId tag i check = tag +:+ "-" +:+ numeral (N.of_nat i) +:+ "-" +:+ check.
Proof.
  intros Hi. unfold issueId. rewrite <- (nat_N_Z i).
  rewrite num_to_string_numeral by (rewrite nat_N_Z; lia). done.
Qed.

Lemma issueId_inj (tag : string) (i j : nat) (s t : string) :
  Z.of_nat i < 2 ^ 53 -> Z.of_nat j < 2 ^ 53 ->
  issueId tag i s = issueId tag j t -> i = j /\ s = t.
Proof.
  intros Hi Hj. rewrite !issueId_numeral by done.
  intros H%append_inj_l. change ("-" +:+ ?x) with (String "-" x) in H.
  injection H as H. apply numeral_dash_inj in H as [H ->].
  split; [by apply Nat2N.inj | done].
Qed.

Lemma identifiers_NoDup (tag : string) (checks : list string) (i n : nat) :
  NoDup checks -> Z.of_nat (i + n) <= 2 ^ 53 ->
  NoDup (identifiers tag checks i n).
Proof.
  intros Hchecks Hn. unfold identifiers.
  assert (Hseq : forall j, j ∈ seq i n -> Z.of_nat j < 2 ^ 53).
  { intros j Hj%elem_of_seq. lia. }
  apply NoDup_bind; [| | apply NoDup_seq].
  - intros j1 j2 y Hj1 Hj2 (s1 & -> & _)%list_elem_of_fmap
      (s2 & Heq & _)%list_elem_of_fmap.
    by apply (issueId_inj tag j1 j2 s1 s2 (Hseq j1 Hj1) (Hseq j2 Hj2)).
  - intros j Hj. apply NoDup_fmap_2_strong; [| done].
    intros s t _ _ Heq.
    by apply (issueId_inj tag j j s t (Hseq j Hj) (Hseq j Hj)).
Qed.

Lemma identifiers_tag (tag : string) (checks : list string) (i n : nat) x :
  x ∈ identifiers tag checks i n -> exists rest, x = tag +:+ "-" +:+ rest.
Proof.
  unfold identifiers. intros (j & (s & -> & _)%list_elem_of_fmap & _)%list_elem_of_bind.
  by eexists.
Qed.

Lemma sublist_given cond1 cond2 cond3 (x1 x2 x3 : string) :
  sublist ((if cond1 : bool then [x1] else [])
           ++ (if cond2 : bool then [x2] else [])
           ++ (if cond3 : bool then [x3] else [])) [x1; x2; x3].
Proof.
  destruct cond1, cond2, cond3; simpl;
    repeat first [apply sublist_nil | apply sublist_skip; [] | apply sublist_cons
                 | apply sublist_skip].
Qed.

Lemma when_push_id cond e errors :
  map id (when cond (push e) errors) =
  map id errors ++ (if cond then [id e] else []).
Proof.
  destruct cond; simpl; [unfold push; by rewrite map_app | by rewrite app_nil_r].
Qed.

(** X21.  No two issues of the validation of the worker thread have the same
    identifier, for collections within the length that an array can
    have. *)
Theorem validateDataInWorker_identifiers (clients : list Client)
    (workers : list Worker) (tasks : list Task) :
  Z.of_nat (length clients) <= max_array_length ->
  Z.of_nat (length workers) <= max_array_length ->
  Z.of_nat (length tasks) <= max_array_length ->
  NoDup (map id (validateDataInWorker clients workers tasks)).
Proof.
  unfold max_array_length. intros Hc Hw Ht.
  apply (sublist_NoDup _
    (identifiers "client" ["id"; "duplicate"; "priority"] 0 (length clients)
     ++ identifiers "worker" ["id"; "duplicate"; "skills"] 0 (length workers)
     ++ identifiers "task" ["id"; "duplicate"; "duration"] 0 (length tasks))).
  - assert (Hchecks : forall s : string,
      String.eqb "id" "duplicate" = false -> String.eqb "id" s = false ->
      String.eqb "duplicate" s = false -> NoDup ["id"; "duplicate"; s]).
    { intros s H1 H2 H3. repeat apply NoDup_cons_2; try apply NoDup_nil_2;
        rewrite ?elem_of_cons, ?elem_of_nil;
        intros H; repeat destruct H as [H | H]; try done;
        try (rewrite <- H in H2; done); try (rewrite <- H in H3; done). }
    rewrite !NoDup_app. repeat split.
    + apply identifiers_NoDup; [by apply Hchecks | lia].
    + intros x (r1 & ->)%identifiers_tag
        [(r2 & H)%identifiers_tag | (r2 & H)%identifiers_tag]%elem_of_app;
        done.
    + apply identifiers_NoDup; [by apply Hchecks | lia].
    + intros x (r1 & ->)%identifiers_tag (r2 & H)%identifiers_tag. done.
    + apply identifiers_NoDup; [by apply Hchecks | lia].
  - rewrite validateDataInWorker_app, !map_app.
    repeat apply sublist_app.
    + apply (forEach_from_identifiers checkClient ClientID checkClient_app).
      intros seen x i. unfold checkClient. rewrite !when_push_id.
      cbn [map id app]. rewrite <- app_assoc. apply sublist_given.
    + apply (forEach_from_identifiers checkWorker WorkerID checkWorker_app).
      intros seen x i. unfold checkWorker. rewrite !when_push_id.
      cbn [map id app]. rewrite <- app_assoc. apply sublist_given.
    + apply (forEach_from_identifiers checkTask TaskID checkTask_app).
      intros seen x i. unfold checkTask. rewrite !when_push_id.
      cbn [map id app]. rewrite <- app_assoc. apply sublist_given.
Qed.

Lemma validateDataInWorker_identifiers_witness :
  NoDup (map id (validateDataInWorker
                   [exampleClient "C1" []; exampleClient "C1" []] [] [])).
Proof.
  apply validateDataInWorker_identifiers;
    unfold max_array_length; simpl; lia.
Defined.

(** ** The rows of a sheet *)



